(** * HiPACE++: field-component registry, particle boundaries, slice shifts,
      configuration parsing

    A shallow embedding of the parts of HiPACE++ that the specification
    makes checkable statements about:

    - [src/fields/Fields.H]: [WhichSlice], [assert_map], [Comps],
      [Fields::shift] and the other kernels, [GetPosOffset],
      [CheckDomainBounds];
    - [src/particles/particle_util/GetAndSetPosition.H]: [EnforceBC];
    - [src/utils/Parser.H]: the narrowing [fillWithParser] overloads, the
      string overload with its brace substitution, [fillWithParserArr] and
      the [query] and [get] functions;
    - [src/Hipace.H] and [src/utils/AdaptiveTimeStep.H]: the configuration
      members of the predictor-corrector loop and of the adaptive time step.

    Conventions of the embedding.

    - [amrex::Real] has two readings.  Where a statement depends only on
      what the code compares, assigns or negates (the test of [EnforceBC],
      its absorbing branch, the kernels of [Fields]), the values are
      rationals ([Q]): every finite IEEE value is a rational and the
      comparisons are exact on them.  Where a statement depends on the sums,
      differences and products the code computes (the reflecting and the
      periodic branch of [EnforceBC], [GetPosOffset]), the values are
      binary64 data ([spec_float], module [B64]) and every operation rounds
      as IEEE 754 has it; [std::fmod] is exact in both readings.
    - The narrowing cast from [double] to [float] is about the IEEE formats
      themselves and is modelled on [spec_float] (binary64 to binary32).
    - C++ [int] and [amrex::Long] are [Z] with their ranges written out.
    - A call that ends the run ([AMREX_ALWAYS_ASSERT], [amrex::Abort]) is the
      [Aborted] outcome and carries what was written to
      [amrex::ErrorStream()] before it. *)

From Stdlib Require Import ZArith QArith Qround Qminmax Lqa String Ascii DecimalString
  OrderedTypeEx Sorted Floats.SpecFloat.
From stdpp Require Import gmap strings list fin_maps.

(** ** Outcomes of fallible calls *)

Inductive outcome (A : Type) : Type :=
| Returned (a : A)
| Aborted (err : string).
Arguments Returned {A} a.
Arguments Aborted {A} err.

Definition is_Returned {A} (o : outcome A) : bool :=
  match o with Returned _ => true | Aborted _ => false end.

(** The newline character written as ["\n"] in the C++ sources. *)
Definition nl : string := String (ascii_of_nat 10) EmptyString.

(** [operator<<] of an output stream on an [int]. *)
Definition show_int (n : Z) : string := NilZero.string_of_int (Z.to_int n).

(** ** Fields.H: slice roles and the component registry *)

Module WhichSlice.
(** [enum slice { Next=0, This, Previous, RhomJzIons, Salame, PCIter,
    PCPrevIter, N }] *)
Inductive slice : Set :=
| Next | This | Previous | RhomJzIons | Salame | PCIter | PCPrevIter.

Definition to_nat (s : slice) : nat :=
  match s with
  | Next => 0 | This => 1 | Previous => 2 | RhomJzIons => 3
  | Salame => 4 | PCIter => 5 | PCPrevIter => 6
  end.

Definition N : nat := 7.

Definition eqb (a b : slice) : bool := Nat.eqb (to_nat a) (to_nat b).
End WhichSlice.

Module AssertMap.
(** [struct assert_map : std::map<std::string, int>].  A [std::map] keeps
    its entries ordered by key and iterates in that order, so the map is
    the list of its entries in key order. *)
Definition assert_map : Type := list (string * Z).

(** [std::map::count] *)
Fixpoint count (m : assert_map) (str : string) : nat :=
  match m with
  | [] => 0
  | (k, _) :: m' => (if String.eqb k str then 1 else 0) + count m' str
  end.

(** [std::map::at]; [None] stands for the [std::out_of_range] exception. *)
Fixpoint at_ (m : assert_map) (str : string) : option Z :=
  match m with
  | [] => None
  | (k, v) :: m' => if String.eqb k str then Some v else at_ m' str
  end.

(** [std::map::emplace]: inserts at the key's place in the order, and does
    nothing when the key is already there. *)
Fixpoint emplace (k : string) (v : Z) (m : assert_map) : assert_map :=
  match m with
  | [] => [(k, v)]
  | (k', v') :: m' =>
      match String_as_OT.cmp k k' with
      | Lt => (k, v) :: (k', v') :: m'
      | Eq => (k', v') :: m'
      | Gt => (k', v') :: emplace k v m'
      end
  end.

(** [multi_emplace (int& n, Args...comps)]: [(emplace(comps, n++),...)].
    The counter advances for every name, also for one that was already
    there.  Returns the new counter and the new map. *)
Fixpoint multi_emplace (n : Z) (comps : list string) (m : assert_map)
  : Z * assert_map :=
  match comps with
  | [] => (n, m)
  | c :: cs => multi_emplace (n + 1) cs (emplace c n m)
  end.

(** One item of the listing: [" '" << alloc_str << "' (" << num << "),"]. *)
Definition entry_text (e : string * Z) : string :=
  " '" +:+ e.1 +:+ "' (" +:+ show_int e.2 +:+ "),".

(** The loop [for (auto& [alloc_str, num] : *this)]. *)
Definition listing (m : assert_map) : string :=
  foldr (fun e acc => entry_text e +:+ acc) EmptyString m.

(** Everything [operator[]] writes to [amrex::ErrorStream()] on a miss. *)
Definition not_allocated_text (m : assert_map) (str : string) : string :=
  "Component '" +:+ str +:+ "' is not allocated" +:+ nl +:+ "Fields allocated:"
    +:+ listing m +:+ nl.

(** [int operator[] (const std::string& str) const] *)
Definition operator_subscript (m : assert_map) (str : string) : outcome Z :=
  if Nat.eqb (count m str) 0 then
    Aborted (not_allocated_text m str)
  else
    match at_ m str with
    | Some idx => Returned idx
    | None => Aborted EmptyString
    end.

(** The invariant of a [std::map]: keys strictly increasing. *)
Definition keys_sorted (m : assert_map) : Prop :=
  StronglySorted String_as_OT.lt (map fst m).
End AssertMap.

(** [inline std::array<assert_map, WhichSlice::N> Comps{}] *)
Definition Comps_t : Type := WhichSlice.slice -> AssertMap.assert_map.

(** [Comps[islice][comp]] *)
Definition Comps_lookup (Comps : Comps_t) (islice : WhichSlice.slice)
    (comp : string) : outcome Z :=
  AssertMap.operator_subscript (Comps islice) comp.

(** A string occurs inside another one. *)
Definition occurs_in (piece whole : string) : Prop :=
  exists before after, whole = before +:+ piece +:+ after.

(** The registry the examples use: three components of the current slice,
    none elsewhere. *)
Definition demo_Comps : Comps_t :=
  fun s =>
    match s with
    | WhichSlice.This => (AssertMap.multi_emplace 0 ["Ez"; "Bx"; "By"] []).2
    | _ => []
    end.

(** ** amrex::Real as exact rationals *)

(** [a < b] on [amrex::Real]. *)
Definition Rlt (a b : Q) : bool := negb (Qle_bool b a).

(** The quotient rounded toward zero. *)
Definition trunc (q : Q) : Z := Z.quot (Qnum q) (Zpos (Qden q)).

(** The exact remainder [x - n*y], where [n] is [x/y] with its fractional
    part cut off: what [std::fmod(x, y)] gives for numbers [x] and [y <> 0],
    with the sign of [x] and magnitude below [|y|].  ([std::fmod(x, 0)] is
    NaN, which is no rational: see [B64.fmod].) *)
Definition fmod (x y : Q) : Q := (x - inject_Z (trunc (x / y)) * y)%Q.

(** ** Hipace.H: boundary enumerations *)

Module FieldBoundary.
Inductive type : Set := Dirichlet | Periodic | Open.
End FieldBoundary.

Module ParticleBoundary.
Inductive type : Set := Reflecting | Periodic | Absorbing.
End ParticleBoundary.

(** ** The particle tile data that [EnforceBC] writes to *)

(** The struct-of-arrays view of a particle tile: [rdata(comp)[ip]] are the
    real components (the weight is component [w_index]) and [idcpu[ip]] the
    64-bit id word behind [ptd.id(ip)]. *)
Record ParticleTileData : Type := {
  rdata : list (list Q);
  idcpu : list Z
}.

(** Modelled from the spec: [ParticleIDWrapper::make_invalid] and [is_valid]
    belong to AMReX and are not under src/; the spec only says that the
    particle is "marked invalid".  AMReX keeps the validity of an id in the
    top bit of the 64-bit id word: [make_invalid] clears it, [is_valid]
    reads it. *)
Definition make_invalid (id : Z) : Z := Z.land id (Z.ones 63).
Definition is_valid (id : Z) : bool := Z.testbit id 63.

(** [ptd.rdata(w_index)[ip] = amrex::Real(0)].  An index outside the arrays is
    undefined behaviour in C++; here it leaves the data as it is. *)
Definition set_rdata (ptd : ParticleTileData) (comp ip : nat) (v : Q)
    : ParticleTileData :=
  {| rdata := alter (fun col => <[ip := v]> col) comp (rdata ptd);
     idcpu := idcpu ptd |}.

(** [ptd.id(ip).make_invalid()] *)
Definition id_make_invalid (ptd : ParticleTileData) (ip : nat) : ParticleTileData :=
  {| rdata := rdata ptd;
     idcpu := alter make_invalid ip (idcpu ptd) |}.

(** [ptd.rdata(comp)[ip]] read back. *)
Definition get_rdata (ptd : ParticleTileData) (comp ip : nat) : option Q :=
  rdata ptd !! comp ≫= fun col => col !! ip.

(** [ptd.id(ip).is_valid()] read back. *)
Definition id_is_valid (ptd : ParticleTileData) (ip : nat) : option bool :=
  is_valid <$> idcpu ptd !! ip.

(** ** GetAndSetPosition.H: [EnforceBC] *)

(** [struct EnforceBC]: the boundary type and the two corners
    [m_plo], [m_phi] (each a [GpuArray<amrex::Real, 2>]). *)
Record EnforceBC : Type := {
  m_particle_boundary : ParticleBoundary.type;
  m_plo : Q * Q;
  m_phi : Q * Q
}.

(** What one call leaves behind: the tile data, the four reference
    arguments [x], [y], [ux], [uy], and the returned flag. *)
Record EnforceBC_result : Type := {
  r_ptd : ParticleTileData;
  r_x : Q;
  r_y : Q;
  r_ux : Q;
  r_uy : Q;
  r_invalid : bool
}.

(** [bool operator() (const PTD& ptd, const int ip, amrex::Real& x,
    amrex::Real& y, amrex::Real& ux, amrex::Real& uy, const int w_index)]
    with [amrex::Real] as rationals.  The test, the assignments, the
    negations and the absorbing branch are those of the code; the sums and
    differences of the reflecting and of the periodic branch are exact here
    and rounded in [B64.EnforceBC_call], on which the statements about these
    two branches are made. *)
Definition EnforceBC_call (bc : EnforceBC) (ptd : ParticleTileData) (ip : nat)
    (x y ux uy : Q) (w_index : nat) : EnforceBC_result :=
  let invalid := false in
  if Rlt x (m_plo bc).1 || Rlt y (m_plo bc).2
     || Rlt (m_phi bc).1 x || Rlt (m_phi bc).2 y
  then
    let len_x := ((m_phi bc).1 - (m_plo bc).1)%Q in
    let len_y := ((m_phi bc).2 - (m_plo bc).2)%Q in
    match m_particle_boundary bc with
    | ParticleBoundary.Reflecting =>
        let x := fmod (x - (m_plo bc).1) (2 * len_x) in
        let x := if Rlt x 0 then (x + 2 * len_x)%Q else x in
        let x := (x + (m_plo bc).1)%Q in
        let '(x, ux) :=
          if Rlt (m_phi bc).1 x then ((2 * (m_phi bc).1 - x)%Q, (- ux)%Q)
          else (x, ux) in
        let y := fmod (y - (m_plo bc).2) (2 * len_y) in
        let y := if Rlt y 0 then (y + 2 * len_y)%Q else y in
        let y := (y + (m_plo bc).2)%Q in
        let '(y, uy) :=
          if Rlt (m_phi bc).2 y then ((2 * (m_phi bc).2 - y)%Q, (- uy)%Q)
          else (y, uy) in
        let invalid := false in
        {| r_ptd := ptd; r_x := x; r_y := y; r_ux := ux; r_uy := uy;
           r_invalid := invalid |}
    | ParticleBoundary.Periodic =>
        let x := fmod (x - (m_plo bc).1) len_x in
        let x := if Rlt x 0 then (x + len_x)%Q else x in
        let x := (x + (m_plo bc).1)%Q in
        let y := fmod (y - (m_plo bc).2) len_y in
        let y := if Rlt y 0 then (y + len_y)%Q else y in
        let y := (y + (m_plo bc).2)%Q in
        let invalid := false in
        {| r_ptd := ptd; r_x := x; r_y := y; r_ux := ux; r_uy := uy;
           r_invalid := invalid |}
    | ParticleBoundary.Absorbing =>
        let ptd := set_rdata ptd w_index ip 0 in
        let ptd := id_make_invalid ptd ip in
        let invalid := true in
        {| r_ptd := ptd; r_x := x; r_y := y; r_ux := ux; r_uy := uy;
           r_invalid := invalid |}
    end
  else
    {| r_ptd := ptd; r_x := x; r_y := y; r_ux := ux; r_uy := uy;
       r_invalid := invalid |}.

(** The position is outside the box [[m_plo, m_phi]] in at least one axis. *)
Definition outside_box (bc : EnforceBC) (x y : Q) : Prop :=
  (x < (m_plo bc).1 \/ y < (m_plo bc).2 \/ (m_phi bc).1 < x \/ (m_phi bc).2 < y)%Q.

(** The four statements of the reflecting branch on one axis, and the three
    of the periodic branch, in exact arithmetic: what the code computes when
    none of its operations rounds.  The momentum is only ever negated, by
    [neg]. *)
Definition reflect_axis {U : Type} (neg : U -> U) (lo hi x : Q) (u : U) : Q * U :=
  let len := (hi - lo)%Q in
  let x := fmod (x - lo) (2 * len) in
  let x := if Rlt x 0 then (x + 2 * len)%Q else x in
  let x := (x + lo)%Q in
  if Rlt hi x then ((2 * hi - x)%Q, neg u) else (x, u).

Definition wrap_axis (lo hi x : Q) : Q :=
  let len := (hi - lo)%Q in
  let x := fmod (x - lo) len in
  let x := if Rlt x 0 then (x + len)%Q else x in
  (x + lo)%Q.


(** Fields.H: [struct CheckDomainBounds], [contains]. *)
Record CheckDomainBounds : Type := {
  cdb_lo : Q * Q;
  cdb_hi : Q * Q
}.

Definition contains (b : CheckDomainBounds) (x y : Q) : bool :=
  Rlt (cdb_lo b).1 x && Rlt x (cdb_hi b).1
  && Rlt (cdb_lo b).2 y && Rlt y (cdb_hi b).2.

(** Modelled from the spec: the deposition kernels are not under src/.  The
    spec has a particle "accumulate charge density, and x/y/z current
    density contributions, onto the grid, splitting contribution across the
    macro-particle's shape-function footprint": what one particle adds to one
    cell is its weight times a factor made of the charge, the velocity and
    the shape function. *)
Definition deposited (weight factor : Q) : Q := (weight * factor)%Q.


(** The position is in the closed box and on one of its four edges. *)
Definition on_box_edge (bc : EnforceBC) (x y : Q) : Prop :=
  ((m_plo bc).1 <= x <= (m_phi bc).1)%Q
  /\ ((m_plo bc).2 <= y <= (m_phi bc).2)%Q
  /\ (x == (m_plo bc).1 \/ x == (m_phi bc).1
      \/ y == (m_plo bc).2 \/ y == (m_phi bc).2)%Q.

(** The box and the tile the examples use: the square [[-10, 10]] in both
    axes and two particles with weights 3 and 5 and valid ids 7 and 8. *)
Definition demo_bc (b : ParticleBoundary.type) : EnforceBC :=
  {| m_particle_boundary := b; m_plo := (-10, -10)%Q; m_phi := (10, 10)%Q |}.

Definition demo_ptd : ParticleTileData :=
  {| rdata := [[3; 5]%Q]; idcpu := [2 ^ 63 + 7; 2 ^ 63 + 8]%Z |}.

(** ** Fields.H: [Fields::shift] *)

(** The slices [amrex::MultiFab] of one level, as the kernels see it: one
    entry per cell [(i, j)] of the grown tile boxes, holding the [N_Comps]
    reals [array(i, j, 0 .. N_Comps-1)] of that cell. *)
Definition MultiFab : Type := list (list Q).

(** [{Comps[islice][comps]...}]: the indices of the names, looked up from left
    to right; the first miss ends the run. *)
Fixpoint lookup_comps (m : AssertMap.assert_map) (comps : list string)
    : outcome (list Z) :=
  match comps with
  | [] => Returned []
  | c :: cs =>
      match AssertMap.operator_subscript m c with
      | Aborted e => Aborted e
      | Returned i =>
          match lookup_comps m cs with
          | Aborted e => Aborted e
          | Returned rest => Returned (i :: rest)
          end
      end
  end.

(** The kernel of [shift] on one cell:
    [for (int n=0; n<ncomps; ++n) array(i,j,c_idx_dst[n]) = array(i,j,c_idx_src[n]);]
    An index outside the cell is undefined behaviour in C++; here such an
    assignment does nothing. *)
Fixpoint shift_kernel (c_idx_dst c_idx_src : list Z) (cell : list Q) : list Q :=
  match c_idx_dst, c_idx_src with
  | d :: ds, s :: ss =>
      let cell :=
        match cell !! Z.to_nat s with
        | Some v => <[Z.to_nat d := v]> cell
        | None => cell
        end in
      shift_kernel ds ss cell
  | _, _ => cell
  end.

(** [void shift (const int lev, const int islice_dst, const int islice_src,
    Args...comps)], on the member [m_slices] (one [MultiFab] per level). *)
Definition shift (Comps : Comps_t) (lev : nat)
    (islice_dst islice_src : WhichSlice.slice) (comps : list string)
    (m_slices : list MultiFab) : outcome (list MultiFab) :=
  match lookup_comps (Comps islice_src) comps with
  | Aborted e => Aborted e
  | Returned c_idx_src =>
      match lookup_comps (Comps islice_dst) comps with
      | Aborted e => Aborted e
      | Returned c_idx_dst =>
          Returned (alter (map (shift_kernel c_idx_dst c_idx_src)) lev m_slices)
      end
  end.

(** The contents of the components with the given indices: for each index,
    its value in every cell. *)
Definition contents (idx : list Z) (mfab : MultiFab) : list (list (option Q)) :=
  map (fun n => map (fun cell : list Q => cell !! Z.to_nat n) mfab) idx.

(** The round trip as the specification words it: [shift] from [src] to
    [dst] and then from [dst] to [src] gives both roles their original
    named contents back. *)
Definition round_trip_restores (Comps : Comps_t) (lev : nat)
    (dst src : WhichSlice.slice) (comps : list string)
    (m_slices : list MultiFab) : Prop :=
  forall c_idx_src c_idx_dst s1 s2 mfab mfab2,
    lookup_comps (Comps src) comps = Returned c_idx_src ->
    lookup_comps (Comps dst) comps = Returned c_idx_dst ->
    shift Comps lev dst src comps m_slices = Returned s1 ->
    shift Comps lev src dst comps s1 = Returned s2 ->
    m_slices !! lev = Some mfab -> s2 !! lev = Some mfab2 ->
    contents c_idx_src mfab2 = contents c_idx_src mfab
    /\ contents c_idx_dst mfab2 = contents c_idx_dst mfab.

(** A registry with the same names in two roles, filled the way [AllocData]
    does it, with one running counter [N_Comps] over all roles. *)
Definition demo_shift_Comps : Comps_t :=
  let '(n, this) := AssertMap.multi_emplace 0 ["Bx"; "By"; "Ez"] [] in
  let '(n, previous) := AssertMap.multi_emplace n ["Bx"; "By"] [] in
  fun s =>
    match s with
    | WhichSlice.This => this
    | WhichSlice.Previous => previous
    | _ => []
    end.

(** One level, two cells, five components per cell. *)
Definition demo_slices : list MultiFab :=
  [[[7; 8; 9; 5; 6]%Q; [17; 18; 19; 15; 16]%Q]].

(** ** Parser.H: what [fillWithParser] takes from AMReX *)

(** The services of [amrex::ParmParse] that [fillWithParser] uses.  They
    belong to AMReX and are parameters here:
    - [pp.makeParser(str, {}).compileHost<0>()()], the [double] an expression
      evaluates to, or the end of the run on a malformed expression;
    - [pp.makeIParser(str, {}).compileHost<0>()()], likewise for
      [amrex::Long];
    - the entries of the table [my_constants], as
      [ParmParse("my_constants").contains] and [.get] see them. *)
Record ParmParse : Type := {
  makeParser : string -> outcome spec_float;
  makeIParser : string -> outcome Z;
  my_constants : gmap string string
}.

(** [std::numeric_limits<int>::max()], [::lowest()]. *)
Definition int_max : Z := 2 ^ 31 - 1.
Definition int_lowest : Z := - 2 ^ 31.

(** [std::numeric_limits<float>::max()] and [::lowest()], as the [double]
    values they are compared as: [(2^24 - 1) * 2^104], with the 53-bit
    mantissa of binary64. *)
Definition float_max : spec_float := S754_finite false 9007198717870080 75.
Definition float_lowest : spec_float := S754_finite true 9007198717870080 75.

(** [static_cast<float>(v)] of a [double]: rounding to nearest, ties to
    even, into binary32. *)
Definition static_cast_float (v : spec_float) : spec_float :=
  match v with
  | S754_finite s m e => binary_round 24 128 s m e
  | _ => v
  end.

(** [static_cast<int>(v)] of an [amrex::Long]: the value modulo [2^32] in
    the range of [int]. *)
Definition static_cast_int (v : Z) : Z := (v + 2 ^ 31) mod 2 ^ 32 - 2 ^ 31.

(** The two messages of the narrowing assertions. *)
Definition float_overflow_text : string := "Error: Overflow detected when casting to float".
Definition int_overflow_text : string := "Error: Overflow detected when casting to int".

(** [fillWithParser (pp, str, float& val)]: the stored [val], or the end of
    the run with the message of the failed assertion. *)
Definition fillWithParser_float (pp : ParmParse) (str : string) : outcome spec_float :=
  match makeParser pp str with
  | Aborted e => Aborted e
  | Returned v =>
      if SFleb v float_max && SFleb float_lowest v
      then Returned (static_cast_float v)
      else Aborted float_overflow_text
  end.

(** [fillWithParser (pp, str, int& val)] *)
Definition fillWithParser_int (pp : ParmParse) (str : string) : outcome Z :=
  match makeIParser pp str with
  | Aborted e => Aborted e
  | Returned v =>
      if (v <=? int_max)%Z && (v >=? int_lowest)%Z
      then Returned (static_cast_int v)
      else Aborted int_overflow_text
  end.

(** The rational a binary64 datum stands for; none for NaN and the
    infinities. *)
Definition SF2Q (v : spec_float) : option Q :=
  match v with
  | S754_zero _ => Some 0%Q
  | S754_finite s m e =>
      let n := if s then Zneg m else Zpos m in
      Some (match e with
            | Zneg p => (n # 2 ^ p)%Q
            | _ => inject_Z (n * 2 ^ e)
            end)
  | _ => None
  end.

(** The magnitude [m * 2^e] of a finite datum as a rational. *)
Definition mag (m : positive) (e : Z) : Q :=
  match e with
  | Zneg p => (Zpos m # 2 ^ p)%Q
  | _ => inject_Z (Zpos m * 2 ^ e)
  end.

(** The largest finite [float], [(2^24 - 1) * 2^104], as a rational. *)
Definition float_max_Q : Q := inject_Z ((2 ^ 24 - 1) * 2 ^ 104).

(** A parser that evaluates every expression to the given values. *)
Definition demo_pp (d : spec_float) (l : Z) : ParmParse :=
  {| makeParser := fun _ => Returned d;
     makeIParser := fun _ => Returned l;
     my_constants := ∅ |}.

(** ** Hipace.H: the predictor-corrector members *)

(** The members of [class Hipace] the predictor-corrector loop works with. *)
Record Hipace : Type := {
  m_predcorr_B_error_tolerance : Q;
  m_predcorr_max_iterations : nat;
  m_predcorr_avg_iterations : Q;
  m_predcorr_avg_B_error : Q;
  m_predcorr_B_mixing_factor : Q
}.

(** The initial values written in [Hipace.H]: tolerance [4e-2], at most [30]
    iterations, both running diagnostics [0.], mixing factor [0.05]. *)
Definition Hipace_initial : Hipace :=
  {| m_predcorr_B_error_tolerance := 4 # 100;
     m_predcorr_max_iterations := 30;
     m_predcorr_avg_iterations := 0;
     m_predcorr_avg_B_error := 0;
     m_predcorr_B_mixing_factor := 5 # 100 |}.

(** The transverse B field on the slice, [Bx] and [By] over the grid, as the
    list of its values. *)
Definition Bfield : Type := list Q.

(** Modelled from the spec: [Fields::MixAndShiftBfields] is only declared
    under src/.  Step 4 of section 4.3:
    [B_new = mixing_factor * B_solved + (1 - mixing_factor) * B_previous_iteration]. *)
Definition mix_B (mixing_factor : Q) (B_solved B_prev : Bfield) : Bfield :=
  zip_with (fun s p => (mixing_factor * s + (1 - mixing_factor) * p)%Q) B_solved B_prev.

(** Modelled from the spec: the body of
    [Hipace::PredictorCorrectorLoopToSolveBxBy] is in Hipace.cpp, which is not
    under src/.  Section 4.3, steps 2 to 5, repeated at most
    [m_predcorr_max_iterations] times: advance the plasma with the current
    guess, deposit and solve for a new field ([solve], the elliptic solver
    with the particle push in front of it), mix it with the previous iterate,
    compute the relative discrepancy between the two ([rel_error]); "if below
    the configured error tolerance, the loop terminates; otherwise repeat from
    step 2, up to a maximum iteration count".  [todo] counts the iterations
    that are left; the result is the field, the number of iterations done and
    the last discrepancy. *)
Fixpoint predcorr_iterate (solve : Bfield -> Bfield) (rel_error : Bfield -> Bfield -> Q)
    (tolerance mixing_factor : Q) (todo : nat) (i_iter : nat) (B : Bfield) (err : Q)
    : Bfield * nat * Q :=
  match todo with
  | 0 => (B, i_iter, err)
  | S todo' =>
      let B_solved := solve B in
      let B_new := mix_B mixing_factor B_solved B in
      let err := rel_error B_solved B in
      if Rlt err tolerance then (B_new, S i_iter, err)
      else predcorr_iterate solve rel_error tolerance mixing_factor todo' (S i_iter) B_new err
  end.

(** Modelled from the spec: step 6 of section 4.3 and the non-convergence
    entry of section 7.  The loop never ends the run: when the iterations are
    used up the last field is kept, and the number of iterations and the
    final discrepancy are added to the two running diagnostics
    [m_predcorr_avg_iterations] and [m_predcorr_avg_B_error].  The residual
    before the first iteration is taken to be [1]. *)
Definition PredictorCorrectorLoopToSolveBxBy
    (solve : Bfield -> Bfield) (rel_error : Bfield -> Bfield -> Q)
    (h : Hipace) (B_guess : Bfield) : outcome (Hipace * Bfield) :=
  let '(B, i_iter, err) :=
    predcorr_iterate solve rel_error (m_predcorr_B_error_tolerance h)
      (m_predcorr_B_mixing_factor h) (m_predcorr_max_iterations h) 0 B_guess 1 in
  Returned
    ({| m_predcorr_B_error_tolerance := m_predcorr_B_error_tolerance h;
        m_predcorr_max_iterations := m_predcorr_max_iterations h;
        m_predcorr_avg_iterations := (m_predcorr_avg_iterations h + inject_Z (Z.of_nat i_iter))%Q;
        m_predcorr_avg_B_error := (m_predcorr_avg_B_error h + err)%Q;
        m_predcorr_B_mixing_factor := m_predcorr_B_mixing_factor h |},
     B).

(** The field after [k] iterations that did not stop, and the discrepancy
    the next iteration measures from it. *)
Definition predcorr_step (solve : Bfield -> Bfield) (mixing_factor : Q) (B : Bfield) : Bfield :=
  mix_B mixing_factor (solve B) B.

Definition predcorr_error_at (solve : Bfield -> Bfield) (rel_error : Bfield -> Bfield -> Q)
    (mixing_factor : Q) (B_guess : Bfield) (k : nat) : Q :=
  let B := Nat.iter k (predcorr_step solve mixing_factor) B_guess in
  rel_error (solve B) B.

(** ** AdaptiveTimeStep.H *)

(** The members of [class AdaptiveTimeStep] that bound the step.  The initial
    value of [m_dt_max] is infinity, which is [None] here. *)
Record AdaptiveTimeStep : Type := {
  m_nt_per_betatron : Q;
  m_dt_max : option Q;
  m_threshold_uz : Q
}.

(** The initial values written in [AdaptiveTimeStep.H]. *)
Definition AdaptiveTimeStep_initial : AdaptiveTimeStep :=
  {| m_nt_per_betatron := 20; m_dt_max := None; m_threshold_uz := 2 |}.

(** [std::min(dt, m_dt_max)] with an infinite bound. *)
Definition cap_dt (dt : Q) (dt_max : option Q) : Q :=
  match dt_max with
  | Some M => Qmin dt M
  | None => dt
  end.

(** Modelled from the spec: the body of
    [AdaptiveTimeStep::CalculateFromMinUz] is in AdaptiveTimeStep.cpp, which is
    not under src/.  Section 4.4: the step is the betatron period of the
    slowest beam particle divided by the configured number of steps per
    period; "below a momentum threshold the step is not further decreased", so
    the momentum that enters is not taken below [m_threshold_uz]; "a
    configurable maximum time step bound is never exceeded".
    [betatron_period] is the period as a function of the longitudinal momentum
    at the current plasma density (it involves a square root and is a
    parameter). *)
Definition CalculateFromMinUz (ats : AdaptiveTimeStep) (betatron_period : Q -> Q)
    (min_uz : Q) : Q :=
  let chosen_min_uz := Qmax min_uz (m_threshold_uz ats) in
  let new_dt := (betatron_period chosen_min_uz / m_nt_per_betatron ats)%Q in
  cap_dt new_dt (m_dt_max ats).

(** A solver that never converges: it doubles the field, and the measured
    discrepancy is always [1]. *)
Definition demo_solve (B : Bfield) : Bfield := map (fun b => (2 * b)%Q) B.
Definition demo_rel_error (B_solved B : Bfield) : Q := 1.

(** A controller with a finite bound and a period that grows with the
    momentum, for the examples. *)
Definition demo_ats : AdaptiveTimeStep :=
  {| m_nt_per_betatron := 20; m_dt_max := Some 3%Q; m_threshold_uz := 2 |}.
Definition demo_period (uz : Q) : Q := (100 * uz)%Q.

(** ** std::string operations used by the string overload *)

(** [s.substr(0, n)] and [s.substr(n)]. *)
Fixpoint take_str (n : nat) (s : string) : string :=
  match n, s with
  | S n', String c s' => String c (take_str n' s')
  | _, _ => EmptyString
  end.

Fixpoint drop_str (n : nat) (s : string) : string :=
  match n, s with
  | S n', String _ s' => drop_str n' s'
  | _, _ => s
  end.

(** [s.substr(pos, count)] *)
Definition substr (s : string) (pos count : nat) : string :=
  take_str count (drop_str pos s).

(** [s.replace(pos, len, str)] *)
Definition replace_str (s : string) (pos len : nat) (new : string) : string :=
  take_str pos s +:+ new +:+ drop_str (pos + len) s.

(** [s.at(i)]; [None] stands for [std::out_of_range]. *)
Definition at_str (s : string) (i : nat) : option ascii := String.get i s.

(** [s.find(pat)]: the first position where [pat] (not empty) starts. *)
Fixpoint find0 (pat s : string) : option nat :=
  if String.prefix pat s then Some 0
  else match s with
       | EmptyString => None
       | String _ s' => S <$> find0 pat s'
       end.

(** [s.find(pat, pos)]: the first such position at or after [pos]. *)
Fixpoint find_from (pat s : string) (pos : nat) {struct pos} : option nat :=
  match pos with
  | 0 => find0 pat s
  | S p =>
      match s with
      | EmptyString => None
      | String _ s' => S <$> find_from pat s' p
      end
  end.

(** [s.rfind(pat)]: the last position where [pat] (not empty) starts. *)
Fixpoint rfind (pat s : string) : option nat :=
  match s with
  | EmptyString => None
  | String _ s' =>
      match rfind pat s' with
      | Some i => Some (S i)
      | None => if String.prefix pat s then Some 0 else None
      end
  end.

(** How often a character occurs. *)
Fixpoint count_char (c : ascii) (s : string) : nat :=
  match s with
  | EmptyString => 0
  | String c' s' => (if Ascii.eqb c' c then 1 else 0) + count_char c s'
  end.

(** ** Parser.H: the string overload of [fillWithParser] *)

(** A computation of the model that loops: [None] when the iterations it was
    given ran out, else how the call ended. *)
Definition looping (A : Type) : Type := option (outcome A).

(** [std::string{char(1)}] and [std::string{char(2)}], the stand-ins for the
    escaped braces. *)
Definition char1 : string := String (ascii_of_nat 1) EmptyString.
Definition char2 : string := String (ascii_of_nat 2) EmptyString.

(** [while ((pos = loc_str.find(pat)) != npos) loc_str.replace(pos, |pat|, new);] *)
Fixpoint replace_all_find (fuel : nat) (pat new s : string) : option string :=
  match find0 pat s with
  | None => Some s
  | Some pos =>
      match fuel with
      | 0 => None
      | S fuel' => replace_all_find fuel' pat new (replace_str s pos (String.length pat) new)
      end
  end.

(** [while ((pos = loc_str.rfind(pat)) != npos) loc_str.replace(pos, |pat|, new);] *)
Fixpoint replace_all_rfind (fuel : nat) (pat new s : string) : option string :=
  match rfind pat s with
  | None => Some s
  | Some pos =>
      match fuel with
      | 0 => None
      | S fuel' => replace_all_rfind fuel' pat new (replace_str s pos (String.length pat) new)
      end
  end.

(** [while (loc_str.at(pos_start_trim) == ' ' && pos_count_trim > 0)
      { ++pos_start_trim; --pos_count_trim; }]
    Every round takes one off [pos_count_trim], so the count is what the
    recursion runs on. *)
Fixpoint trim_leading (loc_str : string) (pos_start_trim pos_count_trim : nat)
    : outcome (nat * nat) :=
  match at_str loc_str pos_start_trim with
  | None => Aborted "std::out_of_range"
  | Some c =>
      match pos_count_trim with
      | S count' =>
          if Ascii.eqb c " " then trim_leading loc_str (S pos_start_trim) count'
          else Returned (pos_start_trim, pos_count_trim)
      | 0 => Returned (pos_start_trim, pos_count_trim)
      end
  end.

(** [while (loc_str.at(pos_start_trim + pos_count_trim - 1) == ' ' && pos_count_trim > 0)
      { --pos_count_trim; }] *)
Fixpoint trim_trailing (loc_str : string) (pos_start_trim pos_count_trim : nat)
    : outcome nat :=
  match at_str loc_str (pos_start_trim + pos_count_trim - 1) with
  | None => Aborted "std::out_of_range"
  | Some c =>
      match pos_count_trim with
      | S count' =>
          if Ascii.eqb c " " then trim_trailing loc_str pos_start_trim count'
          else Returned pos_count_trim
      | 0 => Returned pos_count_trim
      end
  end.

(** What is written to [amrex::ErrorStream()] before the two assertions. *)
Definition unclosed_brace_text (str : string) : string :=
  "Bad format for input '" +:+ str +:+ "', unclosed brace!" +:+ nl.

Definition recursive_symbol_text (str parse_string : string) : string :=
  "Expression '" +:+ str +:+ "' contains recursive symbol '" +:+ parse_string
    +:+ "'!" +:+ nl.

(** The loop [while ((pos = loc_str.rfind("{")) != npos) { ... }] that
    replaces [{expression}] from the last opening brace on.

    - [fuel] bounds the rounds; [None] when it runs out;
    - [rec] is the recursive call [fillWithParser(pp, replacer, parse_val, false)];
    - [show_double] is [ss << parse_val] on a [std::stringstream];
    - [recursive_symbols] is the function's [static std::set<std::string>],
      threaded through: the state it had on entry comes in, the state it has
      on return goes out with the string. *)
Fixpoint brace_loop (fuel : nat)
    (rec : gset string -> string -> looping (string * gset string))
    (pp : ParmParse) (show_double : spec_float -> string) (str : string)
    (recursive_symbols : gset string) (loc_str : string)
    : looping (string * gset string) :=
  match rfind "{" loc_str with
  | None => Some (Returned (loc_str, recursive_symbols))
  | Some pos =>
      match fuel with
      | 0 => None
      | S fuel' =>
          match find_from "}" loc_str pos with
          | None => Some (Aborted (unclosed_brace_text str))
          | Some pos_end =>
              match trim_leading loc_str (pos + 1) (pos_end - pos - 1) with
              | Aborted e => Some (Aborted e)
              | Returned (pos_start_trim, pos_count_trim) =>
                  match trim_trailing loc_str pos_start_trim pos_count_trim with
                  | Aborted e => Some (Aborted e)
                  | Returned pos_count_trim =>
                      let parse_string := substr loc_str pos_start_trim pos_count_trim in
                      if Nat.eqb pos_count_trim 0 then
                        brace_loop fuel' rec pp show_double str recursive_symbols
                          (replace_str loc_str pos (pos_end - pos + 1) EmptyString)
                      else
                        match my_constants pp !! parse_string with
                        | Some replacer =>
                            if bool_decide (parse_string ∈ recursive_symbols) then
                              Some (Aborted (recursive_symbol_text str parse_string))
                            else
                              match rec (recursive_symbols ∪ {[parse_string]}) replacer with
                              | None => None
                              | Some (Aborted e) => Some (Aborted e)
                              | Some (Returned (parse_val, recursive_symbols)) =>
                                  brace_loop fuel' rec pp show_double str
                                    (recursive_symbols ∖ {[parse_string]})
                                    (replace_str loc_str pos (pos_end - pos + 1) parse_val)
                              end
                        | None =>
                            match makeParser pp parse_string with
                            | Aborted e => Some (Aborted e)
                            | Returned parse_val =>
                                brace_loop fuel' rec pp show_double str recursive_symbols
                                  (replace_str loc_str pos (pos_end - pos + 1)
                                     (show_double parse_val))
                            end
                        end
                  end
              end
          end
      end
  end.

(** [fillWithParser (pp, str, std::string& val, bool do_escape_backtransform)].
    One unit of [fuel] is spent on the call itself and the rest bounds each
    of its loops and the calls it makes. *)
Fixpoint fillWithParser_string (fuel : nat) (pp : ParmParse)
    (show_double : spec_float -> string) (recursive_symbols : gset string)
    (str : string) (do_escape_backtransform : bool)
    : looping (string * gset string) :=
  match fuel with
  | 0 => None
  | S fuel' =>
      match replace_all_find fuel' "{{" char1 str with
      | None => None
      | Some loc_str =>
          match replace_all_rfind fuel' "}}" char2 loc_str with
          | None => None
          | Some loc_str =>
              match brace_loop fuel'
                      (fun rs replacer =>
                         fillWithParser_string fuel' pp show_double rs replacer false)
                      pp show_double str recursive_symbols loc_str with
              | None => None
              | Some (Aborted e) => Some (Aborted e)
              | Some (Returned (loc_str, recursive_symbols)) =>
                  if do_escape_backtransform then
                    match replace_all_find fuel' char1 "{" loc_str with
                    | None => None
                    | Some loc_str =>
                        match replace_all_rfind fuel' char2 "}" loc_str with
                        | None => None
                        | Some loc_str => Some (Returned (loc_str, recursive_symbols))
                        end
                    end
                  else Some (Returned (loc_str, recursive_symbols))
              end
          end
      end
  end.

(** The text of a number never has an opening brace in it. *)
Definition brace_free_numbers (show_double : spec_float -> string) : Prop :=
  forall v, count_char "{" (show_double v) = 0.

(** A printer for the examples: every number is shown as ["1"]. *)
Definition demo_show (v : spec_float) : string := "1".

(** A table with a cycle: [a] is defined through [b] and [b] through [a]. *)
Definition demo_cyclic_pp : ParmParse :=
  {| makeParser := fun _ => Returned (S754_zero false);
     makeIParser := fun _ => Returned 0%Z;
     my_constants := {[ "a" := "{b}"; "b" := "x{ a }" ]} |}.

(** A table without a cycle. *)
Definition demo_table_pp : ParmParse :=
  {| makeParser := fun _ => Returned (S754_zero false);
     makeIParser := fun _ => Returned 0%Z;
     my_constants := {[ "name" := "run_{id}"; "id" := "7" ]} |}.

(** How a call may end when it was entered with the in-progress set [rs]:
    a returned string comes with the same set. *)
Definition kept (rs : gset string) (r : outcome (string * gset string)) : Prop :=
  match r with
  | Returned (_, rs') => rs' = rs
  | Aborted _ => True
  end.

(** ... and, for a call without back-transformation, has no opening brace
    left. *)
Definition settled (rs : gset string) (r : outcome (string * gset string)) : Prop :=
  match r with
  | Returned (v, rs') => rs' = rs /\ count_char "{" v = 0
  | Aborted _ => True
  end.

(** A symbol name as it stands between braces: not empty, without braces
    and without blanks. *)
Definition plain_name (sym : string) : Prop :=
  sym <> EmptyString /\ count_char "{" sym = 0 /\ count_char "}" sym = 0
  /\ count_char " " sym = 0.

(** [{sym}] *)
Definition reference (sym : string) : string := "{" +:+ sym +:+ "}".

(** A table in which [a] is defined as a reference to itself. *)
Definition demo_self_pp : ParmParse :=
  {| makeParser := fun _ => Returned (S754_zero false);
     makeIParser := fun _ => Returned 0%Z;
     my_constants := {[ "a" := "{a}" ]} |}.

(** ** Fields.H: [setVal], [mult], [duplicate], [add] *)

(** The kernel of [setVal] on one cell:
    [for (int n=0; n<ncomps; ++n) array(i,j,c_idx[n]) = val;] *)
Fixpoint setVal_kernel (val : Q) (c_idx : list Z) (cell : list Q) : list Q :=
  match c_idx with
  | [] => cell
  | n :: rest => setVal_kernel val rest (<[Z.to_nat n := val]> cell)
  end.

(** [void setVal (const amrex::Real val, const int lev, const int islice,
    Args...comps)] *)
Definition setVal (Comps : Comps_t) (val : Q) (lev : nat) (islice : WhichSlice.slice)
    (comps : list string) (m_slices : list MultiFab) : outcome (list MultiFab) :=
  match lookup_comps (Comps islice) comps with
  | Aborted e => Aborted e
  | Returned c_idx => Returned (alter (map (setVal_kernel val c_idx)) lev m_slices)
  end.

(** The kernel of [mult] on one cell:
    [for (int n=0; n<ncomps; ++n) array(i,j,c_idx[n]) *= val;] *)
Fixpoint mult_kernel (val : Q) (c_idx : list Z) (cell : list Q) : list Q :=
  match c_idx with
  | [] => cell
  | n :: rest => mult_kernel val rest (alter (fun x => (x * val)%Q) (Z.to_nat n) cell)
  end.

(** [void mult (const amrex::Real val, const int lev, const int islice,
    Args...comps)] *)
Definition mult (Comps : Comps_t) (val : Q) (lev : nat) (islice : WhichSlice.slice)
    (comps : list string) (m_slices : list MultiFab) : outcome (list MultiFab) :=
  match lookup_comps (Comps islice) comps with
  | Aborted e => Aborted e
  | Returned c_idx => Returned (alter (map (mult_kernel val c_idx)) lev m_slices)
  end.

(** The index loop of [duplicate] and [add]:
    [for (int i=0; i<ncomps; ++i) {
       c_idx_src[i] = Comps[islice_src][comps_src[i]];
       c_idx_dst[i] = Comps[islice_dst][comps_dst[i]]; }]
    The two name arrays have the same length [ncomps] by their type.  The
    result is the pair of index arrays, source first. *)
Fixpoint lookup_comps2 (m_dst m_src : AssertMap.assert_map)
    (comps_dst comps_src : list string) : outcome (list Z * list Z) :=
  match comps_dst, comps_src with
  | d :: ds, s :: ss =>
      match AssertMap.operator_subscript m_src s with
      | Aborted e => Aborted e
      | Returned i_src =>
          match AssertMap.operator_subscript m_dst d with
          | Aborted e => Aborted e
          | Returned i_dst =>
              match lookup_comps2 m_dst m_src ds ss with
              | Aborted e => Aborted e
              | Returned (c_idx_src, c_idx_dst) =>
                  Returned (i_src :: c_idx_src, i_dst :: c_idx_dst)
              end
          end
      end
  | _, _ => Returned ([], [])
  end.

(** [void duplicate (const int lev, const int islice_dst, comps_dst,
    const int islice_src, comps_src)]; its kernel is the one of [shift]. *)
Definition duplicate (Comps : Comps_t) (lev : nat)
    (islice_dst : WhichSlice.slice) (comps_dst : list string)
    (islice_src : WhichSlice.slice) (comps_src : list string)
    (m_slices : list MultiFab) : outcome (list MultiFab) :=
  match lookup_comps2 (Comps islice_dst) (Comps islice_src) comps_dst comps_src with
  | Aborted e => Aborted e
  | Returned (c_idx_src, c_idx_dst) =>
      Returned (alter (map (shift_kernel c_idx_dst c_idx_src)) lev m_slices)
  end.

(** The kernel of [add] on one cell:
    [for (int n=0; n<ncomps; ++n) array(i,j,c_idx_dst[n]) += array(i,j,c_idx_src[n]);] *)
Fixpoint add_kernel (c_idx_dst c_idx_src : list Z) (cell : list Q) : list Q :=
  match c_idx_dst, c_idx_src with
  | d :: ds, s :: ss =>
      let cell :=
        match cell !! Z.to_nat s with
        | Some v => alter (fun x => (x + v)%Q) (Z.to_nat d) cell
        | None => cell
        end in
      add_kernel ds ss cell
  | _, _ => cell
  end.

(** [void add (const int lev, const int islice_dst, comps_dst,
    const int islice_src, comps_src)] *)
Definition add (Comps : Comps_t) (lev : nat)
    (islice_dst : WhichSlice.slice) (comps_dst : list string)
    (islice_src : WhichSlice.slice) (comps_src : list string)
    (m_slices : list MultiFab) : outcome (list MultiFab) :=
  match lookup_comps2 (Comps islice_dst) (Comps islice_src) comps_dst comps_src with
  | Aborted e => Aborted e
  | Returned (c_idx_src, c_idx_dst) =>
      Returned (alter (map (add_kernel c_idx_dst c_idx_src)) lev m_slices)
  end.

(** All indices are components of the cell. *)
Definition in_cell (idx : list Z) (cell : list Q) : Prop :=
  Forall (fun i => (0 <= i < Z.of_nat (length cell))%Z) idx.

(** ** Parser.H: [fillWithParserArr] *)

(** The words of an input line as the scalar overload joins them:
    [str = str_arr[0]; for (i = 1; i != str_arr.size(); ++i) str += ' ' + str_arr[i];] *)
Definition join_words (str_arr : list string) : string :=
  match str_arr with
  | [] => EmptyString
  | str0 :: rest => fold_left (fun str s => str +:+ (" " +:+ s)) rest str0
  end.

(** [fillWithParserArr (pp, str_arr, T& val)]; [fill] stands for
    [fillWithParser (pp, ., val)] at the type of [val]. *)
Definition fillWithParserArr_scalar {T : Type} (fill : string -> outcome T)
    (str_arr : list string) : outcome T :=
  fill (join_words str_arr).

(** [for (i = 0; i != n; ++i) fillWithParser(pp, str_arr[i], val_arr[i]);] *)
Fixpoint fill_elements {T : Type} (fill : string -> outcome T) (str_arr : list string)
    : outcome (list T) :=
  match str_arr with
  | [] => Returned []
  | str :: rest =>
      match fill str with
      | Aborted e => Aborted e
      | Returned v =>
          match fill_elements fill rest with
          | Aborted e => Aborted e
          | Returned vs => Returned (v :: vs)
          end
      end
  end.

(** The overloads for [std::vector<T>] and [amrex::Vector<T>]:
    [val_arr.resize(n)] and the loop. *)
Definition fillWithParserArr_vector {T : Type} (fill : string -> outcome T)
    (str_arr : list string) : outcome (list T) :=
  fill_elements fill str_arr.

(** What the overload for [std::array<T,size>] writes to
    [amrex::ErrorStream()] when the lengths differ. *)
Definition wrong_length_text (str_arr : list string) (size : nat) : string :=
  foldr (fun str acc => str +:+ " " +:+ acc)
    ("has wrong length " +:+ show_int (Z.of_nat (length str_arr)) +:+ " should be "
       +:+ show_int (Z.of_nat size) +:+ nl)
    str_arr.

(** The overload for [std::array<T,size>]; those for [amrex::RealVect] and
    [amrex::IntVect] are the same with [AMREX_SPACEDIM] for [size]. *)
Definition fillWithParserArr_array {T : Type} (fill : string -> outcome T) (size : nat)
    (str_arr : list string) : outcome (list T) :=
  if Nat.eqb (length str_arr) size then fill_elements fill str_arr
  else Aborted (wrong_length_text str_arr size).

(** ** Parser.H: [queryWithParser], [getWithParser] and their [Alt] forms *)

Section Query.
Context {T : Type}.
(** [pp.queryarr(str, f)]: the words given for [str] in the input file, if
    it is there. *)
Variable queryarr : ParmParse -> string -> option (list string).
(** What [pp.getarr(str, f)] reports when [str] is not there. *)
Variable getarr_error : ParmParse -> string -> string.
(** [Parser::fillWithParserArr (pp, f, val)] at the type of [val]. *)
Variable fillWithParserArr : ParmParse -> list string -> outcome T.

(** [getWithParser (pp, str, val)]: the new [val]. *)
Definition getWithParser (pp : ParmParse) (str : string) : outcome T :=
  match queryarr pp str with
  | None => Aborted (getarr_error pp str)
  | Some f => fillWithParserArr pp f
  end.

(** [queryWithParser (pp, str, val)]: what is returned, and [val] after the
    call. *)
Definition queryWithParser (pp : ParmParse) (str : string) (val : T) : outcome (bool * T) :=
  match queryarr pp str with
  | Some f =>
      match fillWithParserArr pp f with
      | Aborted e => Aborted e
      | Returned v => Returned (true, v)
      end
  | None => Returned (false, val)
  end.

(** [return queryWithParser(pp, str, val) || queryWithParser(pp_alt, str, val);] *)
Definition queryWithParserAlt (pp : ParmParse) (str : string) (val : T)
    (pp_alt : ParmParse) : outcome (bool * T) :=
  match queryWithParser pp str val with
  | Aborted e => Aborted e
  | Returned (true, val) => Returned (true, val)
  | Returned (false, val) => queryWithParser pp_alt str val
  end.

(** [if (!queryWithParserAlt(pp, str, val, pp_alt)) getWithParser(pp, str, val);] *)
Definition getWithParserAlt (pp : ParmParse) (str : string) (val : T)
    (pp_alt : ParmParse) : outcome T :=
  match queryWithParserAlt pp str val pp_alt with
  | Aborted e => Aborted e
  | Returned (true, val) => Returned val
  | Returned (false, _) => getWithParser pp str
  end.
End Query.

(** An input file for the examples: a name is given with the one word that
    the table of [pp] has for it. *)
Definition demo_queryarr (pp : ParmParse) (str : string) : option (list string) :=
  (fun word => [word]) <$> my_constants pp !! str.

(** ** Parser.H: [makeFunctionWithParser] *)

(** [if (c=='\n' || c=='\r' || c=='\t') c = ' ';] *)
Definition clean_char (c : ascii) : ascii :=
  if Ascii.eqb c (ascii_of_nat 10) || Ascii.eqb c (ascii_of_nat 13)
     || Ascii.eqb c (ascii_of_nat 9)
  then " "%char else c.

(** [for (char& c : clean_str) ...] *)
Fixpoint clean_str (func_str : string) : string :=
  match func_str with
  | EmptyString => EmptyString
  | String c rest => String (clean_char c) (clean_str rest)
  end.

(** [makeFunctionWithParser<N> (func_str, parser, varnames)]; [makeParser]
    stands for [amrex::ParmParse{}.makeParser] followed by [compile<N>]. *)
Definition makeFunctionWithParser {F : Type}
    (makeParser : string -> list string -> outcome F)
    (func_str : string) (varnames : list string) : outcome F :=
  makeParser (clean_str func_str) varnames.

(** ** amrex::Real as binary64 *)

(** [amrex::Real] is [double] in the default build of AMReX.  The data are
    those of [SpecFloat] with 53 bits of precision and exponents up to 1024;
    [+], [-] and [*] round to nearest, ties to even.  This is the reading of
    [EnforceBC] for what depends on the sums and differences it computes. *)
Module B64.

Definition Real : Type := spec_float.

(** [amrex::Real(0)] *)
Definition zero : Real := S754_zero false.
(** The literal [2] converted to [amrex::Real]. *)
Definition two : Real := S754_finite false 4503599627370496 (-51).

Definition add (a b : Real) : Real := SFadd 53 1024 a b.
Definition sub (a b : Real) : Real := SFsub 53 1024 a b.
Definition mul (a b : Real) : Real := SFmul 53 1024 a b.
Definition opp (a : Real) : Real := SFopp a.
(** [a < b]; false when either is NaN. *)
Definition lt (a b : Real) : bool := SFltb a b.

(** An [int] converted to [amrex::Real]. *)
Definition of_int (n : Z) : Real := binary_normalize 53 1024 n 0 false.

(** [std::fmod(x, y)]: NaN when [x] is infinite, [y] is zero or either is
    NaN; [x] itself when [x] is zero or [y] infinite; and else the exact
    remainder of [|x|] by [|y|] with the sign of [x].  The integers
    [mx * 2^(ex - ez)] and [my * 2^(ey - ez)] are divided; the remainder is
    below [|y|] and a multiple of [2^ez], so that it is a binary64 datum. *)
Definition fmod (x y : Real) : Real :=
  match x, y with
  | S754_nan, _ | _, S754_nan => S754_nan
  | S754_infinity _, _ => S754_nan
  | _, S754_zero _ => S754_nan
  | S754_zero _, _ => x
  | S754_finite _ _ _, S754_infinity _ => x
  | S754_finite sx mx ex, S754_finite _ my ey =>
      let ez := Z.min ex ey in
      let r := Z.rem (Zpos mx * 2 ^ (ex - ez)) (Zpos my * 2 ^ (ey - ez)) in
      binary_normalize 53 1024 (cond_Zopp sx r) ez sx
  end.

(** A binary64 datum that is a number: zero or finite, with the mantissa
    and exponent of the format. *)
Definition finite (v : Real) : bool :=
  match v with
  | S754_zero _ => true
  | S754_finite _ m e => bounded 53 1024 m e
  | _ => false
  end.

(** The number a datum stands for (0 for infinities and NaN). *)
Definition val (v : Real) : Q :=
  match SF2Q v with
  | Some q => q
  | None => 0%Q
  end.

(** The datum [r] is a number and stands for [q]: when [r] was computed by
    an operation and [q] is the exact result, the operation did not round. *)
Definition exact (r : Real) (q : Q) : bool := finite r && Qeq_bool (val r) q.

(** The particle tile data, with binary64 components. *)
Record ParticleTileData : Type := {
  rdata : list (list Real);
  idcpu : list Z
}.

Definition set_rdata (ptd : ParticleTileData) (comp ip : nat) (v : Real)
    : ParticleTileData :=
  {| rdata := alter (fun col => <[ip := v]> col) comp (rdata ptd);
     idcpu := idcpu ptd |}.

Definition id_make_invalid (ptd : ParticleTileData) (ip : nat) : ParticleTileData :=
  {| rdata := rdata ptd;
     idcpu := alter make_invalid ip (idcpu ptd) |}.

Definition get_rdata (ptd : ParticleTileData) (comp ip : nat) : option Real :=
  rdata ptd !! comp ≫= fun col => col !! ip.

Definition id_is_valid (ptd : ParticleTileData) (ip : nat) : option bool :=
  is_valid <$> idcpu ptd !! ip.

(** [struct EnforceBC] *)
Record EnforceBC : Type := {
  m_particle_boundary : ParticleBoundary.type;
  m_plo : Real * Real;
  m_phi : Real * Real
}.

(** [struct CheckDomainBounds] and [contains] *)
Record CheckDomainBounds : Type := {
  cdb_lo : Real * Real;
  cdb_hi : Real * Real
}.

Definition contains (b : CheckDomainBounds) (x y : Real) : bool :=
  lt (cdb_lo b).1 x && lt x (cdb_hi b).1 && lt (cdb_lo b).2 y && lt y (cdb_hi b).2.

Record EnforceBC_result : Type := {
  r_ptd : ParticleTileData;
  r_x : Real;
  r_y : Real;
  r_ux : Real;
  r_uy : Real;
  r_invalid : bool
}.

(** [if (x < m_plo[0] || y < m_plo[1] || x > m_phi[0] || y > m_phi[1])] *)
Definition outside_box (bc : EnforceBC) (x y : Real) : bool :=
  lt x (m_plo bc).1 || lt y (m_plo bc).2 || lt (m_phi bc).1 x || lt (m_phi bc).2 y.

(** [bool operator() (const PTD& ptd, const int ip, amrex::Real& x,
    amrex::Real& y, amrex::Real& ux, amrex::Real& uy, const int w_index)] *)
Definition EnforceBC_call (bc : EnforceBC) (ptd : ParticleTileData) (ip : nat)
    (x y ux uy : Real) (w_index : nat) : EnforceBC_result :=
  let invalid := false in
  if lt x (m_plo bc).1 || lt y (m_plo bc).2
     || lt (m_phi bc).1 x || lt (m_phi bc).2 y
  then
    let len_x := sub (m_phi bc).1 (m_plo bc).1 in
    let len_y := sub (m_phi bc).2 (m_plo bc).2 in
    match m_particle_boundary bc with
    | ParticleBoundary.Reflecting =>
        let x := fmod (sub x (m_plo bc).1) (mul two len_x) in
        let x := if lt x zero then add x (mul two len_x) else x in
        let x := add x (m_plo bc).1 in
        let '(x, ux) :=
          if lt (m_phi bc).1 x then (sub (mul two (m_phi bc).1) x, opp ux)
          else (x, ux) in
        let y := fmod (sub y (m_plo bc).2) (mul two len_y) in
        let y := if lt y zero then add y (mul two len_y) else y in
        let y := add y (m_plo bc).2 in
        let '(y, uy) :=
          if lt (m_phi bc).2 y then (sub (mul two (m_phi bc).2) y, opp uy)
          else (y, uy) in
        let invalid := false in
        {| r_ptd := ptd; r_x := x; r_y := y; r_ux := ux; r_uy := uy;
           r_invalid := invalid |}
    | ParticleBoundary.Periodic =>
        let x := fmod (sub x (m_plo bc).1) len_x in
        let x := if lt x zero then add x len_x else x in
        let x := add x (m_plo bc).1 in
        let y := fmod (sub y (m_plo bc).2) len_y in
        let y := if lt y zero then add y len_y else y in
        let y := add y (m_plo bc).2 in
        let invalid := false in
        {| r_ptd := ptd; r_x := x; r_y := y; r_ux := ux; r_uy := uy;
           r_invalid := invalid |}
    | ParticleBoundary.Absorbing =>
        let ptd := set_rdata ptd w_index ip zero in
        let ptd := id_make_invalid ptd ip in
        let invalid := true in
        {| r_ptd := ptd; r_x := x; r_y := y; r_ux := ux; r_uy := uy;
           r_invalid := invalid |}
    end
  else
    {| r_ptd := ptd; r_x := x; r_y := y; r_ux := ux; r_uy := uy;
       r_invalid := invalid |}.

(** The statements of the reflecting branch on one axis. *)
Definition reflect_axis (lo hi x u : Real) : Real * Real :=
  let len := sub hi lo in
  let x := fmod (sub x lo) (mul two len) in
  let x := if lt x zero then add x (mul two len) else x in
  let x := add x lo in
  if lt hi x then (sub (mul two hi) x, opp u) else (x, u).

(** The statements of the periodic branch on one axis. *)
Definition wrap_axis (lo hi x : Real) : Real :=
  let len := sub hi lo in
  let x := fmod (sub x lo) len in
  let x := if lt x zero then add x len else x in
  add x lo.

End B64.




Definition demo_ptd64 : B64.ParticleTileData :=
  {| B64.rdata := [[B64.of_int 3; B64.of_int 5]]; B64.idcpu := [2 ^ 63 + 7; 2 ^ 63 + 8]%Z |}.

(** A box of half width [8e-5] and the binary64 datum next below its lower
    bound, [-8.000000000000002e-05]. *)
Definition narrow_bc64 (b : ParticleBoundary.type) : B64.EnforceBC :=
  {| B64.m_particle_boundary := b;
     B64.m_plo := (S754_finite true 5902958103587057 (-66),
                   S754_finite true 5902958103587057 (-66));
     B64.m_phi := (S754_finite false 5902958103587057 (-66),
                   S754_finite false 5902958103587057 (-66)) |}.

Definition below_narrow_lo : B64.Real := S754_finite true 5902958103587058 (-66).

(** The box [[-1, 3.0000000000000013]] and the binary64 datum next below
    [-1], [-1.0000000000000002]. *)
Definition skew_bc64 (b : ParticleBoundary.type) : B64.EnforceBC :=
  {| B64.m_particle_boundary := b;
     B64.m_plo := (S754_finite true 4503599627370496 (-52),
                   S754_finite true 4503599627370496 (-52));
     B64.m_phi := (S754_finite false 6755399441055747 (-51),
                   S754_finite false 6755399441055747 (-51)) |}.

Definition below_minus_one : B64.Real := S754_finite true 4503599627370497 (-52).

(** ** Fields.H: [GetPosOffset] *)

(** What [GetPosOffset] reads of an [amrex::Geometry] and an [amrex::Box],
    per direction: reals of the geometry, [int] indices of the box. *)
Record Geometry : Type := {
  ProbLo : nat -> B64.Real;
  ProbHi : nat -> B64.Real;
  CellSize : nat -> B64.Real
}.

Record Box : Type := {
  smallEnd : nat -> Z;
  bigEnd : nat -> Z
}.

(** [a + b] and [a - b] on [int], as two's complement hardware computes
    them (an overflow is undefined behaviour in C++). *)
Definition int_add (a b : Z) : Z := static_cast_int (a + b).
Definition int_sub (a b : Z) : Z := static_cast_int (a - b).

(** The literal [0.5_rt]. *)
Definition half : B64.Real := S754_finite false 4503599627370496 (-53).

(** [inline amrex::Real GetPosOffset (const int dir, const amrex::Geometry& geom,
    const amrex::Box& box)] *)
Definition GetPosOffset (dir : nat) (geom : Geometry) (box : Box) : B64.Real :=
  B64.mul half
    (B64.sub (B64.add (ProbLo geom dir) (ProbHi geom dir))
       (B64.mul (CellSize geom dir)
          (B64.of_int (int_add (smallEnd box dir) (bigEnd box dir))))).

(** [box.grow(n)] of AMReX: [n] more cells at both ends in every
    direction. *)
Definition grow (box : Box) (n : Z) : Box :=
  {| smallEnd := fun dir => int_sub (smallEnd box dir) n;
     bigEnd := fun dir => int_add (bigEnd box dir) n |}.

(** A geometry and a box for the examples: the domain [[-10, 10]] with cells
    of length 1 and the indices 0 to 19. *)
Definition demo_geom : Geometry :=
  {| ProbLo := fun _ => B64.of_int (-10);
     ProbHi := fun _ => B64.of_int 10;
     CellSize := fun _ => B64.of_int 1 |}.

Definition demo_box : Box :=
  {| smallEnd := fun _ => 0%Z; bigEnd := fun _ => 19%Z |}.

(* ===================================================================== *)
(** * Properties *)
(* ===================================================================== *)

Section RegistryProperties.
Import AssertMap.

Lemma string_app_assoc (a b c : string) : (a +:+ b) +:+ c = a +:+ (b +:+ c).
Proof.
  induction a as [|ch a IH]; [reflexivity |].
  change (String ch ((a +:+ b) +:+ c) = String ch (a +:+ (b +:+ c))).
  by rewrite IH.
Qed.

Lemma string_app_nil_r (a : string) : a +:+ EmptyString = a.
Proof.
  induction a as [|ch a IH]; [reflexivity |].
  change (String ch (a +:+ EmptyString) = String ch a). by rewrite IH.
Qed.

Lemma count_zero_iff (m : assert_map) (str : string) :
  count m str = 0 <-> forall idx, (str, idx) ∉ m.
Proof.
  induction m as [|[k v] m IH]; simpl.
  - split; [intros _ idx Hin; inversion Hin | reflexivity].
  - destruct (String.eqb_spec k str) as [->|Hne]; simpl.
    + split; [discriminate |]. intros H. exfalso. apply (H v). left.
    + rewrite IH. split; intros H idx Hin.
      * apply elem_of_cons in Hin as [Heq|Hin]; [congruence | by apply (H idx)].
      * apply (H idx). by right.
Qed.

Lemma at_elem_of (m : assert_map) (str : string) (idx : Z) :
  at_ m str = Some idx -> (str, idx) ∈ m.
Proof.
  induction m as [|[k v] m IH]; simpl; [discriminate |].
  destruct (String.eqb_spec k str) as [->|Hne].
  - intros [= ->]. left.
  - intros H. right. auto.
Qed.

Lemma sorted_head_fresh (k : string) (v idx : Z) (m : assert_map) :
  keys_sorted ((k, v) :: m) -> (k, idx) ∉ m.
Proof.
  unfold keys_sorted. simpl. intros Hs Hin.
  apply StronglySorted_inv in Hs as [_ Hall].
  rewrite Forall_forall in Hall.
  assert (Hlt : String_as_OT.lt k k).
  { apply Hall. apply (list_elem_of_fmap_2 fst) in Hin. exact Hin. }
  by apply String_as_OT.lt_not_eq in Hlt.
Qed.

Lemma at_of_elem_of (m : assert_map) (str : string) (idx : Z) :
  keys_sorted m -> (str, idx) ∈ m -> at_ m str = Some idx.
Proof.
  induction m as [|[k v] m IH]; intros Hs Hin; [inversion Hin |].
  simpl. apply elem_of_cons in Hin as [[= <- <-]|Hin].
  - by rewrite String.eqb_refl.
  - destruct (String.eqb_spec k str) as [->|Hne].
    + exfalso. by apply (sorted_head_fresh str v idx m).
    + apply IH; [| exact Hin]. unfold keys_sorted in *. simpl in Hs.
      by apply StronglySorted_inv in Hs as [Hs _].
Qed.

Lemma listing_mentions (m : assert_map) (e : string * Z) :
  e ∈ m -> occurs_in (entry_text e) (listing m).
Proof.
  induction m as [|e' m IH]; intros Hin; [inversion Hin |].
  apply elem_of_cons in Hin as [->|Hin]; simpl.
  - exists EmptyString, (listing m). reflexivity.
  - destruct (IH Hin) as (b & a & Heq). exists (entry_text e' +:+ b), a.
    rewrite Heq. by rewrite string_app_assoc.
Qed.

Lemma occurs_in_app_l (p a b : string) : occurs_in p b -> occurs_in p (a +:+ b).
Proof.
  intros (x & y & ->). exists (a +:+ x), y. by rewrite string_app_assoc.
Qed.

Lemma occurs_in_app_r (p a b : string) : occurs_in p a -> occurs_in p (a +:+ b).
Proof.
  intros (x & y & ->). exists x, (y +:+ b). by rewrite !string_app_assoc.
Qed.

(** A miss aborts, and the text names the component and lists the map. *)
Lemma subscript_miss (m : assert_map) (str : string) :
  (forall idx, (str, idx) ∉ m) ->
  operator_subscript m str = Aborted (not_allocated_text m str).
Proof.
  intros H. unfold operator_subscript.
  by rewrite (proj2 (count_zero_iff m str) H).
Qed.

(** A hit returns the index stored with the name. *)
Lemma subscript_hit (m : assert_map) (str : string) (idx : Z) :
  keys_sorted m -> (str, idx) ∈ m -> operator_subscript m str = Returned idx.
Proof.
  intros Hs Hin. unfold operator_subscript.
  destruct (Nat.eqb_spec (count m str) 0) as [H0|_].
  - destruct (proj1 (count_zero_iff m str) H0 idx Hin).
  - by rewrite (at_of_elem_of m str idx Hs Hin).
Qed.
End RegistryProperties.

Section RegistrationProperties.
Import AssertMap.

Lemma emplace_keys (k : string) (v : Z) (m : assert_map) (x : string) :
  x ∈ map fst (emplace k v m) -> x = k \/ x ∈ map fst m.
Proof.
  induction m as [|[k' v'] m IH]; simpl.
  - intros Hin. left. by apply list_elem_of_singleton in Hin.
  - destruct (String_as_OT.cmp k k'); simpl; intros Hin.
    + by right.
    + apply elem_of_cons in Hin as [->|Hin]; [by left | by right].
    + apply elem_of_cons in Hin as [->|Hin]; [right; left |].
      destruct (IH Hin) as [->|H]; [by left | right; by right].
Qed.

Lemma emplace_sorted (k : string) (v : Z) (m : assert_map) :
  keys_sorted m -> keys_sorted (emplace k v m).
Proof.
  unfold keys_sorted. induction m as [|[k' v'] m IH]; simpl; intros Hs.
  - repeat constructor.
  - destruct (String_as_OT.cmp k k') eqn:Hc; simpl.
    + exact Hs.
    + apply String_as_OT.cmp_lt in Hc.
      apply StronglySorted_inv in Hs as Hinv. destruct Hinv as [_ Hall].
      constructor; [exact Hs |]. constructor; [exact Hc |].
      eapply Forall_impl; [exact Hall |]. intros y Hy.
      by apply (String_as_OT.lt_trans k k' y).
    + assert (Hlt : String_as_OT.lt k' k).
      { apply String_as_OT.cmp_lt. rewrite String_as_OT.cmp_antisym, Hc. reflexivity. }
      clear Hc. rename Hlt into Hc.
      apply StronglySorted_inv in Hs as [Hs Hall].
      constructor; [by apply IH |].
      apply Forall_forall. intros y Hy.
      destruct (emplace_keys k v m y Hy) as [->|Hin]; [exact Hc |].
      rewrite Forall_forall in Hall. by apply Hall.
Qed.

Lemma multi_emplace_sorted (comps : list string) (n : Z) (m : assert_map) :
  keys_sorted m -> keys_sorted (multi_emplace n comps m).2.
Proof.
  revert n m. induction comps as [|c cs IH]; intros n m Hs; simpl; [exact Hs |].
  apply IH. by apply emplace_sorted.
Qed.

(** [emplace] of a name that is not in the map registers it. *)
Lemma emplace_fresh (k : string) (v : Z) (m : assert_map) :
  count m k = 0 -> (k, v) ∈ emplace k v m.
Proof.
  induction m as [|[k' v'] m IH]; simpl; [intros _; left |].
  destruct (String.eqb_spec k' k) as [->|Hne]; [discriminate |].
  simpl. intros H0. destruct (String_as_OT.cmp k k') eqn:Hc.
  - apply String_as_OT.cmp_eq in Hc. congruence.
  - left.
  - right. by apply IH.
Qed.

(** [emplace] never drops or changes an entry. *)
Lemma emplace_keeps (k : string) (v : Z) (m : assert_map) (e : string * Z) :
  e ∈ m -> e ∈ emplace k v m.
Proof.
  induction m as [|[k' v'] m IH]; intros Hin; [inversion Hin |].
  simpl. destruct (String_as_OT.cmp k k'); [exact Hin | by right |].
  apply elem_of_cons in Hin as [->|Hin]; [left | right; by apply IH].
Qed.

Lemma subscript_after_emplace (k : string) (v : Z) (m : assert_map) :
  keys_sorted m -> count m k = 0 ->
  operator_subscript (emplace k v m) k = Returned v.
Proof.
  intros Hs H0. apply subscript_hit; [by apply emplace_sorted | by apply emplace_fresh].
Qed.
End RegistrationProperties.

Lemma demo_Comps_sorted (s : WhichSlice.slice) : AssertMap.keys_sorted (demo_Comps s).
Proof.
  destruct s; unfold demo_Comps;
    try apply multi_emplace_sorted; apply SSorted_nil.
Qed.

(** C1. For every slice role and every component name, [Comps[islice][comp]]
    on a name that has no entry in that role's map ends the run, after
    writing the offending name and the listing of every allocated name (with
    its index) of that role; on a name that has an entry it returns the
    index stored with it. *)
Theorem Comps_lookup_registered_or_fatal
    (Comps : Comps_t) (islice : WhichSlice.slice) (comp : string) :
  AssertMap.keys_sorted (Comps islice) ->
  ((forall idx, (comp, idx) ∉ Comps islice) ->
     Comps_lookup Comps islice comp
       = Aborted (AssertMap.not_allocated_text (Comps islice) comp)
     /\ occurs_in ("Component '" +:+ comp +:+ "' is not allocated")
          (AssertMap.not_allocated_text (Comps islice) comp)
     /\ forall name num, (name, num) ∈ Comps islice ->
          occurs_in (" '" +:+ name +:+ "' (" +:+ show_int num +:+ "),")
            (AssertMap.not_allocated_text (Comps islice) comp))
  /\ (forall idx, (comp, idx) ∈ Comps islice ->
        Comps_lookup Comps islice comp = Returned idx).
Proof.
  intros Hs. split.
  - intros Hmiss. split; [by apply subscript_miss |]. split.
    + exists EmptyString, (nl +:+ "Fields allocated:" +:+ AssertMap.listing (Comps islice) +:+ nl).
      unfold AssertMap.not_allocated_text.
      change (EmptyString +:+ ?x) with x. by rewrite !string_app_assoc.
    + intros name num Hin. unfold AssertMap.not_allocated_text.
      do 5 apply occurs_in_app_l. apply occurs_in_app_r.
      exact (listing_mentions (Comps islice) (name, num) Hin).
  - intros idx Hin. by apply subscript_hit.
Qed.

Lemma Comps_lookup_registered_or_fatal_witness :
  Comps_lookup demo_Comps WhichSlice.This "By" = Returned 2%Z
  /\ Comps_lookup demo_Comps WhichSlice.This "rho"
     = Aborted ("Component 'rho' is not allocated" +:+ nl
                +:+ "Fields allocated: 'Bx' (1), 'By' (2), 'Ez' (0)," +:+ nl).
Proof.
  destruct (Comps_lookup_registered_or_fatal demo_Comps WhichSlice.This "By"
              (demo_Comps_sorted WhichSlice.This)) as [_ Hhit].
  destruct (Comps_lookup_registered_or_fatal demo_Comps WhichSlice.This "rho"
              (demo_Comps_sorted WhichSlice.This)) as [Hmiss _].
  split.
  - apply Hhit. vm_compute. right. left.
  - destruct Hmiss as [-> _]; [| reflexivity].
    intros idx Hin. vm_compute in Hin.
    repeat (apply elem_of_cons in Hin as [Hin|Hin]; [discriminate Hin |]).
    inversion Hin.
Defined.

(** ** Rational arithmetic behind [EnforceBC] *)

Lemma Rlt_true (a b : Q) : Rlt a b = true <-> (a < b)%Q.
Proof.
  unfold Rlt. rewrite negb_true_iff. split.
  - intros H. apply Qnot_le_lt. intros Hle. apply Qle_bool_iff in Hle. congruence.
  - intros H. destruct (Qle_bool b a) eqn:E; [| reflexivity].
    apply Qle_bool_iff in E. exfalso. apply (Qlt_not_le _ _ H E).
Qed.

Lemma Rlt_false (a b : Q) : Rlt a b = false <-> (b <= a)%Q.
Proof.
  unfold Rlt. rewrite negb_false_iff. apply Qle_bool_iff.
Qed.









Lemma outside_box_test (bc : EnforceBC) (x y : Q) :
  Rlt x (m_plo bc).1 || Rlt y (m_plo bc).2
    || Rlt (m_phi bc).1 x || Rlt (m_phi bc).2 y = true
  <-> outside_box bc x y.
Proof.
  unfold outside_box. rewrite !orb_true_iff, !Rlt_true. tauto.
Qed.

Lemma inside_box_test (bc : EnforceBC) (x y : Q) :
  ((m_plo bc).1 <= x <= (m_phi bc).1)%Q ->
  ((m_plo bc).2 <= y <= (m_phi bc).2)%Q ->
  Rlt x (m_plo bc).1 || Rlt y (m_plo bc).2
    || Rlt (m_phi bc).1 x || Rlt (m_phi bc).2 y = false.
Proof.
  intros [Hx1 Hx2] [Hy1 Hy2].
  rewrite !orb_false_iff, !Rlt_false. tauto.
Qed.

Lemma EnforceBC_absorbing (bc : EnforceBC) ptd ip x y ux uy w_index :
  m_particle_boundary bc = ParticleBoundary.Absorbing ->
  outside_box bc x y ->
  EnforceBC_call bc ptd ip x y ux uy w_index
  = {| r_ptd := id_make_invalid (set_rdata ptd w_index ip 0) ip;
       r_x := x; r_y := y; r_ux := ux; r_uy := uy; r_invalid := true |}.
Proof.
  intros Hb Hout. apply outside_box_test in Hout.
  unfold EnforceBC_call. rewrite Hout, Hb. reflexivity.
Qed.

Lemma EnforceBC_inside (bc : EnforceBC) ptd ip x y ux uy w_index :
  ((m_plo bc).1 <= x <= (m_phi bc).1)%Q ->
  ((m_plo bc).2 <= y <= (m_phi bc).2)%Q ->
  EnforceBC_call bc ptd ip x y ux uy w_index
  = {| r_ptd := ptd; r_x := x; r_y := y; r_ux := ux; r_uy := uy;
       r_invalid := false |}.
Proof.
  intros Hx Hy. unfold EnforceBC_call. by rewrite inside_box_test.
Qed.

Lemma make_invalid_not_valid (id : Z) : is_valid (make_invalid id) = false.
Proof.
  unfold is_valid, make_invalid. rewrite Z.land_spec, Z.ones_spec_high by lia.
  apply andb_false_r.
Qed.

Lemma get_rdata_set (ptd : ParticleTileData) (comp ip : nat) (v : Q) (col : list Q) :
  rdata ptd !! comp = Some col -> ip < length col ->
  get_rdata (set_rdata ptd comp ip v) comp ip = Some v.
Proof.
  intros Hcol Hip. unfold get_rdata, set_rdata. simpl.
  rewrite list_lookup_alter, Hcol. simpl.
  destruct (decide (comp = comp)) as [_|Hne]; [| by destruct Hne].
  simpl. by apply list_lookup_insert_eq.
Qed.

(** ** What [EnforceBC] does under each policy *)

(** C2. Under the absorbing policy, a particle outside the box gets weight
    zero and an invalid id, the call returns [true], and whatever the
    particle deposits afterwards is zero. *)
Theorem absorbing_outside_invalidates
    (bc : EnforceBC) (ptd : ParticleTileData) (ip w_index : nat)
    (x y ux uy : Q) (col : list Q) (id : Z) :
  m_particle_boundary bc = ParticleBoundary.Absorbing ->
  outside_box bc x y ->
  rdata ptd !! w_index = Some col -> ip < length col ->
  idcpu ptd !! ip = Some id ->
  let r := EnforceBC_call bc ptd ip x y ux uy w_index in
  r_invalid r = true
  /\ get_rdata (r_ptd r) w_index ip = Some 0%Q
  /\ id_is_valid (r_ptd r) ip = Some false
  /\ forall factor : Q, (deposited 0 factor == 0)%Q.
Proof.
  intros Hb Hout Hcol Hip Hid r. subst r.
  rewrite (EnforceBC_absorbing bc ptd ip x y ux uy w_index Hb Hout). simpl.
  split; [reflexivity |]. split; [| split].
  - exact (get_rdata_set ptd w_index ip 0 col Hcol Hip).
  - unfold id_is_valid, id_make_invalid. simpl.
    rewrite list_lookup_alter, Hid. simpl.
    destruct (decide (ip = ip)) as [_|Hne]; [| by destruct Hne].
    simpl. by rewrite make_invalid_not_valid.
  - intros factor. unfold deposited. ring.
Qed.

Lemma absorbing_outside_invalidates_witness :
  let r := EnforceBC_call (demo_bc ParticleBoundary.Absorbing) demo_ptd 1 11 0 2 3 0 in
  r_invalid r = true
  /\ get_rdata (r_ptd r) 0 1 = Some 0%Q
  /\ id_is_valid (r_ptd r) 1 = Some false
  /\ forall factor : Q, (deposited 0 factor == 0)%Q.
Proof.
  apply (absorbing_outside_invalidates (demo_bc ParticleBoundary.Absorbing)
           demo_ptd 1 0 11 0 2 3 [3; 5]%Q (2 ^ 63 + 8)%Z).
  - reflexivity.
  - unfold outside_box. simpl. right. right. left. reflexivity.
  - reflexivity.
  - simpl. lia.
  - reflexivity.
Defined.

(** C9. Whatever the policy, a particle on an edge of the box (one
    coordinate equal to a bound, both within the closed box) goes through the
    call unchanged: same tile data, position and momentum, and the call
    returns [false]; the test for being outside is strict. *)
Theorem on_edge_unchanged
    (bc : EnforceBC) (ptd : ParticleTileData) (ip w_index : nat) (x y ux uy : Q) :
  on_box_edge bc x y ->
  EnforceBC_call bc ptd ip x y ux uy w_index
  = {| r_ptd := ptd; r_x := x; r_y := y; r_ux := ux; r_uy := uy;
       r_invalid := false |}.
Proof.
  intros (Hx & Hy & _). by apply EnforceBC_inside.
Qed.

Lemma on_edge_unchanged_witness :
  EnforceBC_call (demo_bc ParticleBoundary.Absorbing) demo_ptd 1 10 4 2 3 0
  = {| r_ptd := demo_ptd; r_x := 10; r_y := 4; r_ux := 2; r_uy := 3;
       r_invalid := false |}.
Proof.
  apply (on_edge_unchanged (demo_bc ParticleBoundary.Absorbing) demo_ptd 1 0 10 4 2 3).
  unfold on_box_edge. simpl.
  split; [split; [discriminate | discriminate] |].
  split; [split; discriminate |].
  right. left. reflexivity.
Defined.

(** The emptiness test of [CheckDomainBounds] is strict the other way round:
    a point on an edge is not contained. *)
Remark contains_excludes_edge (b : CheckDomainBounds) (x y : Q) :
  (x == (cdb_lo b).1 \/ x == (cdb_hi b).1
   \/ y == (cdb_lo b).2 \/ y == (cdb_hi b).2)%Q ->
  contains b x y = false.
Proof.
  intros H. unfold contains. rewrite !andb_false_iff, !Rlt_false.
  destruct H as [H|[H|[H|H]]]; rewrite H; auto using Qle_refl.
Qed.

(** ** [Fields::shift] is a copy *)

Section ShiftProperties.

Lemma shift_kernel_length (D S : list Z) (cell : list Q) :
  length (shift_kernel D S cell) = length cell.
Proof.
  revert S cell. induction D as [|d D IH]; intros [|s S] cell; simpl; try reflexivity.
  rewrite IH. destruct (cell !! Z.to_nat s); [apply length_insert | reflexivity].
Qed.

(** A component that is not a destination keeps its value. *)
Lemma shift_kernel_other (D S : list Z) (cell : list Q) (i : nat) :
  (forall d, d ∈ D -> Z.to_nat d ≠ i) ->
  shift_kernel D S cell !! i = cell !! i.
Proof.
  revert S cell. induction D as [|d D IH]; intros [|s S] cell Hi; simpl; try reflexivity.
  rewrite IH by (intros d' Hd'; apply Hi; by right).
  destruct (cell !! Z.to_nat s); [| reflexivity].
  apply list_lookup_insert_ne. apply Hi. left.
Qed.

(** With all indices in range, no index both read and written and no
    destination written twice, every destination ends with the original
    value of its source. *)
Lemma shift_kernel_copies (D S : list Z) (cell : list Q) (n : nat) (d s : Z) :
  length D = length S ->
  NoDup (S ++ D) ->
  Forall (fun i => (0 <= i < Z.of_nat (length cell))%Z) (S ++ D) ->
  D !! n = Some d -> S !! n = Some s ->
  shift_kernel D S cell !! Z.to_nat d = cell !! Z.to_nat s.
Proof.
  revert S cell n. induction D as [|d0 D IH]; intros [|s0 S] cell n Hlen Hnd Hrg Hd Hs;
    simpl in *; try discriminate.
  apply NoDup_cons in Hnd as [Hs0 Hnd].
  apply NoDup_app in Hnd as (HndS & Hdisj & HndD).
  apply NoDup_cons in HndD as [Hd0 HndD].
  apply Forall_cons in Hrg as [Hrs0 Hrg].
  apply Forall_app in Hrg as [HrS HrD].
  apply Forall_cons in HrD as [Hrd0 HrD].
  assert (Hv : is_Some (cell !! Z.to_nat s0)) by (apply lookup_lt_is_Some; lia).
  destruct Hv as [v Hv]. rewrite Hv.
  destruct n as [|n]; simpl in *.
  - injection Hd as ->. injection Hs as ->.
    rewrite shift_kernel_other.
    + rewrite list_lookup_insert_eq by lia. by rewrite Hv.
    + intros d' Hd' Heq. apply Hd0.
      rewrite Forall_forall in HrD. specialize (HrD d' Hd').
      assert (d' = d) by lia. by subst.
  - rewrite (IH S (<[Z.to_nat d0:=v]> cell) n); try assumption.
    + apply list_lookup_insert_ne. intros Heq.
      assert (Hin : s ∈ S) by (eapply list_elem_of_lookup_2; exact Hs).
      rewrite Forall_forall in HrS. specialize (HrS s Hin).
      assert (d0 = s) by lia. subst.
      apply (Hdisj s Hin). left.
    + lia.
    + apply NoDup_app. split; [exact HndS |]. split; [| exact HndD].
      intros x Hx Hx'. apply (Hdisj x Hx). by right.
    + rewrite length_insert. apply Forall_app. split; assumption.
Qed.

Lemma lookup_comps_length (m : AssertMap.assert_map) (comps : list string) (idx : list Z) :
  lookup_comps m comps = Returned idx -> length idx = length comps.
Proof.
  revert idx. induction comps as [|c cs IH]; intros idx; simpl.
  - by intros [= <-].
  - destruct (AssertMap.operator_subscript m c); [| discriminate].
    destruct (lookup_comps m cs) as [rest|]; [| discriminate].
    intros [= <-]. simpl. by rewrite (IH rest).
Qed.

(** One cell after [shift] there and back. *)
Lemma shift_kernel_round_trip (D S : list Z) (cell : list Q) (n : nat) (d s : Z) :
  length D = length S ->
  NoDup (S ++ D) ->
  Forall (fun i => (0 <= i < Z.of_nat (length cell))%Z) (S ++ D) ->
  D !! n = Some d -> S !! n = Some s ->
  shift_kernel S D (shift_kernel D S cell) !! Z.to_nat s = cell !! Z.to_nat s
  /\ shift_kernel S D (shift_kernel D S cell) !! Z.to_nat d = cell !! Z.to_nat s.
Proof.
  intros Hlen Hnd Hrg Hd Hs.
  assert (Hnd' : NoDup (D ++ S)).
  { apply NoDup_app in Hnd as (H1 & H2 & H3). apply NoDup_app.
    split; [exact H3 |]. split; [| exact H1]. intros x Hx Hx'. by apply (H2 x). }
  assert (Hrg' : Forall (fun i => (0 <= i < Z.of_nat (length (shift_kernel D S cell)))%Z)
                   (D ++ S)).
  { rewrite shift_kernel_length. apply Forall_app in Hrg as [H1 H2].
    apply Forall_app. by split. }
  assert (Hfirst : shift_kernel D S cell !! Z.to_nat d = cell !! Z.to_nat s)
    by (by apply (shift_kernel_copies D S cell n d s)).
  split.
  - rewrite (shift_kernel_copies S D _ n s d); try done. 
  - rewrite shift_kernel_other; [exact Hfirst |].
    intros s' Hs' Heq.
    assert (Hin : d ∈ D) by (eapply list_elem_of_lookup_2; exact Hd).
    rewrite Forall_forall in Hrg.
    pose proof (Hrg s' ltac:(apply elem_of_app; by left)).
    pose proof (Hrg d ltac:(apply elem_of_app; by right)).
    assert (s' = d) by lia. subst.
    apply NoDup_app in Hnd as (_ & H2 & _). by apply (H2 d).
Qed.

Lemma contents_round_trip (D S : list Z) (mfab : MultiFab) :
  length D = length S ->
  NoDup (S ++ D) ->
  Forall (fun cell : list Q =>
            Forall (fun i => (0 <= i < Z.of_nat (length cell))%Z) (S ++ D)) mfab ->
  contents S (map (shift_kernel S D) (map (shift_kernel D S) mfab)) = contents S mfab
  /\ contents D (map (shift_kernel S D) (map (shift_kernel D S) mfab)) = contents S mfab.
Proof.
  intros Hlen Hnd Hrg. unfold contents. split.
  - apply list_eq. intros n. rewrite !list_lookup_fmap.
    destruct (S !! n) as [s|] eqn:Hs; [| reflexivity]. simpl. f_equal.
    assert (Hd : is_Some (D !! n)).
    { apply lookup_lt_is_Some. rewrite Hlen. eapply lookup_lt_Some. exact Hs. }
    destruct Hd as [d Hd].
    rewrite !map_map. apply map_ext_in. intros cell Hcell.
    rewrite Forall_forall in Hrg. apply list_elem_of_In in Hcell.
    by destruct (shift_kernel_round_trip D S cell n d s Hlen Hnd (Hrg cell Hcell) Hd Hs).
  - apply list_eq. intros n. rewrite !list_lookup_fmap.
    destruct (D !! n) as [d|] eqn:Hd.
    + assert (Hs : is_Some (S !! n)).
      { apply lookup_lt_is_Some. rewrite <- Hlen. eapply lookup_lt_Some. exact Hd. }
      destruct Hs as [s Hs]. rewrite Hs. simpl. f_equal.
      rewrite !map_map. apply map_ext_in. intros cell Hcell.
      rewrite Forall_forall in Hrg. apply list_elem_of_In in Hcell.
      by destruct (shift_kernel_round_trip D S cell n d s Hlen Hnd (Hrg cell Hcell) Hd Hs).
    + assert (Hs : S !! n = None).
      { apply lookup_ge_None. rewrite <- Hlen. by apply lookup_ge_None. }
      by rewrite Hs.
Qed.

End ShiftProperties.

(** C5 (as the code has it). [shift] copies.  For names registered in both
    roles whose indices are in range and pairwise different, [shift] from
    [src] to [dst] followed by [shift] from [dst] to [src] both return, leave
    the named components of [src] as they were, and leave the named
    components of [dst] equal to the original ones of [src]; the other levels
    are not touched. *)
Theorem shift_round_trip_copies
    (Comps : Comps_t) (lev : nat) (dst src : WhichSlice.slice)
    (comps : list string) (m_slices : list MultiFab)
    (c_idx_src c_idx_dst : list Z) (mfab : MultiFab) :
  lookup_comps (Comps src) comps = Returned c_idx_src ->
  lookup_comps (Comps dst) comps = Returned c_idx_dst ->
  NoDup (c_idx_src ++ c_idx_dst) ->
  m_slices !! lev = Some mfab ->
  Forall (fun cell : list Q =>
            Forall (fun i => (0 <= i < Z.of_nat (length cell))%Z)
              (c_idx_src ++ c_idx_dst)) mfab ->
  exists s1 s2 mfab2,
    shift Comps lev dst src comps m_slices = Returned s1
    /\ shift Comps lev src dst comps s1 = Returned s2
    /\ s2 !! lev = Some mfab2
    /\ contents c_idx_src mfab2 = contents c_idx_src mfab
    /\ contents c_idx_dst mfab2 = contents c_idx_src mfab
    /\ forall l, l ≠ lev -> s2 !! l = m_slices !! l.
Proof.
  intros HS HD Hnd Hlev Hrg.
  assert (Hlen : length c_idx_dst = length c_idx_src).
  { by rewrite (lookup_comps_length _ _ _ HS), (lookup_comps_length _ _ _ HD). }
  exists (alter (map (shift_kernel c_idx_dst c_idx_src)) lev m_slices).
  exists (alter (map (shift_kernel c_idx_src c_idx_dst)) lev
            (alter (map (shift_kernel c_idx_dst c_idx_src)) lev m_slices)).
  exists (map (shift_kernel c_idx_src c_idx_dst)
            (map (shift_kernel c_idx_dst c_idx_src) mfab)).
  unfold shift. rewrite HS, HD.
  split; [reflexivity |]. split; [reflexivity |]. split.
  { rewrite !list_lookup_alter, Hlev.
    destruct (decide (lev = lev)) as [_|Hne]; [reflexivity | by destruct Hne]. }
  destruct (contents_round_trip c_idx_dst c_idx_src mfab Hlen Hnd Hrg) as [H1 H2].
  split; [exact H1 |]. split; [exact H2 |].
  intros l Hl. by rewrite !list_lookup_alter_ne.
Qed.

Lemma shift_round_trip_copies_witness :
  exists s1 s2 mfab2,
    shift demo_shift_Comps 0 WhichSlice.Previous WhichSlice.This ["Bx"; "By"] demo_slices
      = Returned s1
    /\ shift demo_shift_Comps 0 WhichSlice.This WhichSlice.Previous ["Bx"; "By"] s1
      = Returned s2
    /\ s2 !! 0 = Some mfab2
    /\ contents [0; 1]%Z mfab2 = contents [0; 1]%Z [[7; 8; 9; 5; 6]%Q; [17; 18; 19; 15; 16]%Q]
    /\ contents [3; 4]%Z mfab2 = contents [0; 1]%Z [[7; 8; 9; 5; 6]%Q; [17; 18; 19; 15; 16]%Q]
    /\ forall l, l ≠ 0 -> s2 !! l = demo_slices !! l.
Proof.
  apply (shift_round_trip_copies demo_shift_Comps 0 WhichSlice.Previous WhichSlice.This
           ["Bx"; "By"] demo_slices [0; 1]%Z [3; 4]%Z
           [[7; 8; 9; 5; 6]%Q; [17; 18; 19; 15; 16]%Q]).
  - reflexivity.
  - reflexivity.
  - apply (bool_decide_unpack _). vm_compute. exact I.
  - reflexivity.
  - repeat (apply Forall_cons; split); try apply Forall_nil; simpl; lia.
Defined.

(** C5 (as the specification words it) fails: after the round trip the
    destination role holds the values of the source role, not its own
    original ones. *)
Lemma shift_round_trip_counterexample :
  ~ round_trip_restores demo_shift_Comps 0 WhichSlice.Previous WhichSlice.This
      ["Bx"] demo_slices.
Proof.
  intros H.
  destruct (H [0]%Z [3]%Z
              [[[7; 8; 9; 7; 6]%Q; [17; 18; 19; 17; 16]%Q]]
              [[[7; 8; 9; 7; 6]%Q; [17; 18; 19; 17; 16]%Q]]
              [[7; 8; 9; 5; 6]%Q; [17; 18; 19; 15; 16]%Q]
              [[7; 8; 9; 7; 6]%Q; [17; 18; 19; 17; 16]%Q]
              eq_refl eq_refl eq_refl eq_refl eq_refl eq_refl) as [_ Hdst].
  vm_compute in Hdst. discriminate Hdst.
Qed.

(** ** The narrowing overloads of [fillWithParser] *)

Example float_max_is_binary32_max :
  float_max = binary_normalize 53 1024 (2 ^ 24 - 1) 104 false
  /\ valid_binary 53 1024 float_max = true
  /\ static_cast_float float_max = S754_finite false (2 ^ 24 - 1) 104
  /\ SFmax_float 24 128 = S754_finite false (2 ^ 24 - 1) 104.
Proof. vm_compute. auto. Qed.

Section NarrowingProperties.

Lemma digits2_pos_bounds (m : positive) :
  (2 ^ (Zpos (digits2_pos m) - 1) <= Zpos m < 2 ^ Zpos (digits2_pos m))%Z.
Proof.
  induction m as [m IH|m IH|]; simpl digits2_pos.
  - rewrite Pos2Z.inj_succ.
    replace (Z.succ (Zpos (digits2_pos m)) - 1)%Z with (Z.succ (Zpos (digits2_pos m) - 1))%Z by lia.
    rewrite !Z.pow_succ_r by lia. lia.
  - rewrite Pos2Z.inj_succ.
    replace (Z.succ (Zpos (digits2_pos m)) - 1)%Z with (Z.succ (Zpos (digits2_pos m) - 1))%Z by lia.
    rewrite !Z.pow_succ_r by lia. lia.
  - simpl. lia.
Qed.

(** What being a binary64 datum says about mantissa and exponent. *)
Lemma bounded_binary64 (m : positive) (e : Z) :
  bounded 53 1024 m e = true ->
  (-1074 <= e <= 971)%Z /\ (Zpos m < 2 ^ 53)%Z
  /\ ((-1074 < e)%Z -> (2 ^ 52 <= Zpos m)%Z).
Proof.
  unfold bounded, canonical_mantissa, fexp, emin.
  rewrite andb_true_iff, Z.eqb_eq, Z.leb_le. intros [Hc He].
  pose proof (digits2_pos_bounds m) as [Hlo Hhi].
  set (d := Zpos (digits2_pos m)) in *.
  assert (Hd : (d <= 53)%Z) by lia.
  split; [lia |]. split.
  - apply Z.lt_le_trans with (2 ^ d)%Z; [exact Hhi |].
    apply Z.pow_le_mono_r; lia.
  - intros Hgt. assert (d = 53)%Z by lia.
    replace (2 ^ 52)%Z with (2 ^ (d - 1))%Z by (f_equal; lia). exact Hlo.
Qed.

Lemma float_max_Z_facts :
  ((2 ^ 24 - 1) * 2 ^ 104 = 9007198717870080 * 2 ^ 75
   /\ 2 ^ 53 * 2 ^ 74 <= (2 ^ 24 - 1) * 2 ^ 104
   /\ (2 ^ 24 - 1) * 2 ^ 104 < 2 ^ 52 * 2 ^ 76
   /\ 2 ^ 53 <= (2 ^ 24 - 1) * 2 ^ 104
   /\ 0 < 2 ^ 75)%Z.
Proof.
  split; [vm_compute; reflexivity |].
  split; [apply Z.leb_le; vm_compute; reflexivity |].
  split; [apply Z.ltb_lt; vm_compute; reflexivity |].
  split; [apply Z.leb_le; vm_compute; reflexivity |].
  apply Z.ltb_lt; vm_compute; reflexivity.
Qed.

Lemma mag_le_float_max (m : positive) (e : Z) :
  bounded 53 1024 m e = true ->
  (mag m e <= float_max_Q)%Q
  <-> match (e ?= 75)%Z with
      | Eq => (Zpos m <= 9007198717870080)%Z
      | Lt => True
      | Gt => False
      end.
Proof.
  intros Hb. apply bounded_binary64 in Hb as (He & Hm & Hnorm).
  destruct float_max_Z_facts as (HF1 & HF2 & HF3 & HF4 & HF5).
  unfold float_max_Q, mag.
  set (F := ((2 ^ 24 - 1) * 2 ^ 104)%Z) in *.
  set (P53 := (2 ^ 53)%Z) in *. set (P52 := (2 ^ 52)%Z) in *.
  destruct (Z.compare_spec e 75) as [->|Hlt|Hgt].
  - rewrite <- Zle_Qle. rewrite HF1.
    set (P75 := (2 ^ 75)%Z) in *. clearbody P75 F P53 P52.
    split; intros H.
    + apply Z.mul_le_mono_pos_r in H; [exact H | exact HF5].
    + apply Z.mul_le_mono_pos_r; [exact HF5 | exact H].
  - split; [trivial | intros _].
    destruct e as [|p|p].
    + rewrite <- Zle_Qle. rewrite Z.pow_0_r, Z.mul_1_r. clearbody F P53 P52. lia.
    + rewrite <- Zle_Qle.
      apply Z.le_trans with (P53 * 2 ^ 74)%Z; [| exact HF2].
      assert (Hp : (2 ^ Zpos p <= 2 ^ 74)%Z) by (apply Z.pow_le_mono_r; lia).
      assert (Hp0 : (0 <= 2 ^ Zpos p)%Z) by (apply Z.pow_nonneg; lia).
      clearbody F P53 P52.
      apply Z.mul_le_mono_nonneg; lia.
    + unfold Qle. cbn [Qnum Qden inject_Z]. rewrite Z.mul_1_r.
      pose proof (Pos2Z.is_pos (2 ^ p)) as Hp.
      apply Z.le_trans with (F * 1)%Z; [clearbody F P53 P52; lia |].
      apply Z.mul_le_mono_nonneg_l; [clearbody F P53 P52; lia | lia].
  - split; [| intros []]. intros H.
    assert (Hm52 : (P52 <= Zpos m)%Z) by (apply Hnorm; lia).
    destruct e as [|p|p]; try lia.
    rewrite <- Zle_Qle in H.
    assert (Hp : (2 ^ 76 <= 2 ^ Zpos p)%Z) by (apply Z.pow_le_mono_r; lia).
    assert (Hp0 : (0 <= 2 ^ 76)%Z) by (apply Z.pow_nonneg; lia).
    assert (Hlow : (P52 * 2 ^ 76 <= Zpos m * 2 ^ Zpos p)%Z).
    { assert (0 <= P52)%Z by (apply Z.pow_nonneg; lia).
      clearbody F P53 P52. apply Z.mul_le_mono_nonneg; lia. }
    clearbody F P53 P52. lia.
Qed.

Lemma SFleb_float_max (m : positive) (e : Z) :
  SFleb (S754_finite false m e) float_max
  = match (e ?= 75)%Z with
    | Eq => (Zpos m <=? 9007198717870080)%Z
    | Lt => true
    | Gt => false
    end.
Proof.
  unfold SFleb, SFcompare, float_max.
  destruct (e ?= 75)%Z; [| reflexivity | reflexivity].
  unfold Z.leb. rewrite <- Pos2Z.inj_compare. unfold Pos.compare.
  destruct (Pos.compare_cont Eq m 9007198717870080); reflexivity.
Qed.

Lemma SFleb_float_lowest (m : positive) (e : Z) :
  SFleb float_lowest (S754_finite true m e)
  = match (e ?= 75)%Z with
    | Eq => (Zpos m <=? 9007198717870080)%Z
    | Lt => true
    | Gt => false
    end.
Proof.
  unfold SFleb, SFcompare, float_lowest.
  rewrite (Z.compare_antisym e 75).
  destruct (e ?= 75)%Z; [| reflexivity | reflexivity].
  cbn [CompOpp].
  unfold Z.leb. rewrite <- Pos2Z.inj_compare.
  rewrite (Pos.compare_antisym 9007198717870080 m). unfold Pos.compare.
  destruct (Pos.compare_cont Eq 9007198717870080 m); reflexivity.
Qed.

Lemma mag_pos (m : positive) (e : Z) : (0 < mag m e)%Q.
Proof.
  unfold mag. destruct e as [|p|p].
  - change 0%Q with (inject_Z 0). rewrite <- Zlt_Qlt. rewrite Z.pow_0_r. lia.
  - change 0%Q with (inject_Z 0). rewrite <- Zlt_Qlt. apply Z.mul_pos_pos; [lia |].
    apply Z.pow_pos_nonneg; lia.
  - unfold Qlt. cbn [Qnum Qden]. lia.
Qed.

Lemma neg_value_mag (m : positive) (e : Z) :
  (match e with
   | Zneg p => Zneg m # 2 ^ p
   | _ => inject_Z (Zneg m * 2 ^ e)
   end == - mag m e)%Q.
Proof.
  unfold mag. destruct e as [|p|p].
  - rewrite <- inject_Z_opp. apply inject_Z_injective. lia.
  - rewrite <- inject_Z_opp. apply inject_Z_injective.
    rewrite <- Z.mul_opp_l. reflexivity.
  - reflexivity.
Qed.

(** On a finite binary64 datum the two comparisons of the assertion say
    that its value is in [[-float_max, float_max]]. *)
Lemma in_float_range_iff (v : spec_float) (q : Q) :
  valid_binary 53 1024 v = true -> SF2Q v = Some q ->
  SFleb v float_max && SFleb float_lowest v = true
  <-> (- float_max_Q <= q <= float_max_Q)%Q.
Proof.
  intros Hv Hq.
  assert (HF : (0 < float_max_Q)%Q) by (vm_compute; reflexivity).
  destruct v as [s| |  |s m e]; cbn [SF2Q] in Hq; try discriminate.
  - injection Hq as <-. split; [intros _; split; lra |].
    intros _. destruct s; reflexivity.
  - cbn [valid_binary] in Hv. injection Hq as <-.
    pose proof (mag_le_float_max m e Hv) as Hmag.
    pose proof (mag_pos m e) as Hpos.
    destruct s.
    + rewrite (neg_value_mag m e). rewrite SFleb_float_lowest.
      replace (SFleb (S754_finite true m e) float_max) with true by reflexivity.
      cbn [andb]. revert Hmag. destruct (e ?= 75)%Z; intros Hmag.
      * rewrite Z.leb_le, <- Hmag. split; intros H; [split; lra | lra].
      * split; [intros _; split; lra | reflexivity].
      * split; [discriminate | intros [H _]; exfalso; apply Hmag; lra].
    + fold (mag m e). rewrite SFleb_float_max.
      replace (SFleb float_lowest (S754_finite false m e)) with true by reflexivity.
      rewrite andb_true_r. revert Hmag. destruct (e ?= 75)%Z; intros Hmag.
      * rewrite Z.leb_le, <- Hmag. split; intros H; [split; lra | lra].
      * split; [intros _; split; lra | reflexivity].
      * split; [discriminate | intros [_ H]; exfalso; apply Hmag; lra].
Qed.

Lemma static_cast_int_in_range (v : Z) :
  (int_lowest <= v <= int_max)%Z -> static_cast_int v = v.
Proof.
  unfold int_lowest, int_max, static_cast_int. intros H.
  rewrite Z.mod_small; lia.
Qed.

End NarrowingProperties.

(** C8. A parsed value outside the range of the narrower type ends the run
    with the overflow message of that type; a value within the range is
    stored after the cast ([static_cast<int>] of an in-range value is the
    value itself) and no error is raised.  For [double] to [float] the value
    is any finite binary64 datum and the range is
    [[-float_max, float_max]]. *)
Theorem narrowing_overflow_is_fatal (pp : ParmParse) (str : string) :
  (forall v : Z, makeIParser pp str = Returned v ->
     ((int_lowest <= v <= int_max)%Z -> fillWithParser_int pp str = Returned v)
     /\ ((v < int_lowest \/ int_max < v)%Z ->
         fillWithParser_int pp str = Aborted int_overflow_text))
  /\ (forall (v : spec_float) (q : Q),
        makeParser pp str = Returned v ->
        valid_binary 53 1024 v = true -> SF2Q v = Some q ->
        ((- float_max_Q <= q <= float_max_Q)%Q ->
           fillWithParser_float pp str = Returned (static_cast_float v))
        /\ ((q < - float_max_Q \/ float_max_Q < q)%Q ->
            fillWithParser_float pp str = Aborted float_overflow_text)).
Proof.
  split.
  - intros v Hv. unfold fillWithParser_int. rewrite Hv. split; intros H.
    + replace ((v <=? int_max)%Z && (v >=? int_lowest)%Z) with true
        by (symmetry; apply andb_true_iff; split; [apply Z.leb_le | apply Z.geb_le]; lia).
      by rewrite static_cast_int_in_range.
    + replace ((v <=? int_max)%Z && (v >=? int_lowest)%Z) with false; [reflexivity |].
      symmetry. apply andb_false_iff.
      destruct H as [H|H]; [right | left].
      * destruct (v >=? int_lowest)%Z eqn:E; [| reflexivity].
        apply Z.geb_le in E. lia.
      * apply Z.leb_gt. exact H.
  - intros v q Hv Hvalid Hq. unfold fillWithParser_float. rewrite Hv.
    split; intros H.
    + by rewrite (proj2 (in_float_range_iff v q Hvalid Hq) H).
    + destruct (SFleb v float_max && SFleb float_lowest v) eqn:E; [| reflexivity].
      apply (proj1 (in_float_range_iff v q Hvalid Hq)) in E.
      exfalso. destruct H; lra.
Qed.

Lemma narrowing_overflow_is_fatal_witness :
  fillWithParser_int (demo_pp (S754_finite false 6755399441055744 (-52)) 42) "n" = Returned 42%Z
  /\ fillWithParser_float (demo_pp (S754_finite false 6755399441055744 (-52)) 42) "x"
     = Returned (S754_finite false 12582912 (-23))
  /\ fillWithParser_int (demo_pp (S754_finite false 4503599627370496 76) (2 ^ 31)) "n"
     = Aborted int_overflow_text
  /\ fillWithParser_float (demo_pp (S754_finite false 4503599627370496 76) (2 ^ 31)) "x"
     = Aborted float_overflow_text.
Proof.
  destruct (narrowing_overflow_is_fatal
              (demo_pp (S754_finite false 6755399441055744 (-52)) 42) "n") as [Hi _].
  destruct (narrowing_overflow_is_fatal
              (demo_pp (S754_finite false 6755399441055744 (-52)) 42) "x") as [_ Hf].
  destruct (narrowing_overflow_is_fatal
              (demo_pp (S754_finite false 4503599627370496 76) (2 ^ 31)) "n") as [Hi' _].
  destruct (narrowing_overflow_is_fatal
              (demo_pp (S754_finite false 4503599627370496 76) (2 ^ 31)) "x") as [_ Hf'].
  split.
  { apply (Hi 42%Z eq_refl). unfold int_lowest, int_max. lia. }
  split.
  { apply (Hf (S754_finite false 6755399441055744 (-52)) (6755399441055744 # 2 ^ 52)%Q
             eq_refl eq_refl eq_refl).
    split; vm_compute; discriminate. }
  split.
  { apply (Hi' (2 ^ 31)%Z eq_refl). right. unfold int_max. lia. }
  apply (Hf' (S754_finite false 4503599627370496 76)
           (inject_Z (4503599627370496 * 2 ^ 76)) eq_refl eq_refl eq_refl).
  right. vm_compute. reflexivity.
Defined.

(** ** The predictor-corrector loop and the adaptive time step, as specified *)

Section PredictorCorrectorProperties.
Variable solve : Bfield -> Bfield.
Variable rel_error : Bfield -> Bfield -> Q.
Variables tolerance mixing_factor : Q.

(** As long as no discrepancy is below the tolerance, the loop uses all its
    iterations. *)
Lemma predcorr_iterate_exhausts (todo i_iter : nat) (B : Bfield) (err : Q) :
  (forall k, k < todo ->
     ~ (predcorr_error_at solve rel_error mixing_factor B k < tolerance)%Q) ->
  predcorr_iterate solve rel_error tolerance mixing_factor todo i_iter B err
  = (Nat.iter todo (predcorr_step solve mixing_factor) B,
     todo + i_iter,
     match todo with
     | 0 => err
     | S k => predcorr_error_at solve rel_error mixing_factor B k
     end).
Proof.
  revert i_iter B err. induction todo as [|todo IH]; intros i_iter B err Hno.
  - reflexivity.
  - cbn [predcorr_iterate].
    assert (H0 : Rlt (rel_error (solve B) B) tolerance = false).
    { apply not_true_is_false. intros Ht. apply Rlt_true in Ht.
      apply (Hno 0); [lia | exact Ht]. }
    rewrite H0.
    change (mix_B mixing_factor (solve B) B) with (predcorr_step solve mixing_factor B).
    rewrite IH.
    + rewrite <- Nat.iter_succ_r.
      f_equal; [f_equal; lia |].
      destruct todo as [|k]; [reflexivity |].
      unfold predcorr_error_at. by rewrite <- Nat.iter_succ_r.
    + intros k Hk Hlt. apply (Hno (S k)); [lia |].
      unfold predcorr_error_at in *. by rewrite Nat.iter_succ_r.
Qed.

(** The loop never does more than the iterations it was given. *)
Lemma predcorr_iterate_count (todo i_iter : nat) (B : Bfield) (err : Q) :
  (predcorr_iterate solve rel_error tolerance mixing_factor todo i_iter B err).1.2
  <= todo + i_iter.
Proof.
  revert i_iter B err. induction todo as [|todo IH]; intros i_iter B err.
  - simpl. lia.
  - cbn [predcorr_iterate].
    destruct (Rlt (rel_error (solve B) B) tolerance); [simpl; lia |].
    etransitivity; [apply IH | lia].
Qed.
End PredictorCorrectorProperties.

(** C6 (on the loop as the specification describes it).  When no iteration
    up to the maximum count measures a discrepancy below the tolerance, the
    loop returns: the field is the one after [m_predcorr_max_iterations]
    iterations, the iteration count is added to [m_predcorr_avg_iterations]
    and the last discrepancy to [m_predcorr_avg_B_error]. *)
Theorem predcorr_cap_is_not_fatal
    (solve : Bfield -> Bfield) (rel_error : Bfield -> Bfield -> Q)
    (h : Hipace) (B_guess : Bfield) (last : nat) :
  m_predcorr_max_iterations h = S last ->
  (forall k, k < m_predcorr_max_iterations h ->
     ~ (predcorr_error_at solve rel_error (m_predcorr_B_mixing_factor h) B_guess k
        < m_predcorr_B_error_tolerance h)%Q) ->
  exists h' B,
    PredictorCorrectorLoopToSolveBxBy solve rel_error h B_guess = Returned (h', B)
    /\ B = Nat.iter (m_predcorr_max_iterations h)
             (predcorr_step solve (m_predcorr_B_mixing_factor h)) B_guess
    /\ m_predcorr_avg_iterations h'
       = (m_predcorr_avg_iterations h
          + inject_Z (Z.of_nat (m_predcorr_max_iterations h)))%Q
    /\ m_predcorr_avg_B_error h'
       = (m_predcorr_avg_B_error h
          + predcorr_error_at solve rel_error (m_predcorr_B_mixing_factor h) B_guess last)%Q.
Proof.
  intros Hmax Hno. unfold PredictorCorrectorLoopToSolveBxBy.
  rewrite (predcorr_iterate_exhausts solve rel_error _ _ _ 0 B_guess 1 Hno).
  rewrite Hmax. eexists _, _. split; [reflexivity |].
  cbn [m_predcorr_avg_iterations m_predcorr_avg_B_error].
  rewrite Nat.add_0_r. split; [reflexivity |]. split; reflexivity.
Qed.

Lemma predcorr_cap_is_not_fatal_witness :
  exists h' B,
    PredictorCorrectorLoopToSolveBxBy demo_solve demo_rel_error Hipace_initial [1%Q]
    = Returned (h', B)
    /\ B = Nat.iter 30 (predcorr_step demo_solve (5 # 100)) [1%Q]
    /\ m_predcorr_avg_iterations h' = (0 + inject_Z 30)%Q
    /\ m_predcorr_avg_B_error h' = (0 + 1)%Q.
Proof.
  apply (predcorr_cap_is_not_fatal demo_solve demo_rel_error Hipace_initial [1%Q] 29).
  - reflexivity.
  - intros k _. unfold predcorr_error_at, demo_rel_error. simpl.
    intros H. discriminate H.
Defined.

(** C7 (on the step as the specification describes it).  The step never
    exceeds [m_dt_max], and for a slowest momentum at or below
    [m_threshold_uz] it is the step at the threshold: it does not decrease any
    further. *)
Theorem adaptive_dt_bounded (ats : AdaptiveTimeStep) (betatron_period : Q -> Q)
    (min_uz : Q) :
  Proper (Qeq ==> Qeq) betatron_period ->
  (forall M, m_dt_max ats = Some M ->
     (CalculateFromMinUz ats betatron_period min_uz <= M)%Q)
  /\ ((min_uz <= m_threshold_uz ats)%Q ->
      (CalculateFromMinUz ats betatron_period min_uz
       == CalculateFromMinUz ats betatron_period (m_threshold_uz ats))%Q).
Proof.
  intros Hproper. split.
  - intros M HM. unfold CalculateFromMinUz, cap_dt. rewrite HM. apply Q.le_min_r.
  - intros Hle. unfold CalculateFromMinUz.
    assert (Hbp : (betatron_period (Qmax min_uz (m_threshold_uz ats))
                   == betatron_period (Qmax (m_threshold_uz ats) (m_threshold_uz ats)))%Q).
    { apply Hproper. rewrite Q.max_id. by apply Q.max_r. }
    unfold cap_dt. destruct (m_dt_max ats) as [M|].
    + apply Q.min_compat; [| reflexivity]. by rewrite Hbp.
    + by rewrite Hbp.
Qed.

Lemma adaptive_dt_bounded_witness :
  (CalculateFromMinUz demo_ats demo_period 1 <= 3)%Q
  /\ (CalculateFromMinUz demo_ats demo_period 1
      == CalculateFromMinUz demo_ats demo_period 2)%Q.
Proof.
  assert (Hp : Proper (Qeq ==> Qeq) demo_period).
  { intros a b Hab. unfold demo_period. by rewrite Hab. }
  split.
  - apply (proj1 (adaptive_dt_bounded demo_ats demo_period 1 Hp) 3%Q eq_refl).
  - apply (proj2 (adaptive_dt_bounded demo_ats demo_period 1 Hp)).
    simpl. discriminate.
Defined.

(** ** The string overload of [fillWithParser] *)

Example substitution_example : fillWithParser_string 10 demo_table_pp demo_show ∅ "out/{name}.h5" true
  = Some (Returned ("out/run_7.h5", ∅)).
Proof. vm_compute. reflexivity. Qed.

Example cycle_example : fillWithParser_string 10 demo_cyclic_pp demo_show ∅ "{a}" true
  = Some (Aborted (recursive_symbol_text "x{ a }" "a")).
Proof. vm_compute. reflexivity. Qed.

Example escape_example : fillWithParser_string 10 demo_table_pp demo_show ∅ "a{{b}}c{ 1+1 }{ }" true
  = Some (Returned ("a{b}c1", ∅)).
Proof. vm_compute. reflexivity. Qed.

Example unclosed_example : fillWithParser_string 10 demo_table_pp demo_show ∅ "a{b" true
  = Some (Aborted (unclosed_brace_text "a{b")).
Proof. vm_compute. reflexivity. Qed.

Section StringProperties.

Lemma string_app_cons (c : ascii) (a b : string) :
  String c a +:+ b = String c (a +:+ b).
Proof. reflexivity. Qed.

Lemma take_drop_str (n : nat) (s : string) : take_str n s +:+ drop_str n s = s.
Proof.
  revert s. induction n as [|n IH]; intros [|c s]; try reflexivity.
  cbn [take_str drop_str]. rewrite string_app_cons. by rewrite IH.
Qed.

Lemma drop_str_add (a b : nat) (s : string) :
  drop_str (a + b) s = drop_str b (drop_str a s).
Proof.
  revert s. induction a as [|a IH]; intros s; [reflexivity |].
  destruct s as [|c s]; cbn [Nat.add drop_str].
  - by destruct b.
  - apply IH.
Qed.

Lemma string_length_app (a b : string) :
  String.length (a +:+ b) = String.length a + String.length b.
Proof.
  induction a as [|c a IH]; [reflexivity |].
  rewrite string_app_cons. cbn [String.length]. by rewrite IH.
Qed.

Lemma count_char_app (c : ascii) (a b : string) :
  count_char c (a +:+ b) = count_char c a + count_char c b.
Proof.
  induction a as [|c' a IH]; [reflexivity |].
  rewrite string_app_cons. cbn [count_char]. rewrite IH. lia.
Qed.

Lemma count_char_drop_le (c : ascii) (n : nat) (s : string) :
  count_char c (drop_str n s) <= count_char c s.
Proof.
  revert s. induction n as [|n IH]; intros [|c' s]; cbn [drop_str count_char]; try lia.
  specialize (IH s). lia.
Qed.

Lemma count_char_le_length (c : ascii) (s : string) :
  count_char c s <= String.length s.
Proof.
  induction s as [|c' s IH]; cbn [count_char String.length]; [lia |].
  destruct (Ascii.eqb c' c); lia.
Qed.

(** A prefix test that succeeds splits the string. *)
Lemma prefix_split (pat s : string) :
  String.prefix pat s = true -> s = pat +:+ drop_str (String.length pat) s.
Proof.
  revert s. induction pat as [|c pat IH]; intros s H.
  - by destruct s.
  - destruct s as [|c' s]; [discriminate |]. cbn [String.prefix] in H.
    destruct (ascii_dec c c') as [->|Hne]; [| discriminate].
    rewrite string_app_cons. cbn [String.length drop_str]. f_equal. by apply IH.
Qed.

(** [find] and [rfind] point at an occurrence of the pattern. *)
Lemma find0_split (pat s : string) (pos : nat) :
  find0 pat s = Some pos ->
  s = take_str pos s +:+ pat +:+ drop_str (pos + String.length pat) s.
Proof.
  revert pos. induction s as [|c s IH]; intros pos; cbn [find0].
  - destruct (String.prefix pat EmptyString) eqn:Hp; [| discriminate].
    intros [= <-]. by apply prefix_split.
  - destruct (String.prefix pat (String c s)) eqn:Hp.
    + intros [= <-]. by apply prefix_split.
    + destruct (find0 pat s) as [i|] eqn:Hf; simpl; [| discriminate].
      intros [= <-]. cbn [take_str Nat.add drop_str].
      rewrite string_app_cons. f_equal. by apply IH.
Qed.

Lemma rfind_split (pat s : string) (pos : nat) :
  rfind pat s = Some pos ->
  s = take_str pos s +:+ pat +:+ drop_str (pos + String.length pat) s.
Proof.
  revert pos. induction s as [|c s IH]; intros pos; cbn [rfind]; [discriminate |].
  destruct (rfind pat s) as [i|] eqn:Hf.
  - intros [= <-]. cbn [take_str Nat.add drop_str].
    rewrite string_app_cons. f_equal. by apply IH.
  - destruct (String.prefix pat (String c s)) eqn:Hp; [| discriminate].
    intros [= <-]. by apply prefix_split.
Qed.

Lemma find_from_ge (pat s : string) (pos i : nat) :
  find_from pat s pos = Some i -> pos <= i.
Proof.
  revert s i. induction pos as [|pos IH]; intros s i; [lia |].
  destruct s as [|c s]; [discriminate |].
  change (find_from pat (String c s) (S pos)) with (S <$> find_from pat s pos).
  destruct (find_from pat s pos) as [j|] eqn:Hf; simpl; [| discriminate].
  intros [= <-]. specialize (IH s j Hf). lia.
Qed.

(** Without an occurrence of a one-character pattern the character does
    not occur. *)
Lemma prefix_char (c c' : ascii) (s : string) :
  String.prefix (String c EmptyString) (String c' s) = Ascii.eqb c' c.
Proof.
  cbn [String.prefix]. destruct (ascii_dec c c') as [->|Hne].
  - rewrite Ascii.eqb_refl. by destruct s.
  - symmetry. apply Ascii.eqb_neq. congruence.
Qed.

Lemma rfind_char_none (c : ascii) (s : string) :
  rfind (String c EmptyString) s = None -> count_char c s = 0.
Proof.
  induction s as [|c' s IH]; [reflexivity |]. cbn [rfind count_char].
  destruct (rfind (String c EmptyString) s); [discriminate |].
  rewrite prefix_char. destruct (Ascii.eqb c' c); [discriminate |].
  intros _. by rewrite IH.
Qed.

Lemma find0_char_none (c : ascii) (s : string) :
  find0 (String c EmptyString) s = None -> count_char c s = 0.
Proof.
  induction s as [|c' s IH]; [reflexivity |]. cbn [find0 count_char].
  rewrite prefix_char. destruct (Ascii.eqb c' c); [discriminate |].
  destruct (find0 (String c EmptyString) s); simpl; [discriminate |].
  intros _. by rewrite IH.
Qed.

(** What a replacement does to the length and to the number of
    occurrences of a character. *)
Lemma replace_str_measure (mu : string -> nat) (s pat new : string) (pos : nat) :
  (forall a b, mu (a +:+ b) = mu a + mu b) ->
  s = take_str pos s +:+ pat +:+ drop_str (pos + String.length pat) s ->
  mu (replace_str s pos (String.length pat) new) + mu pat = mu s + mu new.
Proof.
  intros Hmu Hs. unfold replace_str. rewrite Hs at 3.
  rewrite !Hmu. lia.
Qed.

End StringProperties.

Section SimpleLoops.
Variables pat new : string.

(** More fuel never changes a result. *)
Lemma replace_all_find_mono (f f' : nat) (s r : string) :
  f <= f' -> replace_all_find f pat new s = Some r ->
  replace_all_find f' pat new s = Some r.
Proof.
  revert f' s. induction f as [|f IH]; intros f' s Hle.
  - cbn [replace_all_find]. destruct f'; cbn [replace_all_find];
      destruct (find0 pat s); congruence.
  - destruct f' as [|f']; [lia |]. cbn [replace_all_find].
    destruct (find0 pat s); [| congruence]. apply IH. lia.
Qed.

Lemma replace_all_rfind_mono (f f' : nat) (s r : string) :
  f <= f' -> replace_all_rfind f pat new s = Some r ->
  replace_all_rfind f' pat new s = Some r.
Proof.
  revert f' s. induction f as [|f IH]; intros f' s Hle.
  - cbn [replace_all_rfind]. destruct f'; cbn [replace_all_rfind];
      destruct (rfind pat s); congruence.
  - destruct f' as [|f']; [lia |]. cbn [replace_all_rfind].
    destruct (rfind pat s); [| congruence]. apply IH. lia.
Qed.

(** A loop whose every replacement lowers a measure ends within as many
    rounds as the measure says. *)
Lemma replace_all_find_ends (mu : string -> nat) :
  (forall s pos, find0 pat s = Some pos ->
     mu (replace_str s pos (String.length pat) new) < mu s) ->
  forall f s, mu s <= f -> exists r, replace_all_find f pat new s = Some r.
Proof.
  intros Hdec f. induction f as [|f IH]; intros s Hle; cbn [replace_all_find].
  - destruct (find0 pat s) as [pos|] eqn:Hf; [| by eexists].
    specialize (Hdec s pos Hf). lia.
  - destruct (find0 pat s) as [pos|] eqn:Hf; [| by eexists].
    apply IH. specialize (Hdec s pos Hf). lia.
Qed.

Lemma replace_all_rfind_ends (mu : string -> nat) :
  (forall s pos, rfind pat s = Some pos ->
     mu (replace_str s pos (String.length pat) new) < mu s) ->
  forall f s, mu s <= f -> exists r, replace_all_rfind f pat new s = Some r.
Proof.
  intros Hdec f. induction f as [|f IH]; intros s Hle; cbn [replace_all_rfind].
  - destruct (rfind pat s) as [pos|] eqn:Hf; [| by eexists].
    specialize (Hdec s pos Hf). lia.
  - destruct (rfind pat s) as [pos|] eqn:Hf; [| by eexists].
    apply IH. specialize (Hdec s pos Hf). lia.
Qed.
End SimpleLoops.

(** The four loops of the string overload end. *)
Lemma escape_open_ends (s : string) :
  exists r, replace_all_find (String.length s) "{{" char1 s = Some r.
Proof.
  apply (replace_all_find_ends "{{" char1 String.length); [| lia].
  intros s' pos Hf. apply find0_split in Hf.
  pose proof (replace_str_measure String.length s' "{{" char1 pos string_length_app Hf) as H.
  cbn [String.length char1] in H. cbn [String.length]. lia.
Qed.

Lemma escape_close_ends (s : string) :
  exists r, replace_all_rfind (String.length s) "}}" char2 s = Some r.
Proof.
  apply (replace_all_rfind_ends "}}" char2 String.length); [| lia].
  intros s' pos Hf. apply rfind_split in Hf.
  pose proof (replace_str_measure String.length s' "}}" char2 pos string_length_app Hf) as H.
  cbn [String.length char2] in H. cbn [String.length]. lia.
Qed.

Lemma unescape_open_ends (s : string) :
  exists r, replace_all_find (String.length s) char1 "{" s = Some r.
Proof.
  apply (replace_all_find_ends char1 "{" (count_char (ascii_of_nat 1)));
    [| apply count_char_le_length].
  intros s' pos Hf. apply find0_split in Hf.
  pose proof (replace_str_measure (count_char (ascii_of_nat 1)) s' char1 "{" pos
                (count_char_app _) Hf) as H.
  change (count_char (ascii_of_nat 1) char1) with 1 in H.
  change (count_char (ascii_of_nat 1) "{") with 0 in H.
  change (String.length char1) with 1 in *. lia.
Qed.

Lemma unescape_close_ends (s : string) :
  exists r, replace_all_rfind (String.length s) char2 "}" s = Some r.
Proof.
  apply (replace_all_rfind_ends char2 "}" (count_char (ascii_of_nat 2)));
    [| apply count_char_le_length].
  intros s' pos Hf. apply rfind_split in Hf.
  pose proof (replace_str_measure (count_char (ascii_of_nat 2)) s' char2 "}" pos
                (count_char_app _) Hf) as H.
  change (count_char (ascii_of_nat 2) char2) with 1 in H.
  change (count_char (ascii_of_nat 2) "}") with 0 in H.
  change (String.length char2) with 1 in *. lia.
Qed.

(** One round of the brace loop takes an opening brace away. *)
Lemma brace_round_decreases (s r : string) (pos pos_end : nat) :
  rfind "{" s = Some pos -> pos <= pos_end -> count_char "{" r = 0 ->
  count_char "{" (replace_str s pos (pos_end - pos + 1) r) < count_char "{" s.
Proof.
  intros Hr Hle Hfree. apply rfind_split in Hr.
  change (String.length "{") with 1 in Hr.
  unfold replace_str. rewrite !count_char_app, Hfree.
  rewrite Hr at 3. rewrite !count_char_app.
  change (count_char "{" "{") with 1.
  replace (pos + (pos_end - pos + 1)) with ((pos + 1) + (pos_end - pos)) by lia.
  rewrite (drop_str_add (pos + 1)).
  pose proof (count_char_drop_le "{" (pos_end - pos) (drop_str (pos + 1) s)). lia.
Qed.

Section BraceLoop.
Variable pp : ParmParse.
Variable show_double : spec_float -> string.

Lemma brace_loop_mono (str : string)
    (rec rec' : gset string -> string -> looping (string * gset string)) :
  (forall rs s r, rec rs s = Some r -> rec' rs s = Some r) ->
  forall n n' rs loc r, n <= n' ->
    brace_loop n rec pp show_double str rs loc = Some r ->
    brace_loop n' rec' pp show_double str rs loc = Some r.
Proof.
  intros Hrec n. induction n as [|n IH]; intros n' rs loc r Hle.
  - destruct n'; cbn [brace_loop]; destruct (rfind "{" loc); congruence.
  - destruct n' as [|n']; [lia |]. cbn [brace_loop].
    destruct (rfind "{" loc) as [pos|]; [| congruence].
    destruct (find_from "}" loc pos) as [pos_end|]; [| congruence].
    destruct (trim_leading loc (pos + 1) (pos_end - pos - 1)) as [[st ct]|];
      [| congruence].
    destruct (trim_trailing loc st ct) as [ct'|]; [| congruence].
    destruct (Nat.eqb ct' 0); [apply IH; lia |].
    destruct (my_constants pp !! substr loc st ct') as [replacer|].
    + destruct (bool_decide (substr loc st ct' ∈ rs)); [congruence |].
      destruct (rec (rs ∪ {[substr loc st ct']}) replacer) as [[[v rs']|e]|] eqn:Hr;
        [| | discriminate].
      * rewrite (Hrec _ _ _ Hr). apply IH. lia.
      * rewrite (Hrec _ _ _ Hr). congruence.
    + destruct (makeParser pp (substr loc st ct')); [apply IH; lia | congruence].
Qed.

Lemma fillWithParser_string_mono (f f' : nat) (rs : gset string) (str : string)
    (esc : bool) (r : outcome (string * gset string)) :
  f <= f' ->
  fillWithParser_string f pp show_double rs str esc = Some r ->
  fillWithParser_string f' pp show_double rs str esc = Some r.
Proof.
  revert f' rs str esc r. induction f as [|f IH]; intros f' rs str esc r Hle;
    [discriminate |].
  destruct f' as [|f']; [lia |]. cbn [fillWithParser_string].
  destruct (replace_all_find f "{{" char1 str) as [l1|] eqn:H1; [| discriminate].
  rewrite (replace_all_find_mono _ _ f f' str l1 ltac:(lia) H1).
  destruct (replace_all_rfind f "}}" char2 l1) as [l2|] eqn:H2; [| discriminate].
  rewrite (replace_all_rfind_mono _ _ f f' l1 l2 ltac:(lia) H2).
  destruct (brace_loop f _ pp show_double str rs l2) as [rl|] eqn:H3; [| discriminate].
  rewrite (brace_loop_mono str _
             (fun rs0 replacer => fillWithParser_string f' pp show_double rs0 replacer false)
             ltac:(intros rs0 s0 r0; apply IH; lia) f f' rs l2 rl ltac:(lia) H3).
  destruct rl as [[l3 rs']|e]; [| congruence].
  destruct esc; [| congruence].
  destruct (replace_all_find f char1 "{" l3) as [l4|] eqn:H4; [| discriminate].
  rewrite (replace_all_find_mono _ _ f f' l3 l4 ltac:(lia) H4).
  destruct (replace_all_rfind f char2 "}" l4) as [l5|] eqn:H5; [| discriminate].
  rewrite (replace_all_rfind_mono _ _ f f' l4 l5 ltac:(lia) H5).
  congruence.
Qed.
End BraceLoop.

Section BraceLoopEnds.
Variable pp : ParmParse.
Variable show_double : spec_float -> string.
Hypothesis Hshow : brace_free_numbers show_double.

Lemma in_progress_restored (rs : gset string) (sym : string) :
  sym ∉ rs -> (rs ∪ {[sym]}) ∖ {[sym]} = rs.
Proof. intros H. apply set_eq. set_solver. Qed.

(** The brace loop ends when the calls it makes do. *)
Lemma brace_loop_ends (str : string) (rs : gset string)
    (F : nat -> gset string -> string -> looping (string * gset string)) :
  (forall f f' rs0 s r, f <= f' -> F f rs0 s = Some r -> F f' rs0 s = Some r) ->
  (forall sym replacer, sym ∉ rs -> my_constants pp !! sym = Some replacer ->
     exists f r, F f (rs ∪ {[sym]}) replacer = Some r /\ settled (rs ∪ {[sym]}) r) ->
  forall k loc, count_char "{" loc <= k ->
    exists f n r, brace_loop n (F f) pp show_double str rs loc = Some r /\ settled rs r.
Proof.
  intros Hmono Hrec k. induction k as [|k IH]; intros loc Hk.
  - exists 0, 0. cbn [brace_loop].
    destruct (rfind "{" loc) as [pos|] eqn:Hr.
    + exfalso. pose proof (brace_round_decreases loc EmptyString pos pos Hr
                             ltac:(lia) eq_refl). lia.
    + eexists. split; [reflexivity |]. split; [reflexivity | lia].
  - destruct (rfind "{" loc) as [pos|] eqn:Hr.
    2:{ exists 0, 0. cbn [brace_loop]. rewrite Hr. eexists. split; [reflexivity |].
        split; [reflexivity | by apply rfind_char_none]. }
    assert (Hstep : forall pos_end r0, pos <= pos_end -> count_char "{" r0 = 0 ->
              exists f n r,
                brace_loop n (F f) pp show_double str rs
                  (replace_str loc pos (pos_end - pos + 1) r0) = Some r
                /\ settled rs r).
    { intros pos_end r0 Hle H0. apply IH.
      pose proof (brace_round_decreases loc r0 pos pos_end Hr Hle H0). lia. }
    destruct (find_from "}" loc pos) as [pos_end|] eqn:He.
    2:{ exists 0, 1. cbn [brace_loop]. rewrite Hr, He. by eexists. }
    pose proof (find_from_ge _ _ _ _ He) as Hle.
    destruct (trim_leading loc (pos + 1) (pos_end - pos - 1)) as [[st ct]|e] eqn:Ht1.
    2:{ exists 0, 1. cbn [brace_loop]. rewrite Hr, He, Ht1. by eexists. }
    destruct (trim_trailing loc st ct) as [ct'|e] eqn:Ht2.
    2:{ exists 0, 1. cbn [brace_loop]. rewrite Hr, He, Ht1, Ht2. by eexists. }
    destruct (Nat.eqb ct' 0) eqn:Hz.
    { destruct (Hstep pos_end EmptyString Hle eq_refl) as (f & n & r & Hl & Hs).
      exists f, (S n), r. cbn [brace_loop]. by rewrite Hr, He, Ht1, Ht2, Hz. }
    destruct (my_constants pp !! substr loc st ct') as [replacer|] eqn:Hc.
    + destruct (bool_decide (substr loc st ct' ∈ rs)) eqn:Hin.
      { exists 0, 1. cbn [brace_loop]. rewrite Hr, He, Ht1, Ht2, Hz, Hc, Hin. by eexists. }
      apply bool_decide_eq_false in Hin.
      destruct (Hrec _ _ Hin Hc) as (f1 & r1 & Hr1 & Hs1).
      destruct r1 as [[v rs']|e].
      2:{ exists f1, 1. cbn [brace_loop].
          rewrite Hr, He, Ht1, Ht2, Hz, Hc, (bool_decide_eq_false_2 _ Hin), Hr1.
          by eexists. }
      destruct Hs1 as [-> Hv].
      destruct (Hstep pos_end v Hle Hv) as (f2 & n & r & Hl & Hs).
      exists (Nat.max f1 f2), (S n), r. split; [| exact Hs]. cbn [brace_loop].
      rewrite Hr, He, Ht1, Ht2, Hz, Hc, (bool_decide_eq_false_2 _ Hin).
      rewrite (Hmono f1 (Nat.max f1 f2) _ _ _ ltac:(lia) Hr1).
      rewrite (in_progress_restored _ _ Hin).
      apply (brace_loop_mono pp show_double str (F f2) (F (Nat.max f1 f2))
               ltac:(intros rs0 s0 r0; apply Hmono; lia) n n rs _ r ltac:(lia) Hl).
    + destruct (makeParser pp (substr loc st ct')) as [pv|e] eqn:Hp.
      2:{ exists 0, 1. cbn [brace_loop]. rewrite Hr, He, Ht1, Ht2, Hz, Hc, Hp. by eexists. }
      destruct (Hstep pos_end (show_double pv) Hle (Hshow pv)) as (f & n & r & Hl & Hs).
      exists f, (S n), r. cbn [brace_loop]. by rewrite Hr, He, Ht1, Ht2, Hz, Hc, Hp.
Qed.

(** The string overload ends when the calls it makes for the symbols that
    are not yet in progress do. *)
Lemma fillWithParser_string_ends_step (rs : gset string) (str : string) (esc : bool) :
  (forall sym replacer, sym ∉ rs -> my_constants pp !! sym = Some replacer ->
     exists f r,
       fillWithParser_string f pp show_double (rs ∪ {[sym]}) replacer false = Some r
       /\ settled (rs ∪ {[sym]}) r) ->
  exists f r, fillWithParser_string f pp show_double rs str esc = Some r
              /\ kept rs r /\ (esc = false -> settled rs r).
Proof.
  intros Hrec.
  destruct (escape_open_ends str) as (l1 & H1).
  destruct (escape_close_ends l1) as (l2 & H2).
  destruct (brace_loop_ends str rs
              (fun f rs0 s0 => fillWithParser_string f pp show_double rs0 s0 false)
              ltac:(intros f f' rs0 s r Hle; by apply fillWithParser_string_mono)
              Hrec (count_char "{" l2) l2 ltac:(lia)) as (f & n & r & Hl & Hs).
  set (M0 := Nat.max (String.length str) (Nat.max (String.length l1) (Nat.max n f))).
  assert (HM0 : String.length str <= M0 /\ String.length l1 <= M0 /\ n <= M0 /\ f <= M0)
    by (unfold M0; lia).
  clearbody M0. destruct HM0 as (HM1 & HM2 & HM3 & HM4).
  assert (Hbrace : forall M, M0 <= M ->
            brace_loop M (fun rs0 s0 => fillWithParser_string M pp show_double rs0 s0 false)
              pp show_double str rs l2 = Some r).
  { intros M HM.
    apply (brace_loop_mono pp show_double str
             (fun rs0 s0 => fillWithParser_string f pp show_double rs0 s0 false)
             (fun rs0 s0 => fillWithParser_string M pp show_double rs0 s0 false)
             ltac:(intros rs0 s0 r0; apply fillWithParser_string_mono; lia)
             n M rs l2 r ltac:(lia) Hl). }
  destruct r as [[l3 rs']|e].
  - destruct Hs as [-> Hfree].
    destruct (unescape_open_ends l3) as (l4 & H4).
    destruct (unescape_close_ends l4) as (l5 & H5).
    set (M := Nat.max M0 (Nat.max (String.length l3) (String.length l4))).
    assert (HM : M0 <= M /\ String.length l3 <= M /\ String.length l4 <= M)
      by (unfold M; lia).
    clearbody M. destruct HM as (HM5 & HM6 & HM7).
    exists (S M), (Returned (if esc then l5 else l3, rs)).
    split; [| split; [reflexivity | intros ->; split; [reflexivity | exact Hfree]]].
    cbn [fillWithParser_string].
    rewrite (replace_all_find_mono _ _ (String.length str) M _ _ ltac:(lia) H1).
    rewrite (replace_all_rfind_mono _ _ (String.length l1) M _ _ ltac:(lia) H2).
    rewrite (Hbrace M ltac:(lia)).
    destruct esc; [| reflexivity].
    rewrite (replace_all_find_mono _ _ (String.length l3) M _ _ ltac:(lia) H4).
    rewrite (replace_all_rfind_mono _ _ (String.length l4) M _ _ ltac:(lia) H5). reflexivity.
  - exists (S M0), (Aborted e). split; [| done].
    cbn [fillWithParser_string].
    rewrite (replace_all_find_mono _ _ (String.length str) M0 _ _ ltac:(lia) H1).
    rewrite (replace_all_rfind_mono _ _ (String.length l1) M0 _ _ ltac:(lia) H2).
    rewrite (Hbrace M0 ltac:(lia)). reflexivity.
Qed.

(** The string overload ends on every input, whatever is in progress. *)
Lemma fillWithParser_string_ends (d : nat) :
  forall (rs : gset string) (str : string) (esc : bool),
    size (dom (my_constants pp) ∖ rs) <= d ->
    exists f r, fillWithParser_string f pp show_double rs str esc = Some r
                /\ kept rs r /\ (esc = false -> settled rs r).
Proof.
  induction d as [|d IH]; intros rs str esc Hd;
    apply fillWithParser_string_ends_step; intros sym replacer Hnin Hc.
  - exfalso.
    assert (Hin : sym ∈ dom (my_constants pp) ∖ rs).
    { apply elem_of_difference. split; [| exact Hnin]. apply elem_of_dom. by eexists. }
    assert (Hsz : size (dom (my_constants pp) ∖ rs) = 0) by lia.
    apply size_empty_inv in Hsz. set_solver.
  - assert (Hin : sym ∈ dom (my_constants pp) ∖ rs).
    { apply elem_of_difference. split; [| exact Hnin]. apply elem_of_dom. by eexists. }
    destruct (IH (rs ∪ {[sym]}) replacer false) as (f & r & Hf & _ & Hs).
    + assert (Hsub : dom (my_constants pp) ∖ (rs ∪ {[sym]})
                     ⊂ dom (my_constants pp) ∖ rs) by set_solver.
      apply subset_size in Hsub. lia.
    + exists f, r. split; [exact Hf | by apply Hs].
Qed.
End BraceLoopEnds.

Section Occurrences.

Lemma count_char_zero_prefix (c : ascii) (pat s : string) :
  count_char c s = 0 -> String.prefix (String c pat) s = false.
Proof.
  destruct s as [|c' s]; [reflexivity |]. cbn [count_char String.prefix].
  destruct (ascii_dec c c') as [->|Hne]; [| reflexivity].
  rewrite Ascii.eqb_refl. discriminate.
Qed.

Lemma find0_none_of_count (c : ascii) (pat s : string) :
  count_char c s = 0 -> find0 (String c pat) s = None.
Proof.
  induction s as [|c' s IH]; intros H0.
  - reflexivity.
  - cbn [find0]. rewrite (count_char_zero_prefix c pat _ H0).
    cbn [count_char] in H0. rewrite IH by lia. reflexivity.
Qed.

Lemma rfind_none_of_count (c : ascii) (pat s : string) :
  count_char c s = 0 -> rfind (String c pat) s = None.
Proof.
  induction s as [|c' s IH]; intros H0.
  - reflexivity.
  - cbn [rfind]. rewrite (count_char_zero_prefix c pat _ H0).
    cbn [count_char] in H0. rewrite IH by lia. reflexivity.
Qed.

Lemma find_from_none_of_count (c : ascii) (pat s : string) (pos : nat) :
  count_char c s = 0 -> find_from (String c pat) s pos = None.
Proof.
  revert s. induction pos as [|pos IH]; intros s H0.
  - by apply find0_none_of_count.
  - destruct s as [|c' s]; [reflexivity |].
    change (find_from (String c pat) (String c' s) (S pos))
      with (S <$> find_from (String c pat) s pos).
    cbn [count_char] in H0. rewrite IH by lia. reflexivity.
Qed.

(** A doubled character needs two occurrences. *)
Lemma rfind_double_count (c : ascii) (s : string) (pos : nat) :
  rfind (String c (String c EmptyString)) s = Some pos -> 2 <= count_char c s.
Proof.
  intros H. apply rfind_split in H. rewrite H, !count_char_app.
  cbn [count_char]. rewrite Ascii.eqb_refl. lia.
Qed.

Lemma rfind_some_of_count (c : ascii) (s : string) :
  count_char c s <> 0 -> exists pos, rfind (String c EmptyString) s = Some pos.
Proof.
  intros H. destruct (rfind (String c EmptyString) s) as [pos|] eqn:E; [by eexists |].
  by apply rfind_char_none in E.
Qed.

(** The first occurrence of a character after a stretch without it. *)
Lemma find0_after (c : ascii) (a b : string) :
  count_char c a = 0 ->
  find0 (String c EmptyString) (a +:+ String c b) = Some (String.length a).
Proof.
  induction a as [|c' a IH]; intros H0.
  - change (EmptyString +:+ String c b) with (String c b).
    cbn [find0]. rewrite prefix_char, Ascii.eqb_refl. reflexivity.
  - rewrite string_app_cons. cbn [find0]. rewrite prefix_char.
    cbn [count_char] in H0. destruct (Ascii.eqb c' c); [lia |].
    rewrite IH by lia. reflexivity.
Qed.

Lemma get_count (c : ascii) (s : string) (i : nat) :
  String.get i s = Some c -> count_char c s <> 0.
Proof.
  revert i. induction s as [|c' s IH]; intros i; [discriminate |].
  destruct i as [|i]; cbn [String.get count_char].
  - intros [= ->]. rewrite Ascii.eqb_refl. lia.
  - intros H. specialize (IH i H). lia.
Qed.

Lemma get_app_l (a b : string) (i : nat) :
  i < String.length a -> String.get i (a +:+ b) = String.get i a.
Proof.
  revert i. induction a as [|c a IH]; intros i Hi; cbn [String.length] in Hi; [lia |].
  rewrite string_app_cons. destruct i as [|i]; cbn [String.get]; [reflexivity |].
  apply IH. lia.
Qed.

Lemma get_is_Some (s : string) (i : nat) :
  i < String.length s -> is_Some (String.get i s).
Proof.
  revert i. induction s as [|c s IH]; intros i Hi; cbn [String.length] in Hi; [lia |].
  destruct i as [|i]; cbn [String.get]; [by eexists |]. apply IH. lia.
Qed.

Lemma take_str_app (a b : string) : take_str (String.length a) (a +:+ b) = a.
Proof.
  induction a as [|c a IH]; [by destruct b |].
  rewrite string_app_cons. cbn [String.length take_str]. by rewrite IH.
Qed.

Lemma find0_double_none (c : ascii) (rest : string) :
  count_char c rest = 0 ->
  find0 (String c (String c EmptyString)) (String c rest) = None.
Proof.
  intros H0. cbn [find0 String.prefix].
  destruct (ascii_dec c c) as [_|Hne]; [| congruence].
  rewrite (count_char_zero_prefix c EmptyString rest H0).
  by rewrite (find0_none_of_count c (String c EmptyString) rest H0).
Qed.

End Occurrences.

(** How the string overload reads a reference [{sym}] to a plain name. *)
Lemma reference_round (sym : string) :
  plain_name sym ->
  find0 "{{" (reference sym) = None
  /\ rfind "}}" (reference sym) = None
  /\ rfind "{" (reference sym) = Some 0
  /\ find_from "}" (reference sym) 0 = Some (S (String.length sym))
  /\ trim_leading (reference sym) (0 + 1) (S (String.length sym) - 0 - 1)
     = Returned (1, String.length sym)
  /\ trim_trailing (reference sym) 1 (String.length sym) = Returned (String.length sym)
  /\ substr (reference sym) 1 (String.length sym) = sym
  /\ Nat.eqb (String.length sym) 0 = false.
Proof.
  intros (Hne & Ho & Hc & Hb). unfold reference.
  destruct sym as [|c0 sym']; [congruence |].
  assert (Hc0 : Ascii.eqb c0 " " = false).
  { cbn [count_char] in Hb. destruct (Ascii.eqb c0 " "); [lia | reflexivity]. }
  set (sym := String c0 sym') in *.
  assert (Hrest_o : count_char "{" (sym +:+ "}") = 0) by (rewrite count_char_app, Ho; reflexivity).
  split.
  { change ("{" +:+ sym +:+ "}") with (String "{" (sym +:+ "}")).
    by apply find0_double_none. }
  split.
  { destruct (rfind "}}" ("{" +:+ sym +:+ "}")) as [pos|] eqn:E; [| reflexivity].
    apply rfind_double_count in E. rewrite !count_char_app, Hc in E.
    cbn in E. lia. }
  split.
  { change ("{" +:+ sym +:+ "}") with (String "{" (sym +:+ "}")).
    cbn [rfind]. rewrite (rfind_none_of_count "{" "" _ Hrest_o). reflexivity. }
  split.
  { cbn [find_from].
    replace ("{" +:+ sym +:+ "}") with (("{" +:+ sym) +:+ "}") by (by rewrite string_app_assoc).
    rewrite find0_after.
    - rewrite string_length_app. reflexivity.
    - rewrite count_char_app, Hc. reflexivity. }
  split.
  { change (0 + 1) with 1.
    replace (S (String.length sym) - 0 - 1) with (String.length sym) by lia.
    change ("{" +:+ sym +:+ "}") with (String "{" (String c0 (sym' +:+ "}"))).
    change (String.length sym) with (S (String.length sym')).
    cbn [trim_leading at_str String.get]. by rewrite Hc0. }
  split.
  { change (String.length sym) with (S (String.length sym')).
    cbn [trim_trailing]. replace (1 + S (String.length sym') - 1) with (S (String.length sym')) by lia.
    change ("{" +:+ sym +:+ "}") with (String "{" (sym +:+ "}")).
    unfold at_str. cbn [String.get].
    rewrite get_app_l by (change (String.length sym) with (S (String.length sym')); lia).
    destruct (get_is_Some sym (String.length sym')) as [c Hget];
      [change (String.length sym) with (S (String.length sym')); lia |].
    rewrite Hget.
    assert (Hcb : Ascii.eqb c " " = false).
    { apply Ascii.eqb_neq. intros ->. by apply get_count in Hget. }
    by rewrite Hcb. }
  split.
  { unfold substr. change ("{" +:+ sym +:+ "}") with (String "{" (sym +:+ "}")).
    cbn [drop_str]. apply take_str_app. }
  reflexivity.
Qed.

Section Fatal.
Variable pp : ParmParse.
Variable show_double : spec_float -> string.

(** A reference to a symbol that is in progress ends the run. *)
Lemma reference_in_progress_aborts (rs : gset string) (sym replacer : string)
    (esc : bool) (fuel : nat) :
  plain_name sym -> my_constants pp !! sym = Some replacer -> sym ∈ rs ->
  fillWithParser_string (S (S fuel)) pp show_double rs (reference sym) esc
  = Some (Aborted (recursive_symbol_text (reference sym) sym)).
Proof.
  intros Hplain Hc Hin.
  destruct (reference_round sym Hplain) as (H1 & H2 & H3 & H4 & H5 & H6 & H7 & H8).
  cbn [fillWithParser_string replace_all_find]. rewrite H1.
  cbn [replace_all_rfind]. rewrite H2.
  cbn [brace_loop]. rewrite H3, H4, H5, H6, H7, H8, Hc.
  by rewrite (bool_decide_eq_true_2 _ Hin).
Qed.

(** A symbol defined as a reference to itself ends the run when it is
    referred to. *)
Lemma self_reference_aborts (rs : gset string) (sym : string) (esc : bool) (fuel : nat) :
  plain_name sym -> my_constants pp !! sym = Some (reference sym) -> sym ∉ rs ->
  fillWithParser_string (S (S (S fuel))) pp show_double rs (reference sym) esc
  = Some (Aborted (recursive_symbol_text (reference sym) sym)).
Proof.
  intros Hplain Hc Hnin.
  destruct (reference_round sym Hplain) as (H1 & H2 & H3 & H4 & H5 & H6 & H7 & H8).
  change (fillWithParser_string (S (S (S fuel))) pp show_double rs (reference sym) esc)
    with (match replace_all_find (S (S fuel)) "{{" char1 (reference sym) with
          | None => None
          | Some loc_str =>
              match replace_all_rfind (S (S fuel)) "}}" char2 loc_str with
              | None => None
              | Some loc_str =>
                  match brace_loop (S (S fuel))
                          (fun rs0 replacer =>
                             fillWithParser_string (S (S fuel)) pp show_double rs0 replacer false)
                          pp show_double (reference sym) rs loc_str with
                  | None => None
                  | Some (Aborted e) => Some (Aborted e)
                  | Some (Returned (loc_str, recursive_symbols)) =>
                      if esc then
                        match replace_all_find (S (S fuel)) char1 "{" loc_str with
                        | None => None
                        | Some loc_str =>
                            match replace_all_rfind (S (S fuel)) char2 "}" loc_str with
                            | None => None
                            | Some loc_str => Some (Returned (loc_str, recursive_symbols))
                            end
                        end
                      else Some (Returned (loc_str, recursive_symbols))
                  end
              end
          end).
  cbn [replace_all_find]. rewrite H1. cbn [replace_all_rfind]. rewrite H2.
  cbn [brace_loop]. rewrite H3, H4, H5, H6, H7, H8, Hc.
  rewrite (bool_decide_eq_false_2 _ Hnin).
  by rewrite (reference_in_progress_aborts (rs ∪ {[sym]}) sym (reference sym) false fuel
                Hplain Hc ltac:(set_solver)).
Qed.

(** An opening brace without any closing brace ends the run. *)
Lemma unclosed_brace_aborts (rs : gset string) (str : string) (esc : bool) (fuel : nat) :
  count_char "}" str = 0 -> find0 "{{" str = None -> count_char "{" str <> 0 ->
  fillWithParser_string (S (S fuel)) pp show_double rs str esc
  = Some (Aborted (unclosed_brace_text str)).
Proof.
  intros Hc Hd Ho.
  destruct (rfind_some_of_count "{" str Ho) as (pos & Hpos).
  cbn [fillWithParser_string replace_all_find]. rewrite Hd.
  cbn [replace_all_rfind]. rewrite (rfind_none_of_count "}" "}" str Hc).
  cbn [brace_loop]. rewrite Hpos.
  by rewrite (find_from_none_of_count "}" EmptyString str pos Hc).
Qed.
End Fatal.

(** C10. The brace substitution of the string overload ends on every input:
    with numbers printed without an opening brace, there is an amount of fuel
    from which on the call has one and the same outcome, a string or the end
    of the run.  A reference to a symbol of [my_constants] that is already in
    progress ends the run with the message that names it, and so does a
    symbol defined as a reference to itself; an opening brace without a
    closing one ends the run with the unclosed-brace message. *)
Theorem fillWithParser_string_terminates
    (pp : ParmParse) (show_double : spec_float -> string) :
  (brace_free_numbers show_double ->
   forall (str : string) (esc : bool),
     exists N r, forall fuel, N <= fuel ->
       fillWithParser_string fuel pp show_double ∅ str esc = Some r)
  /\ (forall rs sym replacer esc fuel,
        plain_name sym -> my_constants pp !! sym = Some replacer -> sym ∈ rs ->
        fillWithParser_string (S (S fuel)) pp show_double rs (reference sym) esc
        = Some (Aborted (recursive_symbol_text (reference sym) sym)))
  /\ (forall sym esc fuel,
        plain_name sym -> my_constants pp !! sym = Some (reference sym) ->
        fillWithParser_string (S (S (S fuel))) pp show_double ∅ (reference sym) esc
        = Some (Aborted (recursive_symbol_text (reference sym) sym)))
  /\ (forall rs str esc fuel,
        count_char "}" str = 0 -> find0 "{{" str = None -> count_char "{" str <> 0 ->
        fillWithParser_string (S (S fuel)) pp show_double rs str esc
        = Some (Aborted (unclosed_brace_text str))).
Proof.
  split; [| split; [| split]].
  - intros Hshow str esc.
    destruct (fillWithParser_string_ends pp show_double Hshow
                (size (dom (my_constants pp) ∖ (∅ : gset string))) ∅ str esc ltac:(lia))
      as (f & r & Hf & _).
    exists f, r. intros fuel Hle.
    by apply (fillWithParser_string_mono pp show_double f fuel).
  - intros rs sym replacer esc fuel. apply reference_in_progress_aborts.
  - intros sym esc fuel Hplain Hc.
    apply self_reference_aborts; [exact Hplain | exact Hc | set_solver].
  - intros rs str esc fuel. apply unclosed_brace_aborts.
Qed.

Lemma plain_name_a : plain_name "a".
Proof. repeat split. discriminate. Qed.

Lemma fillWithParser_string_terminates_witness :
  (exists N r, forall fuel, N <= fuel ->
     fillWithParser_string fuel demo_table_pp demo_show ∅ "out/{name}.h5" true = Some r)
  /\ fillWithParser_string 2 demo_cyclic_pp demo_show {[ "a" ]} "{a}" false
     = Some (Aborted (recursive_symbol_text "{a}" "a"))
  /\ fillWithParser_string 3 demo_self_pp demo_show ∅ "{a}" true
     = Some (Aborted (recursive_symbol_text "{a}" "a"))
  /\ fillWithParser_string 2 demo_table_pp demo_show ∅ "a{b" true
     = Some (Aborted (unclosed_brace_text "a{b")).
Proof.
  split.
  { apply (proj1 (fillWithParser_string_terminates demo_table_pp demo_show)).
    intros v. reflexivity. }
  split.
  { apply (proj1 (proj2 (fillWithParser_string_terminates demo_cyclic_pp demo_show))
             {[ "a" ]} "a" "{b}" false 0 plain_name_a eq_refl).
    apply elem_of_singleton. reflexivity. }
  split.
  { apply (proj1 (proj2 (proj2 (fillWithParser_string_terminates demo_self_pp demo_show)))
             "a" true 0 plain_name_a eq_refl). }
  apply (proj2 (proj2 (proj2 (fillWithParser_string_terminates demo_table_pp demo_show)))
           ∅ "a{b" true 0 eq_refl eq_refl).
  discriminate.
Defined.

(** A cycle through two symbols is caught as well. *)
Example two_symbol_cycle :
  fillWithParser_string 4 demo_cyclic_pp demo_show ∅ "{a}" true
  = Some (Aborted (recursive_symbol_text "x{ a }" "a")).
Proof. vm_compute. reflexivity. Qed.

(** ** Binary64 data and the numbers they stand for *)

Section Binary64Values.




Lemma val_pos (m : positive) (e : Z) : B64.val (S754_finite false m e) = mag m e.
Proof. reflexivity. Qed.

Lemma val_neg (m : positive) (e : Z) : (B64.val (S754_finite true m e) == - mag m e)%Q.
Proof. unfold B64.val, SF2Q. apply neg_value_mag. Qed.

(** The magnitude with the exponent counted from the least one of the
    format. *)
Lemma mag_scaled (m : positive) (e : Z) :
  (-1074 <= e)%Z ->
  (mag m e * inject_Z (2 ^ 1074) == inject_Z (Zpos m * 2 ^ (e + 1074)))%Q.
Proof.
  intros He. unfold mag. destruct e as [|p|p].
  - rewrite <- inject_Z_mult. apply inject_Z_injective.
    rewrite Z.pow_0_r. change (0 + 1074)%Z with 1074%Z. ring.
  - rewrite <- inject_Z_mult. apply inject_Z_injective.
    rewrite Z.pow_add_r by lia. ring.
  - unfold Qeq, Qmult, inject_Z. cbn [Qnum Qden].
    rewrite Pos.mul_1_r, Z.mul_1_r, Pos2Z.inj_pow.
    replace (2 ^ 1074)%Z with (2 ^ (Zneg p + 1074) * 2 ^ Zpos p)%Z
      by (rewrite <- Z.pow_add_r by lia; f_equal; lia).
    ring.
Qed.

Lemma scaled_lt_exp (m1 m2 : positive) (e1 e2 : Z) :
  bounded 53 1024 m1 e1 = true -> bounded 53 1024 m2 e2 = true ->
  (e1 < e2)%Z ->
  (Zpos m1 * 2 ^ (e1 + 1074) < Zpos m2 * 2 ^ (e2 + 1074))%Z.
Proof.
  intros H1 H2 Hlt.
  apply bounded_binary64 in H1 as (He1 & Hm1 & _).
  apply bounded_binary64 in H2 as (He2 & _ & Hn2).
  specialize (Hn2 ltac:(lia)).
  set (a := (e1 + 1074)%Z). assert (Ha : (0 <= a)%Z) by lia.
  assert (Hpa : (0 < 2 ^ a)%Z) by (apply Z.pow_pos_nonneg; lia).
  assert (Hpb : (2 ^ (a + 1) <= 2 ^ (e2 + 1074))%Z) by (apply Z.pow_le_mono_r; lia).
  assert (Hsucc : (2 ^ (a + 1) = 2 * 2 ^ a)%Z) by (rewrite Z.pow_add_r by lia; ring).
  set (P53 := (2 ^ 53)%Z) in *. set (P52 := (2 ^ 52)%Z) in *.
  assert (HP : P53 = (2 * P52)%Z) by reflexivity.
  assert (HP0 : (0 < P52)%Z) by reflexivity.
  clearbody P53 P52.
  apply Z.lt_le_trans with (P53 * 2 ^ a)%Z.
  - apply Z.mul_lt_mono_pos_r; assumption.
  - apply Z.le_trans with (P52 * 2 ^ (a + 1))%Z; [rewrite Hsucc, HP; lia |].
    apply Z.mul_le_mono_nonneg; lia.
Qed.

Lemma mag_lt_scaled (m1 m2 : positive) (e1 e2 : Z) :
  (-1074 <= e1)%Z -> (-1074 <= e2)%Z ->
  (mag m1 e1 < mag m2 e2)%Q
  <-> (Zpos m1 * 2 ^ (e1 + 1074) < Zpos m2 * 2 ^ (e2 + 1074))%Z.
Proof.
  intros H1 H2. rewrite Zlt_Qlt, <- !mag_scaled by assumption.
  assert (HK : (0 < inject_Z (2 ^ 1074))%Q).
  { change 0%Q with (inject_Z 0). rewrite <- Zlt_Qlt. apply Z.pow_pos_nonneg; lia. }
  set (K := inject_Z (2 ^ 1074)) in *. clearbody K.
  split; intros H.
  - apply Qmult_lt_compat_r; assumption.
  - apply Qmult_lt_r in H; assumption.
Qed.

(** The order of two binary64 magnitudes is that of their exponents and,
    at equal exponents, that of their mantissas. *)
Lemma mag_lt_iff (m1 m2 : positive) (e1 e2 : Z) :
  bounded 53 1024 m1 e1 = true -> bounded 53 1024 m2 e2 = true ->
  (mag m1 e1 < mag m2 e2)%Q
  <-> match (e1 ?= e2)%Z with
      | Lt => True
      | Eq => (m1 < m2)%positive
      | Gt => False
      end.
Proof.
  intros H1 H2.
  pose proof (bounded_binary64 _ _ H1) as (He1 & _ & _).
  pose proof (bounded_binary64 _ _ H2) as (He2 & _ & _).
  rewrite mag_lt_scaled by lia.
  destruct (Z.compare_spec e1 e2) as [->|Hlt|Hgt].
  - assert (Hp : (0 < 2 ^ (e2 + 1074))%Z) by (apply Z.pow_pos_nonneg; lia).
    rewrite <- Z.mul_lt_mono_pos_r by exact Hp. reflexivity.
  - split; [trivial | intros _]. by apply scaled_lt_exp.
  - split; [| intros []]. intros H.
    pose proof (scaled_lt_exp m2 m1 e2 e1 H2 H1 Hgt). lia.
Qed.

Lemma compare_cont_lt (m1 m2 : positive) :
  Pos.compare_cont Eq m1 m2 = Lt <-> (m1 < m2)%positive.
Proof. reflexivity. Qed.

(** On numbers, [<] of binary64 is [<] of what they stand for. *)
Lemma lt_val (a b : B64.Real) :
  B64.finite a = true -> B64.finite b = true ->
  B64.lt a b = Rlt (B64.val a) (B64.val b).
Proof.
  intros Ha Hb. apply eq_true_iff_eq. rewrite Rlt_true.
  destruct a as [sa| | |sa ma ea]; try discriminate Ha;
    destruct b as [sb| | |sb mb eb]; try discriminate Hb;
    cbn [B64.finite] in Ha, Hb.
  - split; [discriminate | intros H; exfalso; revert H; apply Qlt_irrefl].
  - pose proof (mag_pos mb eb) as Hp. pose proof (val_neg mb eb) as Hn.
    destruct sb.
    + split; [discriminate |]. rewrite Hn. change (B64.val (S754_zero sa)) with 0%Q.
      intros H. lra.
    + split; [intros _ | reflexivity]. rewrite val_pos. exact Hp.
  - pose proof (mag_pos ma ea) as Hp. pose proof (val_neg ma ea) as Hn.
    destruct sa.
    + split; [intros _ | reflexivity]. rewrite Hn. change (B64.val (S754_zero sb)) with 0%Q.
      lra.
    + split; [discriminate |]. rewrite val_pos. change (B64.val (S754_zero sb)) with 0%Q.
      intros H. lra.
  - pose proof (mag_pos ma ea) as Hpa. pose proof (mag_pos mb eb) as Hpb.
    pose proof (val_neg ma ea) as Hna. pose proof (val_neg mb eb) as Hnb.
    pose proof (mag_lt_iff ma mb ea eb Ha Hb) as Hab.
    pose proof (mag_lt_iff mb ma eb ea Hb Ha) as Hba.
    unfold B64.lt, SFltb, SFcompare.
    destruct sa, sb.
    + rewrite Hna, Hnb. rewrite (Z.compare_antisym ea eb) in Hba.
      destruct (ea ?= eb)%Z; cbn [CompOpp] in *.
      * rewrite (Pos.compare_cont_antisym ma mb Eq). cbn [CompOpp].
        destruct (Pos.compare_cont Eq mb ma) eqn:E; cbn [CompOpp].
        -- split; [discriminate |]. intros H.
           assert (Hlt : (mag mb eb < mag ma ea)%Q) by lra.
           apply Hba in Hlt. unfold Pos.lt, Pos.compare in Hlt. congruence.
        -- split; [intros _ | reflexivity].
           assert (Hlt : (mag mb eb < mag ma ea)%Q) by (apply Hba; exact E). lra.
        -- split; [discriminate |]. intros H.
           assert (Hlt : (mag mb eb < mag ma ea)%Q) by lra.
           apply Hba in Hlt. unfold Pos.lt, Pos.compare in Hlt. congruence.
      * split; [discriminate |]. intros H.
        assert (Hlt : (mag mb eb < mag ma ea)%Q) by lra. by apply Hba in Hlt.
      * split; [intros _ | reflexivity].
        assert (Hlt : (mag mb eb < mag ma ea)%Q) by (by apply Hba). lra.
    + rewrite Hna, val_pos. split; [intros _; lra | reflexivity].
    + rewrite Hnb, val_pos. split; [discriminate | intros H; lra].
    + rewrite !val_pos.
      destruct (ea ?= eb)%Z.
      * destruct (Pos.compare_cont Eq ma mb) eqn:E.
        -- split; [discriminate |]. intros H. apply Hab in H.
           unfold Pos.lt, Pos.compare in H. congruence.
        -- split; [intros _ | reflexivity]. apply Hab. exact E.
        -- split; [discriminate |]. intros H. apply Hab in H.
           unfold Pos.lt, Pos.compare in H. congruence.
      * split; [intros _ | reflexivity]. by apply Hab.
      * split; [discriminate |]. intros H. by apply Hab in H.
Qed.


Lemma val_two : (B64.val B64.two == 2)%Q.
Proof. reflexivity. Qed.

End Binary64Values.

(** ** [EnforceBC] in binary64 *)

Section EnforceBC64.











End EnforceBC64.




(** What the call leaves at that input. *)
Example reflecting_at_the_edge :
  let r := B64.EnforceBC_call (narrow_bc64 ParticleBoundary.Reflecting) demo_ptd64 1
             below_narrow_lo B64.zero (B64.of_int 2) (B64.of_int 3) 0 in
  B64.r_x r = below_narrow_lo /\ B64.r_ux r = B64.opp (B64.of_int 2)
  /\ B64.lt (B64.r_x r) (B64.m_plo (narrow_bc64 ParticleBoundary.Reflecting)).1 = true.
Proof. vm_compute. auto. Qed.




Example periodic_at_the_edge :
  let r := B64.EnforceBC_call (skew_bc64 ParticleBoundary.Periodic) demo_ptd64 1
             below_minus_one B64.zero (B64.of_int 2) (B64.of_int 3) 0 in
  B64.r_x r = S754_finite false 6755399441055748 (-51)
  /\ B64.lt (B64.m_phi (skew_bc64 ParticleBoundary.Periodic)).1 (B64.r_x r) = true.
Proof. vm_compute. auto. Qed.

(** On numbers the test of [EnforceBC] in binary64 is the test on the
    numbers they stand for: what depends on the comparisons only is the same
    in both readings of [amrex::Real]. *)
Remark outside_box_val (bc : B64.EnforceBC) (x y : B64.Real) :
  B64.finite (B64.m_plo bc).1 = true -> B64.finite (B64.m_plo bc).2 = true ->
  B64.finite (B64.m_phi bc).1 = true -> B64.finite (B64.m_phi bc).2 = true ->
  B64.finite x = true -> B64.finite y = true ->
  B64.outside_box bc x y
  = (Rlt (B64.val x) (B64.val (B64.m_plo bc).1)
     || Rlt (B64.val y) (B64.val (B64.m_plo bc).2)
     || Rlt (B64.val (B64.m_phi bc).1) (B64.val x)
     || Rlt (B64.val (B64.m_phi bc).2) (B64.val y)).
Proof.
  intros F1 F2 F3 F4 Fx Fy. unfold B64.outside_box.
  by rewrite !lt_val.
Qed.

(** ** What depends on the comparisons only, in binary64 *)

(** The statements about the test of [EnforceBC] and about its absorbing
    branch were made with [amrex::Real] as rationals.  They are the same on
    binary64 data, NaN and the infinities included. *)
Section ComparisonsOnly64.

Lemma compare_cont_Eq_antisym (m1 m2 : positive) :
  Pos.compare_cont Eq m1 m2 = Lt -> Pos.compare_cont Eq m2 m1 = Gt.
Proof.
  intros H. pose proof (Pos.compare_cont_antisym m1 m2 Eq) as A.
  cbn [CompOpp] in A. rewrite <- A, H. reflexivity.
Qed.

Lemma compare_cont_Eq_antisym' (m1 m2 : positive) :
  Pos.compare_cont Eq m1 m2 = Gt -> Pos.compare_cont Eq m2 m1 = Lt.
Proof.
  intros H. pose proof (Pos.compare_cont_antisym m1 m2 Eq) as A.
  cbn [CompOpp] in A. rewrite <- A, H. reflexivity.
Qed.

(** [<] of binary64 is asymmetric. *)
Lemma lt64_asym (a b : B64.Real) : B64.lt a b = true -> B64.lt b a = false.
Proof.
  unfold B64.lt, SFltb, SFcompare.
  destruct a as [sa|sa| |sa ma ea], b as [sb|sb| |sb mb eb];
    try discriminate; try reflexivity;
    try (destruct sa; (discriminate || reflexivity));
    try (destruct sb; (discriminate || reflexivity));
    try (destruct sa, sb; (discriminate || reflexivity)).
  destruct sa, sb; try discriminate; try reflexivity;
    rewrite (Z.compare_antisym ea eb);
    destruct (ea ?= eb)%Z; cbn [CompOpp]; try discriminate; try reflexivity.
  - destruct (Pos.compare_cont Eq ma mb) eqn:E; cbn [CompOpp]; try discriminate.
    intros _. by rewrite (compare_cont_Eq_antisym' _ _ E).
  - destruct (Pos.compare_cont Eq ma mb) eqn:E; try discriminate.
    intros _. by rewrite (compare_cont_Eq_antisym _ _ E).
Qed.

(** A particle that passes the test is left alone, under any policy. *)
Lemma EnforceBC64_inside (bc : B64.EnforceBC) ptd ip x y ux uy w_index :
  B64.outside_box bc x y = false ->
  B64.EnforceBC_call bc ptd ip x y ux uy w_index
  = {| B64.r_ptd := ptd; B64.r_x := x; B64.r_y := y; B64.r_ux := ux; B64.r_uy := uy;
       B64.r_invalid := false |}.
Proof.
  intros H. unfold B64.outside_box in H. unfold B64.EnforceBC_call. by rewrite H.
Qed.

(** As [contained_is_untouched]. *)
Lemma contained_is_untouched64
    (b : B64.CheckDomainBounds) (bc : B64.EnforceBC) ptd ip x y ux uy w_index :
  B64.cdb_lo b = B64.m_plo bc -> B64.cdb_hi b = B64.m_phi bc ->
  B64.contains b x y = true ->
  B64.EnforceBC_call bc ptd ip x y ux uy w_index
  = {| B64.r_ptd := ptd; B64.r_x := x; B64.r_y := y; B64.r_ux := ux; B64.r_uy := uy;
       B64.r_invalid := false |}.
Proof.
  intros Hlo Hhi Hc. unfold B64.contains in Hc. rewrite Hlo, Hhi in Hc.
  rewrite !andb_true_iff in Hc. destruct Hc as [[[H1 H2] H3] H4].
  apply EnforceBC64_inside. unfold B64.outside_box.
  by rewrite (lt64_asym _ _ H1), (lt64_asym _ _ H2), (lt64_asym _ _ H3), (lt64_asym _ _ H4).
Qed.

(** [<] of binary64 is irreflexive, so that a coordinate equal to a bound
    is not outside: as [on_edge_unchanged]. *)
Lemma lt64_irrefl (a : B64.Real) : B64.lt a a = false.
Proof.
  destruct (B64.lt a a) eqn:E; [| reflexivity].
  pose proof (lt64_asym a a E). congruence.
Qed.

Lemma on_corner_unchanged64 (bc : B64.EnforceBC) ptd ip ux uy w_index :
  B64.lt (B64.m_phi bc).1 (B64.m_plo bc).1 = false ->
  B64.lt (B64.m_phi bc).2 (B64.m_plo bc).2 = false ->
  forall x y,
    (x = (B64.m_plo bc).1 \/ x = (B64.m_phi bc).1) ->
    (y = (B64.m_plo bc).2 \/ y = (B64.m_phi bc).2) ->
    B64.EnforceBC_call bc ptd ip x y ux uy w_index
    = {| B64.r_ptd := ptd; B64.r_x := x; B64.r_y := y; B64.r_ux := ux; B64.r_uy := uy;
         B64.r_invalid := false |}.
Proof.
  intros H1 H2 x y Hx Hy. apply EnforceBC64_inside. unfold B64.outside_box.
  destruct Hx as [->| ->], Hy as [->| ->]; by rewrite ?lt64_irrefl, ?H1, ?H2.
Qed.

(** As [absorbing_outside_invalidates]. *)
Lemma absorbing_outside_invalidates64
    (bc : B64.EnforceBC) (ptd : B64.ParticleTileData) (ip w_index : nat)
    (x y ux uy : B64.Real) (col : list B64.Real) (id : Z) :
  B64.m_particle_boundary bc = ParticleBoundary.Absorbing ->
  B64.outside_box bc x y = true ->
  B64.rdata ptd !! w_index = Some col -> ip < length col ->
  B64.idcpu ptd !! ip = Some id ->
  let r := B64.EnforceBC_call bc ptd ip x y ux uy w_index in
  B64.r_invalid r = true
  /\ B64.get_rdata (B64.r_ptd r) w_index ip = Some B64.zero
  /\ B64.id_is_valid (B64.r_ptd r) ip = Some false
  /\ B64.r_x r = x /\ B64.r_y r = y /\ B64.r_ux r = ux /\ B64.r_uy r = uy.
Proof.
  intros Hb Hout Hcol Hip Hid r. subst r.
  unfold B64.outside_box in Hout. unfold B64.EnforceBC_call. rewrite Hout, Hb.
  cbn [B64.r_invalid B64.r_ptd B64.r_x B64.r_y B64.r_ux B64.r_uy].
  split; [reflexivity |]. split; [| split; [| by repeat split]].
  - unfold B64.get_rdata, B64.id_make_invalid, B64.set_rdata. cbn [B64.rdata].
    rewrite list_lookup_alter, Hcol. simpl.
    destruct (decide (w_index = w_index)) as [_|Hne]; [| by destruct Hne].
    simpl. by apply list_lookup_insert_eq.
  - unfold B64.id_is_valid, B64.id_make_invalid, B64.set_rdata. cbn [B64.idcpu].
    rewrite list_lookup_alter, Hid. simpl.
    destruct (decide (ip = ip)) as [_|Hne]; [| by destruct Hne].
    simpl. by rewrite make_invalid_not_valid.
Qed.

(** As [enforcement_keeps_momentum_size]. *)
Lemma enforcement_keeps_momentum_size64
    (bc : B64.EnforceBC) (ptd : B64.ParticleTileData) (ip w_index : nat)
    (x y ux uy : B64.Real) :
  let r := B64.EnforceBC_call bc ptd ip x y ux uy w_index in
  (B64.r_ux r = ux
   \/ B64.r_ux r = B64.opp ux /\ B64.m_particle_boundary bc = ParticleBoundary.Reflecting)
  /\ (B64.r_uy r = uy
      \/ B64.r_uy r = B64.opp uy /\ B64.m_particle_boundary bc = ParticleBoundary.Reflecting).
Proof.
  intros r. subst r. unfold B64.EnforceBC_call.
  destruct (B64.lt x (B64.m_plo bc).1 || B64.lt y (B64.m_plo bc).2
            || B64.lt (B64.m_phi bc).1 x || B64.lt (B64.m_phi bc).2 y); [| cbn; auto].
  destruct (B64.m_particle_boundary bc); [| cbn; auto | cbn; auto].
  repeat match goal with |- context [if ?c then _ else _] => destruct c end;
    cbn; auto.
Qed.

End ComparisonsOnly64.

(** * Further properties of the modelled code *)

(** ** The registry *)

Section RegistryExtras.
Import AssertMap.

Lemma count_pos_elem (m : assert_map) (k : string) :
  count m k <> 0 -> exists v, (k, v) ∈ m.
Proof.
  intros H. destruct (at_ m k) as [v|] eqn:E.
  - exists v. by apply at_elem_of.
  - exfalso. apply H. apply count_zero_iff. intros idx Hin.
    clear H. induction m as [|[k' v'] m IH]; [inversion Hin |].
    simpl in E. destruct (String.eqb_spec k' k) as [->|Hne]; [discriminate |].
    apply elem_of_cons in Hin as [[= <- <-]|Hin]; [congruence | by apply IH].
Qed.

Lemma emplace_present_unchanged (k : string) (v : Z) (m : assert_map) :
  keys_sorted m -> count m k <> 0 -> emplace k v m = m.
Proof.
  unfold keys_sorted. induction m as [|[k' v'] m IH]; intros Hs Hc; [by destruct Hc |].
  cbn [emplace]. destruct (String_as_OT.cmp k k') eqn:E; [reflexivity | |].
  - exfalso. apply String_as_OT.cmp_lt in E.
    destruct (count_pos_elem _ _ Hc) as [w Hin].
    apply elem_of_cons in Hin as [[= -> ->]|Hin].
    + by apply String_as_OT.lt_not_eq in E.
    + simpl in Hs. apply StronglySorted_inv in Hs as [_ Hall].
      rewrite Forall_forall in Hall.
      assert (Hlt : String_as_OT.lt k' k)
        by (apply Hall; apply (list_elem_of_fmap_2 fst) in Hin; exact Hin).
      apply (String_as_OT.lt_not_eq k k); [| reflexivity].
      by apply (String_as_OT.lt_trans k k' k).
  - f_equal. simpl in Hs. apply StronglySorted_inv in Hs as [Hs _].
    apply IH; [exact Hs |]. cbn [count] in Hc.
    destruct (String.eqb_spec k' k) as [->|Hne]; [| exact Hc].
    exfalso.
    assert (String_as_OT.cmp k k = Eq) by (by apply String_as_OT.cmp_eq). congruence.
Qed.

(** X1. [emplace] never overwrites: registering a name that is already in
    the map leaves the map as it is, so the name keeps its first index. *)
Theorem emplace_keeps_first_index (k : string) (v idx : Z) (m : assert_map) :
  keys_sorted m -> (k, idx) ∈ m ->
  emplace k v m = m /\ operator_subscript (emplace k v m) k = Returned idx.
Proof.
  intros Hs Hin.
  assert (Hc : count m k <> 0).
  { intros H0. by apply (proj1 (count_zero_iff m k) H0 idx). }
  rewrite (emplace_present_unchanged k v m Hs Hc). split; [reflexivity |].
  by apply subscript_hit.
Qed.

Lemma emplace_keeps_first_index_witness :
  emplace "Bx" 9 (demo_Comps WhichSlice.This) = demo_Comps WhichSlice.This
  /\ operator_subscript (emplace "Bx" 9 (demo_Comps WhichSlice.This)) "Bx" = Returned 1%Z.
Proof.
  apply (emplace_keeps_first_index "Bx" 9 1 (demo_Comps WhichSlice.This)
           (demo_Comps_sorted WhichSlice.This)).
  vm_compute. left.
Defined.

(** X2. [multi_emplace] advances the counter once per name, whether or not
    the name was new. *)
Theorem multi_emplace_counter (comps : list string) (n : Z) (m : assert_map) :
  (multi_emplace n comps m).1 = (n + Z.of_nat (length comps))%Z.
Proof.
  revert n m. induction comps as [|c cs IH]; intros n m; cbn [multi_emplace length].
  - simpl. lia.
  - rewrite IH. lia.
Qed.

Lemma multi_emplace_keeps (comps : list string) (n : Z) (m : assert_map) (e : string * Z) :
  e ∈ m -> e ∈ (multi_emplace n comps m).2.
Proof.
  revert n m. induction comps as [|c cs IH]; intros n m Hin; [exact Hin |].
  cbn [multi_emplace]. apply IH. by apply emplace_keeps.
Qed.

Lemma emplace_count_other (k k' : string) (v : Z) (m : assert_map) :
  k <> k' -> count (emplace k v m) k' = count m k'.
Proof.
  intros Hne. induction m as [|[k0 v0] m IH]; cbn [emplace count].
  - destruct (String.eqb_spec k k'); [congruence | reflexivity].
  - destruct (String_as_OT.cmp k k0); cbn [count]; [reflexivity | |].
    + destruct (String.eqb_spec k k'); [congruence | reflexivity].
    + by rewrite IH.
Qed.

(** X3. Registering names that are new and pairwise different gives them
    consecutive indices from the counter on: the [i]-th name is then looked
    up as [n + i]. *)
Theorem multi_emplace_consecutive (comps : list string) (n : Z) (m : assert_map)
    (i : nat) (c : string) :
  keys_sorted m -> NoDup comps -> (forall c', c' ∈ comps -> count m c' = 0) ->
  comps !! i = Some c ->
  operator_subscript (multi_emplace n comps m).2 c = Returned (n + Z.of_nat i)%Z.
Proof.
  revert n m i. induction comps as [|c0 cs IH]; intros n m i Hs Hnd Hfresh Hi;
    [discriminate |].
  apply NoDup_cons in Hnd as [Hc0 Hnd]. cbn [multi_emplace].
  destruct i as [|i]; cbn in Hi.
  - injection Hi as ->. apply subscript_hit.
    + apply multi_emplace_sorted. by apply emplace_sorted.
    + rewrite Z.add_0_r. apply multi_emplace_keeps. apply emplace_fresh.
      apply Hfresh. left.
  - rewrite (IH (n + 1)%Z (emplace c0 n m) i).
    + f_equal. lia.
    + by apply emplace_sorted.
    + exact Hnd.
    + intros c' Hc'. rewrite emplace_count_other.
      * apply Hfresh. by right.
      * intros ->. contradiction.
    + exact Hi.
Qed.

Lemma multi_emplace_consecutive_witness :
  operator_subscript (multi_emplace 5 ["jx"; "jy"; "rho"] []).2 "rho" = Returned (5 + 2)%Z.
Proof.
  apply (multi_emplace_consecutive ["jx"; "jy"; "rho"] 5 [] 2 "rho").
  - apply SSorted_nil.
  - apply (bool_decide_unpack _). vm_compute. exact I.
  - intros c' _. reflexivity.
  - reflexivity.
Defined.

(** X4. [emplace] keeps the keys in order and keeps what is registered:
    every other name is looked up as before. *)
Theorem emplace_preserves_lookups (k k' : string) (v : Z) (m : assert_map) :
  keys_sorted m -> k <> k' ->
  keys_sorted (emplace k v m)
  /\ operator_subscript (emplace k v m) k' = 
     match operator_subscript m k' with
     | Returned idx => Returned idx
     | Aborted _ => Aborted (not_allocated_text (emplace k v m) k')
     end.
Proof.
  intros Hs Hne. split; [by apply emplace_sorted |].
  unfold operator_subscript at 2.
  destruct (Nat.eqb_spec (count m k') 0) as [H0|H0].
  - unfold operator_subscript. by rewrite emplace_count_other, H0.
  - destruct (count_pos_elem m k' H0) as [w Hin].
    rewrite (at_of_elem_of m k' w Hs Hin).
    apply subscript_hit; [by apply emplace_sorted | by apply emplace_keeps].
Qed.

Lemma emplace_preserves_lookups_witness :
  keys_sorted (emplace "rho" 9 (demo_Comps WhichSlice.This))
  /\ operator_subscript (emplace "rho" 9 (demo_Comps WhichSlice.This)) "By" = Returned 2%Z.
Proof.
  apply (emplace_preserves_lookups "rho" "By" 9 (demo_Comps WhichSlice.This)
           (demo_Comps_sorted WhichSlice.This)).
  discriminate.
Defined.
End RegistryExtras.

(** ** The kernels of [Fields] *)

Lemma setVal_kernel_length (val : Q) (c_idx : list Z) (cell : list Q) :
  length (setVal_kernel val c_idx cell) = length cell.
Proof.
  revert cell. induction c_idx as [|n rest IH]; intros cell; cbn [setVal_kernel];
    [reflexivity |].
  by rewrite IH, length_insert.
Qed.

Lemma setVal_kernel_other (val : Q) (c_idx : list Z) (cell : list Q) (i : nat) :
  (forall n, n ∈ c_idx -> Z.to_nat n <> i) ->
  setVal_kernel val c_idx cell !! i = cell !! i.
Proof.
  revert cell. induction c_idx as [|n rest IH]; intros cell Hi; cbn [setVal_kernel];
    [reflexivity |].
  rewrite IH by (intros n' Hn'; apply Hi; by right).
  apply list_lookup_insert_ne. apply Hi. left.
Qed.

Lemma setVal_kernel_named (val : Q) (c_idx : list Z) (cell : list Q) (n : Z) :
  in_cell c_idx cell -> n ∈ c_idx ->
  setVal_kernel val c_idx cell !! Z.to_nat n = Some val.
Proof.
  unfold in_cell. revert cell. induction c_idx as [|n0 rest IH]; intros cell Hrg Hin;
    [inversion Hin |].
  apply Forall_cons in Hrg as [Hn0 Hrg]. cbn [setVal_kernel].
  destruct (decide (n ∈ rest)) as [Hr|Hr].
  - apply IH; [by rewrite length_insert | exact Hr].
  - apply elem_of_cons in Hin as [->|Hin]; [| contradiction].
    rewrite setVal_kernel_other.
    + apply list_lookup_insert_eq. lia.
    + intros n' Hn' Heq. rewrite Forall_forall in Hrg. specialize (Hrg n' Hn').
      assert (n' = n0) by lia. by subst.
Qed.

(** X5. [setVal] writes the value into every named component of every cell
    of the level and nothing else: the other components, the number of
    components and the other levels stay as they are. *)
Theorem setVal_sets_named_only
    (Comps : Comps_t) (val : Q) (lev : nat) (islice : WhichSlice.slice)
    (comps : list string) (m_slices : list MultiFab) (c_idx : list Z) (mfab : MultiFab) :
  lookup_comps (Comps islice) comps = Returned c_idx ->
  m_slices !! lev = Some mfab ->
  Forall (in_cell c_idx) mfab ->
  exists s' mfab',
    setVal Comps val lev islice comps m_slices = Returned s'
    /\ s' !! lev = Some mfab'
    /\ (forall l, l <> lev -> s' !! l = m_slices !! l)
    /\ length mfab' = length mfab
    /\ forall k cell cell', mfab !! k = Some cell -> mfab' !! k = Some cell' ->
         length cell' = length cell
         /\ (forall n, n ∈ c_idx -> cell' !! Z.to_nat n = Some val)
         /\ (forall i, (forall n, n ∈ c_idx -> Z.to_nat n <> i) -> cell' !! i = cell !! i).
Proof.
  intros Hl Hlev Hrg. unfold setVal. rewrite Hl. unfold MultiFab in *.
  eexists _, (map (setVal_kernel val c_idx) mfab). split; [reflexivity |].
  split.
  { rewrite list_lookup_alter, Hlev.
    destruct (decide (lev = lev)) as [_|Hne]; [reflexivity | by destruct Hne]. }
  split; [intros l Hne; by rewrite list_lookup_alter_ne |].
  split; [apply length_map |].
  intros k cell cell' Hk Hk'.
  change (map (setVal_kernel val c_idx) mfab) with (setVal_kernel val c_idx <$> mfab) in Hk'.
  rewrite list_lookup_fmap, Hk in Hk'. injection Hk' as <-.
  split; [apply setVal_kernel_length |]. split.
  - intros n Hn. apply setVal_kernel_named; [| exact Hn].
    rewrite Forall_forall in Hrg. apply Hrg. eapply list_elem_of_lookup_2. exact Hk.
  - intros i Hi. by apply setVal_kernel_other.
Qed.

Lemma setVal_sets_named_only_witness :
  exists s' mfab',
    setVal demo_shift_Comps 0 0 WhichSlice.This ["Bx"; "Ez"] demo_slices = Returned s'
    /\ s' !! 0 = Some mfab'
    /\ (forall l, l <> 0 -> s' !! l = demo_slices !! l)
    /\ length mfab' = 2
    /\ forall k cell cell',
         [[7; 8; 9; 5; 6]%Q; [17; 18; 19; 15; 16]%Q] !! k = Some cell ->
         mfab' !! k = Some cell' ->
         length cell' = length cell
         /\ (forall n, n ∈ [0; 2]%Z -> cell' !! Z.to_nat n = Some 0%Q)
         /\ (forall i, (forall n, n ∈ [0; 2]%Z -> Z.to_nat n <> i) -> cell' !! i = cell !! i).
Proof.
  apply (setVal_sets_named_only demo_shift_Comps 0 0 WhichSlice.This ["Bx"; "Ez"]
           demo_slices [0; 2]%Z [[7; 8; 9; 5; 6]%Q; [17; 18; 19; 15; 16]%Q]).
  - reflexivity.
  - reflexivity.
  - unfold in_cell. repeat (apply Forall_cons; split); try apply Forall_nil; simpl; lia.
Defined.

Lemma mult_kernel_length (val : Q) (c_idx : list Z) (cell : list Q) :
  length (mult_kernel val c_idx cell) = length cell.
Proof.
  revert cell. induction c_idx as [|n rest IH]; intros cell; cbn [mult_kernel];
    [reflexivity |].
  by rewrite IH, length_alter.
Qed.

Lemma mult_kernel_other (val : Q) (c_idx : list Z) (cell : list Q) (i : nat) :
  (forall n, n ∈ c_idx -> Z.to_nat n <> i) ->
  mult_kernel val c_idx cell !! i = cell !! i.
Proof.
  revert cell. induction c_idx as [|n rest IH]; intros cell Hi; cbn [mult_kernel];
    [reflexivity |].
  rewrite IH by (intros n' Hn'; apply Hi; by right).
  apply list_lookup_alter_ne. apply Hi. left.
Qed.

Lemma mult_kernel_named (val : Q) (c_idx : list Z) (cell : list Q) (n : Z) :
  NoDup c_idx -> in_cell c_idx cell -> n ∈ c_idx ->
  mult_kernel val c_idx cell !! Z.to_nat n
  = (fun x => (x * val)%Q) <$> cell !! Z.to_nat n.
Proof.
  unfold in_cell. revert cell. induction c_idx as [|n0 rest IH]; intros cell Hnd Hrg Hin;
    [inversion Hin |].
  apply NoDup_cons in Hnd as [Hn0 Hnd].
  apply Forall_cons in Hrg as [Hr0 Hrg]. cbn [mult_kernel].
  apply elem_of_cons in Hin as [->|Hin].
  - rewrite mult_kernel_other.
    + rewrite list_lookup_alter. by destruct (decide (Z.to_nat n0 = Z.to_nat n0)).
    + intros n' Hn' Heq. rewrite Forall_forall in Hrg. specialize (Hrg n' Hn').
      assert (n' = n0) by lia. by subst.
  - rewrite IH; [| exact Hnd | by rewrite length_alter | exact Hin].
    rewrite list_lookup_alter_ne; [reflexivity |].
    intros Heq. rewrite Forall_forall in Hrg. specialize (Hrg n Hin).
    assert (n = n0) by lia. by subst.
Qed.

(** X6. [mult] multiplies every named component of every cell of the level
    by the value, once, and touches nothing else, when no name is given
    twice. *)
Theorem mult_scales_named_only
    (Comps : Comps_t) (val : Q) (lev : nat) (islice : WhichSlice.slice)
    (comps : list string) (m_slices : list MultiFab) (c_idx : list Z) (mfab : MultiFab) :
  lookup_comps (Comps islice) comps = Returned c_idx ->
  NoDup c_idx ->
  m_slices !! lev = Some mfab ->
  Forall (in_cell c_idx) mfab ->
  exists s' mfab',
    mult Comps val lev islice comps m_slices = Returned s'
    /\ s' !! lev = Some mfab'
    /\ (forall l, l <> lev -> s' !! l = m_slices !! l)
    /\ forall k cell cell', mfab !! k = Some cell -> mfab' !! k = Some cell' ->
         (forall n, n ∈ c_idx ->
            cell' !! Z.to_nat n = (fun x => (x * val)%Q) <$> cell !! Z.to_nat n)
         /\ (forall i, (forall n, n ∈ c_idx -> Z.to_nat n <> i) -> cell' !! i = cell !! i).
Proof.
  intros Hl Hnd Hlev Hrg. unfold mult. rewrite Hl. unfold MultiFab in *.
  eexists _, (map (mult_kernel val c_idx) mfab). split; [reflexivity |].
  split.
  { rewrite list_lookup_alter, Hlev.
    destruct (decide (lev = lev)) as [_|Hne]; [reflexivity | by destruct Hne]. }
  split; [intros l Hne; by rewrite list_lookup_alter_ne |].
  intros k cell cell' Hk Hk'.
  change (map (mult_kernel val c_idx) mfab) with (mult_kernel val c_idx <$> mfab) in Hk'.
  rewrite list_lookup_fmap, Hk in Hk'. injection Hk' as <-.
  split.
  - intros n Hn. apply mult_kernel_named; [exact Hnd | | exact Hn].
    rewrite Forall_forall in Hrg. apply Hrg. eapply list_elem_of_lookup_2. exact Hk.
  - intros i Hi. by apply mult_kernel_other.
Qed.

Lemma mult_scales_named_only_witness :
  exists s' mfab',
    mult demo_shift_Comps 2 0 WhichSlice.This ["Bx"; "Ez"] demo_slices = Returned s'
    /\ s' !! 0 = Some mfab'
    /\ (forall l, l <> 0 -> s' !! l = demo_slices !! l)
    /\ forall k cell cell',
         [[7; 8; 9; 5; 6]%Q; [17; 18; 19; 15; 16]%Q] !! k = Some cell ->
         mfab' !! k = Some cell' ->
         (forall n, n ∈ [0; 2]%Z ->
            cell' !! Z.to_nat n = (fun x => (x * 2)%Q) <$> cell !! Z.to_nat n)
         /\ (forall i, (forall n, n ∈ [0; 2]%Z -> Z.to_nat n <> i) -> cell' !! i = cell !! i).
Proof.
  apply (mult_scales_named_only demo_shift_Comps 2 0 WhichSlice.This ["Bx"; "Ez"]
           demo_slices [0; 2]%Z [[7; 8; 9; 5; 6]%Q; [17; 18; 19; 15; 16]%Q]).
  - reflexivity.
  - apply (bool_decide_unpack _). vm_compute. exact I.
  - reflexivity.
  - unfold in_cell. repeat (apply Forall_cons; split); try apply Forall_nil; simpl; lia.
Defined.

(** X7. [mult] is not idempotent in its names: a name given twice is
    multiplied twice. *)
Theorem mult_repeated_name_squares (val : Q) (n : Z) (cell : list Q) (x : Q) :
  cell !! Z.to_nat n = Some x ->
  mult_kernel val [n; n] cell !! Z.to_nat n = Some (x * val * val)%Q.
Proof.
  intros Hx. cbn [mult_kernel]. rewrite !list_lookup_alter.
  destruct (decide (Z.to_nat n = Z.to_nat n)) as [_|Hne]; [| by destruct Hne].
  by rewrite Hx.
Qed.

Lemma mult_repeated_name_squares_witness :
  mult_kernel 3 [1; 1]%Z [7; 8; 9]%Q !! Z.to_nat 1 = Some (8 * 3 * 3)%Q.
Proof. apply (mult_repeated_name_squares 3 1 [7; 8; 9]%Q 8). reflexivity. Defined.

Lemma add_kernel_length (D S : list Z) (cell : list Q) :
  length (add_kernel D S cell) = length cell.
Proof.
  revert S cell. induction D as [|d D IH]; intros [|s S] cell; cbn [add_kernel];
    try reflexivity.
  rewrite IH. destruct (cell !! Z.to_nat s); [apply length_alter | reflexivity].
Qed.

Lemma add_kernel_other (D S : list Z) (cell : list Q) (i : nat) :
  (forall d, d ∈ D -> Z.to_nat d <> i) ->
  add_kernel D S cell !! i = cell !! i.
Proof.
  revert S cell. induction D as [|d D IH]; intros [|s S] cell Hi; cbn [add_kernel];
    try reflexivity.
  rewrite IH by (intros d' Hd'; apply Hi; by right).
  destruct (cell !! Z.to_nat s); [| reflexivity].
  apply list_lookup_alter_ne. apply Hi. left.
Qed.

Lemma add_kernel_sums (D S : list Z) (cell : list Q) (n : nat) (d s : Z) (x y : Q) :
  length D = length S ->
  NoDup (S ++ D) ->
  in_cell (S ++ D) cell ->
  D !! n = Some d -> S !! n = Some s ->
  cell !! Z.to_nat d = Some x -> cell !! Z.to_nat s = Some y ->
  add_kernel D S cell !! Z.to_nat d = Some (x + y)%Q.
Proof.
  unfold in_cell.
  revert S cell n. induction D as [|d0 D IH]; intros [|s0 S] cell n Hlen Hnd Hrg Hd Hs Hx Hy;
    simpl in Hlen, Hd, Hs; try discriminate.
  apply NoDup_cons in Hnd as [Hs0 Hnd].
  apply NoDup_app in Hnd as (HndS & Hdisj & HndD).
  apply NoDup_cons in HndD as [Hd0 HndD].
  apply Forall_cons in Hrg as [Hrs0 Hrg].
  apply Forall_app in Hrg as [HrS HrD].
  apply Forall_cons in HrD as [Hrd0 HrD].
  cbn [add_kernel].
  destruct n as [|n]; simpl in Hd, Hs.
  - injection Hd as ->. injection Hs as ->. rewrite Hy.
    rewrite add_kernel_other.
    + rewrite list_lookup_alter, Hx.
      by destruct (decide (Z.to_nat d = Z.to_nat d)).
    + intros d' Hd' Heq. rewrite Forall_forall in HrD. specialize (HrD d' Hd').
      assert (d' = d) by lia. by subst.
  - assert (Hv : is_Some (cell !! Z.to_nat s0)) by (apply lookup_lt_is_Some; lia).
    destruct Hv as [v Hv]. rewrite Hv.
    assert (Hds : d0 <> s).
    { intros ->. apply (Hdisj s); [eapply list_elem_of_lookup_2; exact Hs | left]. }
    assert (Hdd : d0 <> d).
    { intros ->. apply Hd0. eapply list_elem_of_lookup_2. exact Hd. }
    assert (Hrd : (0 <= d < Z.of_nat (length cell))%Z).
    { rewrite Forall_forall in HrD. apply HrD. eapply list_elem_of_lookup_2. exact Hd. }
    assert (Hrs : (0 <= s < Z.of_nat (length cell))%Z).
    { rewrite Forall_forall in HrS. apply HrS. eapply list_elem_of_lookup_2. exact Hs. }
    apply (IH S _ n); try assumption.
    + lia.
    + apply NoDup_app. split; [exact HndS |]. split; [| exact HndD].
      intros z Hz Hz'. apply (Hdisj z Hz). by right.
    + rewrite length_alter. apply Forall_app. split; assumption.
    + rewrite list_lookup_alter_ne; [exact Hx | lia].
    + rewrite list_lookup_alter_ne; [exact Hy | lia].
Qed.

(** X8. [add] adds to every destination component the value its source had
    before the call and leaves the sources as they were, when all indices
    are in range and pairwise different. *)
Theorem add_sums_into_destination
    (Comps : Comps_t) (lev : nat) (islice_dst islice_src : WhichSlice.slice)
    (comps_dst comps_src : list string) (m_slices : list MultiFab)
    (c_idx_src c_idx_dst : list Z) (mfab : MultiFab) :
  lookup_comps2 (Comps islice_dst) (Comps islice_src) comps_dst comps_src
    = Returned (c_idx_src, c_idx_dst) ->
  length c_idx_dst = length c_idx_src ->
  NoDup (c_idx_src ++ c_idx_dst) ->
  m_slices !! lev = Some mfab ->
  Forall (in_cell (c_idx_src ++ c_idx_dst)) mfab ->
  exists s' mfab',
    add Comps lev islice_dst comps_dst islice_src comps_src m_slices = Returned s'
    /\ s' !! lev = Some mfab'
    /\ forall k cell cell' n d s x y,
         mfab !! k = Some cell -> mfab' !! k = Some cell' ->
         c_idx_dst !! n = Some d -> c_idx_src !! n = Some s ->
         cell !! Z.to_nat d = Some x -> cell !! Z.to_nat s = Some y ->
         cell' !! Z.to_nat d = Some (x + y)%Q /\ cell' !! Z.to_nat s = Some y.
Proof.
  intros Hl Hlen Hnd Hlev Hrg. unfold add. rewrite Hl. unfold MultiFab in *.
  eexists _, (map (add_kernel c_idx_dst c_idx_src) mfab). split; [reflexivity |].
  split.
  { rewrite list_lookup_alter, Hlev.
    destruct (decide (lev = lev)) as [_|Hne]; [reflexivity | by destruct Hne]. }
  intros k cell cell' n d s x y Hk Hk' Hd Hs Hx Hy.
  change (map (add_kernel c_idx_dst c_idx_src) mfab)
    with (add_kernel c_idx_dst c_idx_src <$> mfab) in Hk'.
  rewrite list_lookup_fmap, Hk in Hk'. injection Hk' as <-.
  assert (Hcell : in_cell (c_idx_src ++ c_idx_dst) cell).
  { rewrite Forall_forall in Hrg. apply Hrg. eapply list_elem_of_lookup_2. exact Hk. }
  split.
  - by apply (add_kernel_sums c_idx_dst c_idx_src cell n d s x y).
  - rewrite add_kernel_other; [exact Hy |].
    intros d' Hd' Heq.
    assert (Hin : s ∈ c_idx_src) by (eapply list_elem_of_lookup_2; exact Hs).
    unfold in_cell in Hcell. rewrite Forall_forall in Hcell.
    pose proof (Hcell s ltac:(apply elem_of_app; by left)).
    pose proof (Hcell d' ltac:(apply elem_of_app; by right)).
    assert (d' = s) by lia. subst.
    apply NoDup_app in Hnd as (_ & H2 & _). by apply (H2 s).
Qed.

Lemma add_sums_into_destination_witness :
  exists s' mfab',
    add demo_shift_Comps 0 WhichSlice.Previous ["Bx"; "By"] WhichSlice.This ["Bx"; "By"]
      demo_slices = Returned s'
    /\ s' !! 0 = Some mfab'
    /\ forall k cell cell' n d s x y,
         [[7; 8; 9; 5; 6]%Q; [17; 18; 19; 15; 16]%Q] !! k = Some cell ->
         mfab' !! k = Some cell' ->
         [3; 4]%Z !! n = Some d -> [0; 1]%Z !! n = Some s ->
         cell !! Z.to_nat d = Some x -> cell !! Z.to_nat s = Some y ->
         cell' !! Z.to_nat d = Some (x + y)%Q /\ cell' !! Z.to_nat s = Some y.
Proof.
  apply (add_sums_into_destination demo_shift_Comps 0 WhichSlice.Previous WhichSlice.This
           ["Bx"; "By"] ["Bx"; "By"] demo_slices [0; 1]%Z [3; 4]%Z
           [[7; 8; 9; 5; 6]%Q; [17; 18; 19; 15; 16]%Q]).
  - reflexivity.
  - reflexivity.
  - apply (bool_decide_unpack _). vm_compute. exact I.
  - reflexivity.
  - unfold in_cell. repeat (apply Forall_cons; split); try apply Forall_nil; simpl; lia.
Defined.

(** X9. [duplicate] copies one component after the other: asked to exchange
    two components of one slice, it leaves both with the old value of the
    second, not exchanged. *)
Theorem duplicate_is_sequential
    (Comps : Comps_t) (lev : nat) (islice : WhichSlice.slice) (a b : string)
    (m_slices : list MultiFab) (i_a i_b : Z) (mfab : MultiFab) :
  AssertMap.operator_subscript (Comps islice) a = Returned i_a ->
  AssertMap.operator_subscript (Comps islice) b = Returned i_b ->
  i_a <> i_b ->
  m_slices !! lev = Some mfab ->
  Forall (in_cell [i_a; i_b]) mfab ->
  exists s' mfab',
    duplicate Comps lev islice [a; b] islice [b; a] m_slices = Returned s'
    /\ s' !! lev = Some mfab'
    /\ forall k cell cell', mfab !! k = Some cell -> mfab' !! k = Some cell' ->
         cell' !! Z.to_nat i_a = cell !! Z.to_nat i_b
         /\ cell' !! Z.to_nat i_b = cell !! Z.to_nat i_b.
Proof.
  intros Ha Hb Hne Hlev Hrg. unfold duplicate. cbn [lookup_comps2].
  rewrite Hb, Ha. unfold MultiFab in *.
  eexists _, (map (shift_kernel [i_a; i_b] [i_b; i_a]) mfab). split; [reflexivity |].
  split.
  { rewrite list_lookup_alter, Hlev.
    destruct (decide (lev = lev)) as [_|Hn]; [reflexivity | by destruct Hn]. }
  intros k cell cell' Hk Hk'.
  change (map (shift_kernel [i_a; i_b] [i_b; i_a]) mfab)
    with (shift_kernel [i_a; i_b] [i_b; i_a] <$> mfab) in Hk'.
  rewrite list_lookup_fmap, Hk in Hk'. injection Hk' as <-.
  assert (Hcell : in_cell [i_a; i_b] cell).
  { rewrite Forall_forall in Hrg. apply Hrg. eapply list_elem_of_lookup_2. exact Hk. }
  unfold in_cell in Hcell.
  apply Forall_cons in Hcell as [Hra Hcell]. apply Forall_cons in Hcell as [Hrb _].
  assert (Hvb : is_Some (cell !! Z.to_nat i_b)) by (apply lookup_lt_is_Some; lia).
  destruct Hvb as [vb Hvb].
  cbn [shift_kernel]. rewrite Hvb.
  rewrite list_lookup_insert_eq by lia.
  assert (Hnat : Z.to_nat i_a <> Z.to_nat i_b) by lia.
  split.
  - rewrite list_lookup_insert_ne by lia. by apply list_lookup_insert_eq; lia.
  - apply list_lookup_insert_eq. rewrite length_insert. lia.
Qed.

Lemma duplicate_is_sequential_witness :
  exists s' mfab',
    duplicate demo_shift_Comps 0 WhichSlice.This ["Bx"; "By"] WhichSlice.This ["By"; "Bx"]
      demo_slices = Returned s'
    /\ s' !! 0 = Some mfab'
    /\ forall k cell cell',
         [[7; 8; 9; 5; 6]%Q; [17; 18; 19; 15; 16]%Q] !! k = Some cell ->
         mfab' !! k = Some cell' ->
         cell' !! Z.to_nat 0 = cell !! Z.to_nat 1
         /\ cell' !! Z.to_nat 1 = cell !! Z.to_nat 1.
Proof.
  apply (duplicate_is_sequential demo_shift_Comps 0 WhichSlice.This "Bx" "By"
           demo_slices 0 1 [[7; 8; 9; 5; 6]%Q; [17; 18; 19; 15; 16]%Q]).
  - reflexivity.
  - reflexivity.
  - discriminate.
  - reflexivity.
  - unfold in_cell. repeat (apply Forall_cons; split); try apply Forall_nil; simpl; lia.
Defined.

Lemma shift_kernel_idempotent (D S : list Z) (cell : list Q) :
  length D = length S ->
  NoDup (S ++ D) ->
  in_cell (S ++ D) cell ->
  shift_kernel D S (shift_kernel D S cell) = shift_kernel D S cell.
Proof.
  intros Hlen Hnd Hrg. unfold in_cell in Hrg. apply list_eq. intros i.
  destruct (decide (i ∈ (Z.to_nat <$> D))) as [Hin|Hnin].
  - apply list_elem_of_fmap in Hin as (d & -> & Hd).
    apply list_elem_of_lookup in Hd as (n & Hd).
    assert (Hs : is_Some (S !! n)).
    { apply lookup_lt_is_Some. rewrite <- Hlen. eapply lookup_lt_Some. exact Hd. }
    destruct Hs as [s Hs].
    assert (Hrg' : Forall (fun j => (0 <= j < Z.of_nat (length (shift_kernel D S cell)))%Z)
                     (S ++ D)) by (by rewrite shift_kernel_length).
    rewrite (shift_kernel_copies D S _ n d s Hlen Hnd Hrg' Hd Hs).
    rewrite (shift_kernel_copies D S cell n d s Hlen Hnd Hrg Hd Hs).
    apply shift_kernel_other. intros d' Hd' Heq.
    assert (Hins : s ∈ S) by (eapply list_elem_of_lookup_2; exact Hs).
    rewrite Forall_forall in Hrg.
    pose proof (Hrg s ltac:(apply elem_of_app; by left)).
    pose proof (Hrg d' ltac:(apply elem_of_app; by right)).
    assert (d' = s) by lia. subst.
    apply NoDup_app in Hnd as (_ & H2 & _). by apply (H2 s).
  - assert (Hother : forall d, d ∈ D -> Z.to_nat d <> i).
    { intros d Hd Heq. apply Hnin. apply list_elem_of_fmap. by exists d. }
    by rewrite !shift_kernel_other.
Qed.

(** X10. [shift] done twice is [shift] done once: the second call finds every
    destination equal to its source and changes nothing. *)
Theorem shift_twice_is_once
    (Comps : Comps_t) (lev : nat) (dst src : WhichSlice.slice)
    (comps : list string) (m_slices : list MultiFab)
    (c_idx_src c_idx_dst : list Z) (mfab : MultiFab) :
  lookup_comps (Comps src) comps = Returned c_idx_src ->
  lookup_comps (Comps dst) comps = Returned c_idx_dst ->
  NoDup (c_idx_src ++ c_idx_dst) ->
  m_slices !! lev = Some mfab ->
  Forall (in_cell (c_idx_src ++ c_idx_dst)) mfab ->
  exists s1,
    shift Comps lev dst src comps m_slices = Returned s1
    /\ shift Comps lev dst src comps s1 = Returned s1.
Proof.
  intros HS HD Hnd Hlev Hrg.
  assert (Hlen : length c_idx_dst = length c_idx_src).
  { by rewrite (lookup_comps_length _ _ _ HS), (lookup_comps_length _ _ _ HD). }
  unfold shift. rewrite HS, HD. eexists. split; [reflexivity |]. f_equal.
  unfold MultiFab in *. apply list_eq. intros l.
  destruct (decide (l = lev)) as [->|Hne].
  - rewrite !list_lookup_alter, Hlev.
    destruct (decide (lev = lev)) as [_|Hn]; [| by destruct Hn].
    simpl. f_equal. rewrite map_map. apply map_ext_in. intros cell Hcell.
    apply shift_kernel_idempotent; [exact Hlen | exact Hnd |].
    rewrite Forall_forall in Hrg. apply Hrg. by apply list_elem_of_In.
  - by rewrite !list_lookup_alter_ne.
Qed.

Lemma shift_twice_is_once_witness :
  exists s1,
    shift demo_shift_Comps 0 WhichSlice.Previous WhichSlice.This ["Bx"; "By"] demo_slices
      = Returned s1
    /\ shift demo_shift_Comps 0 WhichSlice.Previous WhichSlice.This ["Bx"; "By"] s1
      = Returned s1.
Proof.
  apply (shift_twice_is_once demo_shift_Comps 0 WhichSlice.Previous WhichSlice.This
           ["Bx"; "By"] demo_slices [0; 1]%Z [3; 4]%Z
           [[7; 8; 9; 5; 6]%Q; [17; 18; 19; 15; 16]%Q]).
  - reflexivity.
  - reflexivity.
  - apply (bool_decide_unpack _). vm_compute. exact I.
  - reflexivity.
  - unfold in_cell. repeat (apply Forall_cons; split); try apply Forall_nil; simpl; lia.
Defined.

Lemma count_pos_elem_shift (m : AssertMap.assert_map) (k : string) :
  AssertMap.count m k <> 0 -> exists v, AssertMap.at_ m k = Some v.
Proof.
  induction m as [|[k' v'] m IH]; cbn [AssertMap.count AssertMap.at_]; [congruence |].
  destruct (String.eqb k' k); [intros _; by eexists | exact IH].
Qed.

Lemma lookup_comps_first_miss (m : AssertMap.assert_map) (pre post : list string) (c : string) :
  (forall c', c' ∈ pre -> AssertMap.count m c' <> 0) ->
  AssertMap.count m c = 0 ->
  lookup_comps m (pre ++ c :: post) = Aborted (AssertMap.not_allocated_text m c).
Proof.
  intros Hpre Hc. induction pre as [|p pre IH]; cbn [app lookup_comps].
  - unfold AssertMap.operator_subscript. by rewrite Hc.
  - assert (Hp : AssertMap.count m p <> 0) by (apply Hpre; left).
    unfold AssertMap.operator_subscript at 1.
    destruct (Nat.eqb_spec (AssertMap.count m p) 0) as [H0|_]; [contradiction |].
    destruct (count_pos_elem_shift m p Hp) as [idx Hat]. rewrite Hat.
    rewrite IH; [reflexivity |]. intros c' Hc'. apply Hpre. by right.
Qed.

(** X11. [shift] looks every name up before it writes anything, the source
    role first: the first name that is missing in the source role ends the
    run with the listing of that role, whatever the destination role has. *)
Theorem shift_missing_source_name
    (Comps : Comps_t) (lev : nat) (dst src : WhichSlice.slice)
    (pre post : list string) (c : string) (m_slices : list MultiFab) :
  (forall c', c' ∈ pre -> AssertMap.count (Comps src) c' <> 0) ->
  AssertMap.count (Comps src) c = 0 ->
  shift Comps lev dst src (pre ++ c :: post) m_slices
  = Aborted (AssertMap.not_allocated_text (Comps src) c).
Proof.
  intros Hpre Hc. unfold shift. by rewrite lookup_comps_first_miss.
Qed.

Lemma shift_missing_source_name_witness :
  shift demo_shift_Comps 0 WhichSlice.Previous WhichSlice.This ["Bx"; "rho"; "By"] demo_slices
  = Aborted (AssertMap.not_allocated_text (demo_shift_Comps WhichSlice.This) "rho").
Proof.
  apply (shift_missing_source_name demo_shift_Comps 0 WhichSlice.Previous WhichSlice.This
           ["Bx"] ["By"] "rho" demo_slices).
  - intros c' Hc'. apply list_elem_of_singleton in Hc'. subst. discriminate.
  - reflexivity.
Defined.

(** ** Positions and boundaries *)

(** X12. [GetPosOffset] takes a box "with or without ghost cells": growing
    the box by [n] cells at both ends does not change the offset, as long as
    the indices of the grown box are in the range of [int]. *)
Theorem GetPosOffset_ignores_ghost_cells (dir : nat) (geom : Geometry) (box : Box) (n : Z) :
  (int_lowest <= smallEnd box dir - n <= int_max)%Z ->
  (int_lowest <= bigEnd box dir + n <= int_max)%Z ->
  GetPosOffset dir geom (grow box n) = GetPosOffset dir geom box.
Proof.
  intros Hs Hb. unfold GetPosOffset, grow, int_add, int_sub. cbn [smallEnd bigEnd].
  rewrite (static_cast_int_in_range _ Hs), (static_cast_int_in_range _ Hb).
  replace (smallEnd box dir - n + (bigEnd box dir + n))%Z
    with (smallEnd box dir + bigEnd box dir)%Z by lia.
  reflexivity.
Qed.

Lemma GetPosOffset_ignores_ghost_cells_witness :
  GetPosOffset 0 demo_geom (grow demo_box 2) = GetPosOffset 0 demo_geom demo_box.
Proof.
  apply (GetPosOffset_ignores_ghost_cells 0 demo_geom demo_box 2);
    unfold int_lowest, int_max; cbn [smallEnd bigEnd demo_box]; lia.
Defined.

(** X13. A point that [CheckDomainBounds::contains] accepts is never touched
    by [EnforceBC] with the same bounds, under any policy. *)
Theorem contained_is_untouched
    (b : CheckDomainBounds) (bc : EnforceBC) (ptd : ParticleTileData)
    (ip w_index : nat) (x y ux uy : Q) :
  cdb_lo b = m_plo bc -> cdb_hi b = m_phi bc ->
  contains b x y = true ->
  EnforceBC_call bc ptd ip x y ux uy w_index
  = {| r_ptd := ptd; r_x := x; r_y := y; r_ux := ux; r_uy := uy; r_invalid := false |}.
Proof.
  intros Hlo Hhi Hc. unfold contains in Hc. rewrite Hlo, Hhi in Hc.
  rewrite !andb_true_iff, !Rlt_true in Hc. destruct Hc as [[[H1 H2] H3] H4].
  apply EnforceBC_inside; split; lra.
Qed.

Lemma contained_is_untouched_witness :
  EnforceBC_call (demo_bc ParticleBoundary.Absorbing) demo_ptd 1 3 4 2 3 0
  = {| r_ptd := demo_ptd; r_x := 3; r_y := 4; r_ux := 2; r_uy := 3; r_invalid := false |}.
Proof.
  apply (contained_is_untouched {| cdb_lo := (-10, -10)%Q; cdb_hi := (10, 10)%Q |}
           (demo_bc ParticleBoundary.Absorbing) demo_ptd 1 0 3 4 2 3);
    reflexivity.
Defined.

(** X15. Enforcement never changes the size of a momentum: each component
    comes back as it was or negated, and it is negated only under the
    reflecting policy. *)
Theorem enforcement_keeps_momentum_size
    (bc : EnforceBC) (ptd : ParticleTileData) (ip w_index : nat) (x y ux uy : Q) :
  let r := EnforceBC_call bc ptd ip x y ux uy w_index in
  (r_ux r = ux \/ r_ux r = (- ux)%Q /\ m_particle_boundary bc = ParticleBoundary.Reflecting)
  /\ (r_uy r = uy \/ r_uy r = (- uy)%Q /\ m_particle_boundary bc = ParticleBoundary.Reflecting).
Proof.
  intros r. subst r. unfold EnforceBC_call.
  destruct (Rlt x (m_plo bc).1 || Rlt y (m_plo bc).2
            || Rlt (m_phi bc).1 x || Rlt (m_phi bc).2 y); [| simpl; auto].
  destruct (m_particle_boundary bc); [| simpl; auto | simpl; auto].
  repeat match goal with |- context [if ?c then _ else _] => destruct c end;
    simpl; auto.
Qed.

Lemma get_rdata_set_other (ptd : ParticleTileData) (comp ip comp' ip' : nat) (v : Q) :
  comp' <> comp \/ ip' <> ip ->
  get_rdata (set_rdata ptd comp ip v) comp' ip' = get_rdata ptd comp' ip'.
Proof.
  intros Hne. unfold get_rdata, set_rdata. cbn [rdata].
  rewrite list_lookup_alter.
  destruct (decide (comp = comp')) as [<-|Hc]; [| reflexivity].
  destruct (rdata ptd !! comp) as [col|]; [| reflexivity]. simpl.
  apply list_lookup_insert_ne. destruct Hne as [H|H]; congruence.
Qed.

(** X16. Absorbing one particle leaves all the others alone: every real
    component of every other particle, every other component of the absorbed
    one, and every other id are as before, and the position and momentum
    that were passed come back unchanged. *)
Theorem absorbing_frame
    (bc : EnforceBC) (ptd : ParticleTileData) (ip w_index : nat) (x y ux uy : Q) :
  m_particle_boundary bc = ParticleBoundary.Absorbing ->
  let r := EnforceBC_call bc ptd ip x y ux uy w_index in
  r_x r = x /\ r_y r = y /\ r_ux r = ux /\ r_uy r = uy
  /\ (forall comp j, comp <> w_index \/ j <> ip ->
        get_rdata (r_ptd r) comp j = get_rdata ptd comp j)
  /\ (forall j, j <> ip -> idcpu (r_ptd r) !! j = idcpu ptd !! j)
  /\ length (idcpu (r_ptd r)) = length (idcpu ptd).
Proof.
  intros Hb r. subst r. unfold EnforceBC_call. rewrite Hb.
  destruct (Rlt x (m_plo bc).1 || Rlt y (m_plo bc).2
            || Rlt (m_phi bc).1 x || Rlt (m_phi bc).2 y); cbn.
  - repeat split; try reflexivity.
    + intros comp j Hne. unfold id_make_invalid.
      change (get_rdata {| rdata := rdata (set_rdata ptd w_index ip 0);
                           idcpu := alter make_invalid ip (idcpu (set_rdata ptd w_index ip 0)) |}
                comp j)
        with (get_rdata (set_rdata ptd w_index ip 0) comp j).
      by apply get_rdata_set_other.
    + intros j Hne. by apply list_lookup_alter_ne.
    + apply length_alter.
  - repeat split; reflexivity.
Qed.

Lemma absorbing_frame_witness :
  let r := EnforceBC_call (demo_bc ParticleBoundary.Absorbing) demo_ptd 1 11 0 2 3 0 in
  r_x r = 11%Q /\ r_y r = 0%Q /\ r_ux r = 2%Q /\ r_uy r = 3%Q
  /\ (forall comp j, comp <> 0 \/ j <> 1 ->
        get_rdata (r_ptd r) comp j = get_rdata demo_ptd comp j)
  /\ (forall j, j <> 1 -> idcpu (r_ptd r) !! j = idcpu demo_ptd !! j)
  /\ length (idcpu (r_ptd r)) = length (idcpu demo_ptd).
Proof.
  apply (absorbing_frame (demo_bc ParticleBoundary.Absorbing) demo_ptd 1 0 11 0 2 3).
  reflexivity.
Defined.

(** ** Parser.H: the narrowing overloads and the string overload *)

(** X17. A NaN or an infinity is not in the range of [float]: the [float]
    overload ends the run with the overflow message on either. *)
Theorem float_rejects_nan_and_infinity (pp : ParmParse) (str : string) (v : spec_float) :
  makeParser pp str = Returned v -> SF2Q v = None ->
  fillWithParser_float pp str = Aborted float_overflow_text.
Proof.
  intros Hv Hq. unfold fillWithParser_float. rewrite Hv.
  destruct v as [s|s| |s m e]; try discriminate Hq.
  - destruct s; reflexivity.
  - reflexivity.
Qed.

Lemma float_rejects_nan_and_infinity_witness :
  fillWithParser_float (demo_pp S754_nan 0) "0/0" = Aborted float_overflow_text.
Proof.
  apply (float_rejects_nan_and_infinity (demo_pp S754_nan 0) "0/0" S754_nan);
    reflexivity.
Defined.

(** X18. What the [int] overload stores is the parsed value itself and lies
    in the range of [int]: the cast never wraps. *)
Theorem int_result_is_parsed_value (pp : ParmParse) (str : string) (val : Z) :
  fillWithParser_int pp str = Returned val ->
  makeIParser pp str = Returned val /\ (int_lowest <= val <= int_max)%Z.
Proof.
  unfold fillWithParser_int. destruct (makeIParser pp str) as [v|e]; [| discriminate].
  destruct ((v <=? int_max)%Z && (v >=? int_lowest)%Z) eqn:E; [| discriminate].
  apply andb_true_iff in E as [H1 H2]. apply Z.leb_le in H1. apply Z.geb_le in H2.
  intros [= <-]. rewrite static_cast_int_in_range by lia. split; [reflexivity | lia].
Qed.

Lemma int_result_is_parsed_value_witness :
  makeIParser (demo_pp S754_nan (-7)) "n" = Returned (-7)%Z
  /\ (int_lowest <= -7 <= int_max)%Z.
Proof.
  apply (int_result_is_parsed_value (demo_pp S754_nan (-7)) "n" (-7)). reflexivity.
Defined.

Section StateRestored.
Variable pp : ParmParse.
Variable show_double : spec_float -> string.

Lemma brace_loop_settled (str : string)
    (rec : gset string -> string -> looping (string * gset string)) :
  (forall rs s r, rec rs s = Some r -> kept rs r) ->
  forall n rs loc r,
    brace_loop n rec pp show_double str rs loc = Some r -> settled rs r.
Proof.
  intros Hrec n. induction n as [|n IH]; intros rs loc r; cbn [brace_loop].
  - destruct (rfind "{" loc) eqn:Hr; [discriminate |].
    intros [= <-]. split; [reflexivity | by apply rfind_char_none].
  - destruct (rfind "{" loc) as [pos|] eqn:Hr.
    2:{ intros [= <-]. split; [reflexivity | by apply rfind_char_none]. }
    destruct (find_from "}" loc pos) as [pos_end|]; [| by intros [= <-]].
    destruct (trim_leading loc (pos + 1) (pos_end - pos - 1)) as [[st ct]|];
      [| by intros [= <-]].
    destruct (trim_trailing loc st ct) as [ct'|]; [| by intros [= <-]].
    destruct (Nat.eqb ct' 0); [apply IH |].
    destruct (my_constants pp !! substr loc st ct') as [replacer|].
    + destruct (bool_decide (substr loc st ct' ∈ rs)) eqn:Hin; [by intros [= <-] |].
      apply bool_decide_eq_false in Hin.
      destruct (rec (rs ∪ {[substr loc st ct']}) replacer) as [[[v rs']|e]|] eqn:Hc;
        [| by intros [= <-] | discriminate].
      pose proof (Hrec _ _ _ Hc) as Hk. cbn in Hk. subst rs'.
      replace ((rs ∪ {[substr loc st ct']}) ∖ {[substr loc st ct']}) with rs
        by (apply set_eq; set_solver).
      apply IH.
    + destruct (makeParser pp (substr loc st ct')); [apply IH | by intros [= <-]].
Qed.

Lemma fillWithParser_string_kept (fuel : nat) :
  forall rs str esc r,
    fillWithParser_string fuel pp show_double rs str esc = Some r ->
    kept rs r /\ (esc = false -> settled rs r).
Proof.
  induction fuel as [|fuel IH]; intros rs str esc r; [discriminate |].
  cbn [fillWithParser_string].
  destruct (replace_all_find fuel "{{" char1 str) as [l1|]; [| discriminate].
  destruct (replace_all_rfind fuel "}}" char2 l1) as [l2|]; [| discriminate].
  destruct (brace_loop fuel _ pp show_double str rs l2) as [rl|] eqn:Hl; [| discriminate].
  apply brace_loop_settled in Hl; [| intros rs0 s0 r0 H0; by apply (IH rs0 s0 false)].
  destruct rl as [[l3 rs']|e]; [| by intros [= <-]].
  destruct Hl as [-> Hfree].
  destruct esc.
  - destruct (replace_all_find fuel char1 "{" l3) as [l4|]; [| discriminate].
    destruct (replace_all_rfind fuel char2 "}" l4) as [l5|]; [| discriminate].
    intros [= <-]. split; [reflexivity | discriminate].
  - intros [= <-]. split; [reflexivity |]. intros _. split; [reflexivity | exact Hfree].
Qed.
End StateRestored.

(** X19. The set of symbols in progress is a [static] of the function; every
    call that returns leaves it as it found it, and a call without
    back-transformation returns a string without an opening brace. *)
Theorem recursive_symbols_restored
    (pp : ParmParse) (show_double : spec_float -> string) (fuel : nat)
    (rs rs' : gset string) (str val : string) (esc : bool) :
  fillWithParser_string fuel pp show_double rs str esc = Some (Returned (val, rs')) ->
  rs' = rs /\ (esc = false -> count_char "{" val = 0).
Proof.
  intros H. destruct (fillWithParser_string_kept pp show_double fuel rs str esc _ H)
    as [Hk Hs].
  split; [exact Hk |]. intros He. by destruct (Hs He).
Qed.

Lemma recursive_symbols_restored_witness :
  (∅ : gset string) = ∅ /\ (true = false -> count_char "{" "out/run_7.h5" = 0).
Proof.
  apply (recursive_symbols_restored demo_table_pp demo_show 10 ∅ ∅ "out/{name}.h5"
           "out/run_7.h5" true).
  vm_compute. reflexivity.
Defined.

(** ** The string overload on particular shapes of input *)

Section Shapes.
Variable pp : ParmParse.
Variable show_double : spec_float -> string.

Lemma fillWithParser_string_unfold (fuel : nat) (rs : gset string) (str : string)
    (esc : bool) :
  fillWithParser_string (S fuel) pp show_double rs str esc
  = match replace_all_find fuel "{{" char1 str with
    | None => None
    | Some loc_str =>
        match replace_all_rfind fuel "}}" char2 loc_str with
        | None => None
        | Some loc_str =>
            match brace_loop fuel
                    (fun rs0 replacer =>
                       fillWithParser_string fuel pp show_double rs0 replacer false)
                    pp show_double str rs loc_str with
            | None => None
            | Some (Aborted e) => Some (Aborted e)
            | Some (Returned (loc_str, recursive_symbols)) =>
                if esc then
                  match replace_all_find fuel char1 "{" loc_str with
                  | None => None
                  | Some loc_str =>
                      match replace_all_rfind fuel char2 "}" loc_str with
                      | None => None
                      | Some loc_str => Some (Returned (loc_str, recursive_symbols))
                      end
                  end
                else Some (Returned (loc_str, recursive_symbols))
            end
        end
    end.
Proof. reflexivity. Qed.

Lemma replace_all_find_none (fuel : nat) (pat new s : string) :
  find0 pat s = None -> replace_all_find fuel pat new s = Some s.
Proof. intros H. destruct fuel; cbn [replace_all_find]; by rewrite H. Qed.

Lemma replace_all_rfind_none (fuel : nat) (pat new s : string) :
  rfind pat s = None -> replace_all_rfind fuel pat new s = Some s.
Proof. intros H. destruct fuel; cbn [replace_all_rfind]; by rewrite H. Qed.

Lemma replace_all_find_once (fuel : nat) (pat new s : string) (pos : nat) :
  find0 pat s = Some pos ->
  replace_all_find (S fuel) pat new s
  = replace_all_find fuel pat new (replace_str s pos (String.length pat) new).
Proof. intros H. cbn [replace_all_find]. by rewrite H. Qed.

Lemma replace_all_rfind_once (fuel : nat) (pat new s : string) (pos : nat) :
  rfind pat s = Some pos ->
  replace_all_rfind (S fuel) pat new s
  = replace_all_rfind fuel pat new (replace_str s pos (String.length pat) new).
Proof. intros H. cbn [replace_all_rfind]. by rewrite H. Qed.

Lemma brace_loop_none (fuel : nat)
    (rec : gset string -> string -> looping (string * gset string))
    (str : string) (rs : gset string) (loc : string) :
  rfind "{" loc = None ->
  brace_loop fuel rec pp show_double str rs loc = Some (Returned (loc, rs)).
Proof. intros H. destruct fuel; cbn [brace_loop]; by rewrite H. Qed.

Lemma plain_string_returned (fuel : nat) (rs : gset string) (str : string) (esc : bool) :
  count_char "{" str = 0 -> count_char "}" str = 0 ->
  (esc = true -> count_char (ascii_of_nat 1) str = 0 /\ count_char (ascii_of_nat 2) str = 0) ->
  fillWithParser_string (S fuel) pp show_double rs str esc = Some (Returned (str, rs)).
Proof.
  intros Ho Hc He. rewrite fillWithParser_string_unfold.
  rewrite (replace_all_find_none _ _ _ _ (find0_none_of_count "{" "{" str Ho)).
  rewrite (replace_all_rfind_none _ _ _ _ (rfind_none_of_count "}" "}" str Hc)).
  rewrite (brace_loop_none _ _ _ _ _ (rfind_none_of_count "{" "" str Ho)).
  destruct esc; [| reflexivity].
  destruct (He eq_refl) as [H1 H2]. unfold char1, char2.
  rewrite (replace_all_find_none _ _ _ _ (find0_none_of_count _ "" str H1)).
  by rewrite (replace_all_rfind_none _ _ _ _ (rfind_none_of_count _ "" str H2)).
Qed.

Lemma replace_whole_reference (sym v : string) :
  replace_str (reference sym) 0 (S (String.length sym) - 0 + 1) v = v.
Proof.
  unfold replace_str, reference.
  replace (0 + (S (String.length sym) - 0 + 1)) with (S (String.length sym + 1)) by lia.
  change ("{" +:+ sym +:+ "}") with (String "{" (sym +:+ "}")).
  cbn [take_str drop_str]. rewrite drop_str_add.
  assert (Hd : forall a b, drop_str (String.length a) (a +:+ b) = b).
  { intros a b. induction a as [|c a IH]; [by destruct b |].
    rewrite string_app_cons. cbn [String.length drop_str]. exact IH. }
  rewrite Hd. cbn [drop_str].
  change (EmptyString +:+ v +:+ EmptyString) with (v +:+ EmptyString).
  clear. induction v as [|c v IH]; [reflexivity |].
  rewrite string_app_cons. by rewrite IH.
Qed.

(** X21. A reference [{sym}] to a symbol of [my_constants] whose value has no
    braces is replaced by that value. *)
Theorem reference_gives_value (fuel : nat) (rs : gset string) (sym v : string) (esc : bool) :
  plain_name sym -> my_constants pp !! sym = Some v -> sym ∉ rs ->
  count_char "{" v = 0 -> count_char "}" v = 0 ->
  (esc = true -> count_char (ascii_of_nat 1) v = 0 /\ count_char (ascii_of_nat 2) v = 0) ->
  fillWithParser_string (S (S (S fuel))) pp show_double rs (reference sym) esc
  = Some (Returned (v, rs)).
Proof.
  intros Hplain Hv Hnin Ho Hc He.
  destruct (reference_round sym Hplain) as (H1 & H2 & H3 & H4 & H5 & H6 & H7 & H8).
  rewrite fillWithParser_string_unfold.
  rewrite (replace_all_find_none _ _ _ _ H1), (replace_all_rfind_none _ _ _ _ H2).
  cbn [brace_loop]. rewrite H3, H4, H5, H6, H7, H8, Hv.
  rewrite (bool_decide_eq_false_2 _ Hnin).
  rewrite (plain_string_returned (S fuel) (rs ∪ {[sym]}) v false Ho Hc ltac:(discriminate)).
  rewrite replace_whole_reference.
  rewrite (rfind_none_of_count "{" "" v Ho).
  replace ((rs ∪ {[sym]}) ∖ {[sym]}) with rs by (apply set_eq; set_solver).
  destruct esc; [| reflexivity].
  destruct (He eq_refl) as [E1 E2]. unfold char1, char2.
  rewrite (replace_all_find_none _ _ _ _ (find0_none_of_count _ "" v E1)).
  by rewrite (replace_all_rfind_none _ _ _ _ (rfind_none_of_count _ "" v E2)).
Qed.

(** X22. Braces around an expression that is not a symbol of [my_constants]
    are replaced by the text of the number the parser gives for it. *)
Theorem expression_gives_number (fuel : nat) (rs : gset string) (e : string) (x : spec_float)
    (esc : bool) :
  plain_name e -> my_constants pp !! e = None -> makeParser pp e = Returned x ->
  count_char "{" (show_double x) = 0 ->
  (esc = true -> count_char (ascii_of_nat 1) (show_double x) = 0
                 /\ count_char (ascii_of_nat 2) (show_double x) = 0) ->
  fillWithParser_string (S (S (S fuel))) pp show_double rs (reference e) esc
  = Some (Returned (show_double x, rs)).
Proof.
  intros Hplain Hv Hx Ho He.
  destruct (reference_round e Hplain) as (H1 & H2 & H3 & H4 & H5 & H6 & H7 & H8).
  rewrite fillWithParser_string_unfold.
  rewrite (replace_all_find_none _ _ _ _ H1), (replace_all_rfind_none _ _ _ _ H2).
  cbn [brace_loop]. rewrite H3, H4, H5, H6, H7, H8, Hv, Hx.
  rewrite replace_whole_reference.
  rewrite (rfind_none_of_count "{" "" _ Ho).
  destruct esc; [| reflexivity].
  destruct (He eq_refl) as [E1 E2]. unfold char1, char2.
  rewrite (replace_all_find_none _ _ _ _ (find0_none_of_count _ "" _ E1)).
  by rewrite (replace_all_rfind_none _ _ _ _ (rfind_none_of_count _ "" _ E2)).
Qed.

End Shapes.

(** X20. A string without braces is returned as it is, with the set of
    symbols in progress untouched; with back-transformation this needs the
    string to be free of the two stand-in characters as well. *)
Theorem plain_string_unchanged (pp : ParmParse) (show_double : spec_float -> string)
    (fuel : nat) (rs : gset string) (str : string) (esc : bool) :
  count_char "{" str = 0 -> count_char "}" str = 0 ->
  (esc = true -> count_char (ascii_of_nat 1) str = 0 /\ count_char (ascii_of_nat 2) str = 0) ->
  fillWithParser_string (S fuel) pp show_double rs str esc = Some (Returned (str, rs)).
Proof. apply plain_string_returned. Qed.

Lemma plain_string_unchanged_witness :
  fillWithParser_string 1 demo_table_pp demo_show ∅ "diags/hdf5" true
  = Some (Returned ("diags/hdf5", ∅)).
Proof.
  apply (plain_string_unchanged demo_table_pp demo_show 0 ∅ "diags/hdf5" true);
    [reflexivity | reflexivity | intros _; split; reflexivity].
Defined.

Lemma plain_name_id : plain_name "id".
Proof. repeat split. discriminate. Qed.

Lemma reference_gives_value_witness :
  fillWithParser_string 3 demo_table_pp demo_show ∅ (reference "id") true
  = Some (Returned ("7", ∅)).
Proof.
  apply (reference_gives_value demo_table_pp demo_show 0 ∅ "id" "7" true plain_name_id);
    [reflexivity | apply not_elem_of_empty | reflexivity | reflexivity
    | intros _; split; reflexivity].
Defined.

Lemma plain_name_sum : plain_name "1+1".
Proof. repeat split. discriminate. Qed.

Lemma expression_gives_number_witness :
  fillWithParser_string 3 demo_table_pp demo_show ∅ (reference "1+1") true
  = Some (Returned (demo_show (S754_zero false), ∅)).
Proof.
  apply (expression_gives_number demo_table_pp demo_show 0 ∅ "1+1" (S754_zero false) true
           plain_name_sum);
    [reflexivity | reflexivity | reflexivity | intros _; split; reflexivity].
Defined.

Section Escapes.

Lemma drop_str_app (a b : string) : drop_str (String.length a) (a +:+ b) = b.
Proof.
  induction a as [|c a IH]; [by destruct b |].
  rewrite string_app_cons. cbn [String.length drop_str]. exact IH.
Qed.

Lemma app_empty_r (s : string) : s +:+ EmptyString = s.
Proof. induction s as [|c s IH]; [reflexivity |]. rewrite string_app_cons. by rewrite IH. Qed.

Lemma prefix_app (pat t : string) : String.prefix pat (pat +:+ t) = true.
Proof.
  induction pat as [|c pat IH]; [by destruct t |].
  rewrite string_app_cons. cbn [String.prefix].
  destruct (ascii_dec c c) as [_|Hne]; [exact IH | congruence].
Qed.

Lemma find0_prefix (pat s : string) : String.prefix pat s = true -> find0 pat s = Some 0.
Proof. intros H. destruct s; cbn [find0]; by rewrite H. Qed.

Lemma prefix_short (pat s : string) :
  String.length s < String.length pat -> String.prefix pat s = false.
Proof.
  revert s. induction pat as [|c pat IH]; intros s H; cbn [String.length] in H; [lia |].
  destruct s as [|c' s]; [reflexivity |]. cbn [String.prefix String.length] in *.
  destruct (ascii_dec c c'); [apply IH; lia | reflexivity].
Qed.

Lemma rfind_short (pat s : string) :
  String.length s < String.length pat -> rfind pat s = None.
Proof.
  induction s as [|c s IH]; intros H; [reflexivity |].
  cbn [rfind]. rewrite IH by (cbn [String.length] in H; lia).
  by rewrite prefix_short.
Qed.

(** The last occurrence of a pattern the string ends in. *)
Lemma rfind_at_end (pat a : string) :
  pat <> EmptyString -> rfind pat (a +:+ pat) = Some (String.length a).
Proof.
  intros Hne. induction a as [|c a IH].
  - change (EmptyString +:+ pat) with pat.
    destruct pat as [|c pat]; [congruence |].
    cbn [rfind]. rewrite rfind_short by (cbn [String.length]; lia).
    pose proof (prefix_app (String c pat) EmptyString) as Hp.
    rewrite app_empty_r in Hp. by rewrite Hp.
  - rewrite string_app_cons. cbn [rfind]. by rewrite IH.
Qed.

Lemma replace_at_start (pat new t : string) :
  replace_str (pat +:+ t) 0 (String.length pat) new = new +:+ t.
Proof.
  unfold replace_str. cbn [take_str]. change (0 + String.length pat) with (String.length pat).
  rewrite drop_str_app. by destruct (pat +:+ t).
Qed.

Lemma replace_at_end (pat new a : string) :
  replace_str (a +:+ pat) (String.length a) (String.length pat) new = a +:+ new.
Proof.
  unfold replace_str. rewrite take_str_app, drop_str_add, drop_str_app.
  pose proof (drop_str_app pat EmptyString) as Hd. rewrite app_empty_r in Hd.
  by rewrite Hd, app_empty_r.
Qed.

End Escapes.

Section EscapedBraces.
Variable pp : ParmParse.
Variable show_double : spec_float -> string.

(** X23. Doubled braces stand for literal braces: text between [{{] and [}}]
    is not read as an expression; with back-transformation it comes back
    between single braces, without it between the two stand-in characters. *)
Theorem doubled_braces_are_literal (fuel : nat) (rs : gset string) (s : string) (esc : bool) :
  count_char "{" s = 0 -> count_char "}" s = 0 ->
  count_char (ascii_of_nat 1) s = 0 -> count_char (ascii_of_nat 2) s = 0 ->
  fillWithParser_string (S (S fuel)) pp show_double rs ("{{" +:+ s +:+ "}}") esc
  = Some (Returned (if esc then "{" +:+ s +:+ "}" else char1 +:+ s +:+ char2, rs)).
Proof.
  intros Ho Hc H1 H2. rewrite fillWithParser_string_unfold.
  (* {{ becomes char(1) *)
  rewrite (replace_all_find_once fuel "{{" char1 _ 0 (find0_prefix _ _ (prefix_app "{{" _))).
  rewrite (replace_at_start "{{" char1 (s +:+ "}}")).
  rewrite (replace_all_find_none fuel "{{" char1 (char1 +:+ s +:+ "}}"))
    by (apply find0_none_of_count; unfold char1; rewrite !count_char_app, Ho; reflexivity).
  (* }} becomes char(2) *)
  replace (char1 +:+ s +:+ "}}") with ((char1 +:+ s) +:+ "}}")
    by (by rewrite string_app_assoc).
  rewrite (replace_all_rfind_once fuel "}}" char2 _ _
             (rfind_at_end "}}" (char1 +:+ s) ltac:(discriminate))).
  rewrite (replace_at_end "}}" char2 (char1 +:+ s)).
  assert (Hc' : count_char "}" ((char1 +:+ s) +:+ char2) = 0)
    by (unfold char1, char2; rewrite !count_char_app, Hc; reflexivity).
  assert (Ho' : count_char "{" ((char1 +:+ s) +:+ char2) = 0)
    by (unfold char1, char2; rewrite !count_char_app, Ho; reflexivity).
  rewrite (replace_all_rfind_none fuel "}}" char2 _ (rfind_none_of_count "}" "}" _ Hc')).
  rewrite (brace_loop_none pp show_double _ _ _ _ _ (rfind_none_of_count "{" "" _ Ho')).
  destruct esc; [| by rewrite string_app_assoc].
  (* and back *)
  rewrite (string_app_assoc char1 s char2).
  rewrite (replace_all_find_once fuel char1 "{" _ 0 (find0_prefix _ _ (prefix_app char1 _))).
  rewrite (replace_at_start char1 "{" (s +:+ char2)).
  rewrite (replace_all_find_none fuel char1 "{" ("{" +:+ s +:+ char2))
    by (unfold char1, char2; apply find0_none_of_count;
        rewrite !count_char_app, H1; reflexivity).
  replace ("{" +:+ s +:+ char2) with (("{" +:+ s) +:+ char2)
    by (by rewrite string_app_assoc).
  rewrite (replace_all_rfind_once fuel char2 "}" _ _
             (rfind_at_end char2 ("{" +:+ s) ltac:(discriminate))).
  rewrite (replace_at_end char2 "}" ("{" +:+ s)).
  rewrite (replace_all_rfind_none fuel char2 "}" _)
    by (unfold char2; apply rfind_none_of_count;
        rewrite !count_char_app, H2; reflexivity).
  by rewrite string_app_assoc.
Qed.

End EscapedBraces.

Lemma doubled_braces_are_literal_witness :
  fillWithParser_string 2 demo_table_pp demo_show ∅ ("{{" +:+ "id" +:+ "}}") true
  = Some (Returned ("{" +:+ "id" +:+ "}", ∅)).
Proof.
  apply (doubled_braces_are_literal demo_table_pp demo_show 0 ∅ "id" true); reflexivity.
Defined.

Section Trims.

Lemma get_lt (s : string) (i : nat) (c : ascii) :
  String.get i s = Some c -> i < String.length s.
Proof.
  revert i. induction s as [|c' s IH]; intros i; [discriminate |].
  destruct i as [|i]; cbn [String.get String.length]; [lia |].
  intros H. specialize (IH i H). lia.
Qed.

Lemma find0_get (c : ascii) (s : string) (i : nat) :
  find0 (String c EmptyString) s = Some i -> String.get i s = Some c.
Proof.
  revert i. induction s as [|c' s IH]; intros i; [discriminate |].
  cbn [find0]. rewrite prefix_char.
  destruct (Ascii.eqb c' c) eqn:E.
  - intros [= <-]. apply Ascii.eqb_eq in E. by subst.
  - destruct (find0 (String c EmptyString) s) as [j|]; [| discriminate].
    intros [= <-]. cbn [String.get]. by apply IH.
Qed.

Lemma find_from_get (c : ascii) (s : string) (pos i : nat) :
  find_from (String c EmptyString) s pos = Some i -> String.get i s = Some c.
Proof.
  revert s i. induction pos as [|pos IH]; intros s i.
  - apply find0_get.
  - destruct s as [|c' s]; [discriminate |].
    change (find_from (String c EmptyString) (String c' s) (S pos))
      with (S <$> find_from (String c EmptyString) s pos).
    destruct (find_from (String c EmptyString) s pos) as [j|] eqn:E; [| discriminate].
    intros [= <-]. cbn [String.get]. by apply IH.
Qed.

Lemma rfind_get (c : ascii) (s : string) (i : nat) :
  rfind (String c EmptyString) s = Some i -> String.get i s = Some c.
Proof.
  revert i. induction s as [|c' s IH]; intros i; [discriminate |].
  cbn [rfind]. destruct (rfind (String c EmptyString) s) as [j|].
  - intros [= <-]. cbn [String.get]. by apply IH.
  - rewrite prefix_char. destruct (Ascii.eqb c' c) eqn:E; [| discriminate].
    intros [= <-]. apply Ascii.eqb_eq in E. by subst.
Qed.

Lemma trim_leading_in_range (loc : string) (ct : nat) :
  forall st, st + ct < String.length loc ->
    exists st' ct', trim_leading loc st ct = Returned (st', ct')
      /\ st' + ct' = st + ct /\ st <= st'
      /\ (ct' <> 0 -> at_str loc st' <> Some " "%char).
Proof.
  induction ct as [|ct IH]; intros st Hlt.
  - destruct (get_is_Some loc st ltac:(lia)) as [c Hc].
    exists st, 0. cbn [trim_leading]. unfold at_str. rewrite Hc. by repeat split.
  - destruct (get_is_Some loc st ltac:(lia)) as [c Hc].
    cbn [trim_leading]. unfold at_str at 1. rewrite Hc.
    destruct (Ascii.eqb c " ") eqn:E.
    + destruct (IH (S st) ltac:(lia)) as (st' & ct' & H1 & H2 & H3 & H4).
      exists st', ct'. repeat split; [exact H1 | lia | lia | exact H4].
    + exists st, (S ct). repeat split; try lia.
      unfold at_str. rewrite Hc. intros _ [= ->]. by rewrite Ascii.eqb_refl in E.
Qed.

Lemma trim_trailing_in_range (loc : string) (st : nat) :
  1 <= st ->
  forall ct, st + ct <= String.length loc ->
    exists ct', trim_trailing loc st ct = Returned ct' /\ ct' <= ct
      /\ (ct' <> 0 -> at_str loc (st + ct' - 1) <> Some " "%char).
Proof.
  intros Hst. induction ct as [|ct IH]; intros Hle.
  - destruct (get_is_Some loc (st + 0 - 1) ltac:(lia)) as [c Hc].
    exists 0. cbn [trim_trailing]. unfold at_str. rewrite Hc. by repeat split.
  - destruct (get_is_Some loc (st + S ct - 1) ltac:(lia)) as [c Hc].
    cbn [trim_trailing]. unfold at_str at 1. rewrite Hc.
    destruct (Ascii.eqb c " ") eqn:E.
    + destruct (IH ltac:(lia)) as (ct' & H1 & H2 & H3).
      exists ct'. repeat split; [exact H1 | lia | exact H3].
    + exists (S ct). repeat split; [lia |].
      unfold at_str. rewrite Hc. intros _ [= ->]. by rewrite Ascii.eqb_refl in E.
Qed.

End Trims.

(** X24. In the brace loop the bounds-checked reads of the two trimming loops
    never fail: when the last opening brace is at [pos] and the first closing
    brace after it at [pos_end], both loops return, and what is left for the
    parser lies strictly between the two braces and neither starts nor ends
    with a blank. *)
Theorem trimming_stays_between_braces (loc_str : string) (pos pos_end : nat) :
  rfind "{" loc_str = Some pos -> find_from "}" loc_str pos = Some pos_end ->
  exists pos_start_trim count pos_count_trim,
    trim_leading loc_str (pos + 1) (pos_end - pos - 1) = Returned (pos_start_trim, count)
    /\ trim_trailing loc_str pos_start_trim count = Returned pos_count_trim
    /\ pos < pos_start_trim /\ pos_start_trim + pos_count_trim <= pos_end
    /\ (pos_count_trim <> 0 ->
        at_str loc_str pos_start_trim <> Some " "%char
        /\ at_str loc_str (pos_start_trim + pos_count_trim - 1) <> Some " "%char).
Proof.
  intros Hr Hf.
  pose proof (rfind_get _ _ _ Hr) as Hopen.
  pose proof (find_from_get _ _ _ _ Hf) as Hclose.
  pose proof (find_from_ge _ _ _ _ Hf) as Hge.
  pose proof (get_lt _ _ _ Hclose) as Hlen.
  assert (Hneq : pos <> pos_end) by (intros ->; congruence).
  destruct (trim_leading_in_range loc_str (pos_end - pos - 1) (pos + 1) ltac:(lia))
    as (st & ct & H1 & H2 & H3 & H4).
  destruct (trim_trailing_in_range loc_str st ltac:(lia) ct ltac:(lia))
    as (ct' & H5 & H6 & H7).
  exists st, ct, ct'. split; [exact H1 |]. split; [exact H5 |].
  split; [lia |]. split; [lia |].
  intros Hnz. split; [apply H4; lia | by apply H7].
Qed.

Lemma trimming_stays_between_braces_witness :
  exists pos_start_trim count pos_count_trim,
    trim_leading "a{ x+1  }b" (1 + 1) (8 - 1 - 1) = Returned (pos_start_trim, count)
    /\ trim_trailing "a{ x+1  }b" pos_start_trim count = Returned pos_count_trim
    /\ 1 < pos_start_trim /\ pos_start_trim + pos_count_trim <= 8
    /\ (pos_count_trim <> 0 ->
        at_str "a{ x+1  }b" pos_start_trim <> Some " "%char
        /\ at_str "a{ x+1  }b" (pos_start_trim + pos_count_trim - 1) <> Some " "%char).
Proof.
  apply (trimming_stays_between_braces "a{ x+1  }b" 1 8); reflexivity.
Defined.

(** ** Arrays of expressions *)

Section FillArr.
Context {T : Type}.
Variable fill : string -> outcome T.

Lemma fill_elements_returned (str_arr : list string) (vs : list T) :
  fill_elements fill str_arr = Returned vs
  <-> Forall2 (fun str v => fill str = Returned v) str_arr vs.
Proof.
  revert vs. induction str_arr as [|str rest IH]; intros vs; cbn [fill_elements].
  - split.
    + intros [= <-]. constructor.
    + intros H. inversion H. reflexivity.
  - split.
    + destruct (fill str) as [v|e] eqn:Hv; [| discriminate].
      destruct (fill_elements fill rest) as [vs'|e] eqn:Hr; [| discriminate].
      intros [= <-]. constructor; [exact Hv | by apply IH].
    + intros H. inversion H as [|? v ? vs' Hv Hrest]; subst.
      rewrite Hv. apply IH in Hrest. by rewrite Hrest.
Qed.

Lemma fold_join (rest : list string) (acc : string) (b : string) :
  fold_left (fun str s => str +:+ (" " +:+ s)) rest (acc +:+ b)
  = acc +:+ fold_left (fun str s => str +:+ (" " +:+ s)) rest b.
Proof.
  revert b. induction rest as [|s rest IH]; intros b; cbn [fold_left]; [reflexivity |].
  rewrite <- IH. f_equal. by rewrite string_app_assoc.
Qed.

End FillArr.

(** X25. The overload for [std::array<T,size>] returns exactly when the
    number of words is [size] and every word parses, and then gives [size]
    values, the i-th from the i-th word; with another number of words the
    run ends with the wrong-length text, whether or not the words parse. *)
Theorem array_needs_its_length {T : Type} (fill : string -> outcome T) (size : nat)
    (str_arr : list string) :
  (forall vs, fillWithParserArr_array fill size str_arr = Returned vs
     <-> length str_arr = size
         /\ Forall2 (fun str v => fill str = Returned v) str_arr vs)
  /\ (forall vs, fillWithParserArr_array fill size str_arr = Returned vs ->
        length vs = size)
  /\ (length str_arr <> size ->
      fillWithParserArr_array fill size str_arr = Aborted (wrong_length_text str_arr size)).
Proof.
  unfold fillWithParserArr_array.
  destruct (Nat.eqb (length str_arr) size) eqn:E.
  - apply Nat.eqb_eq in E. split; [| split].
    + intros vs. rewrite fill_elements_returned. tauto.
    + intros vs H. apply fill_elements_returned in H.
      apply Forall2_length in H. lia.
    + intros H. contradiction.
  - apply Nat.eqb_neq in E. split; [| split].
    + intros vs. split; [discriminate | intros [H _]; contradiction].
    + intros vs. discriminate.
    + reflexivity.
Qed.

Lemma array_needs_its_length_witness :
  fillWithParserArr_array (fillWithParser_int (demo_pp S754_nan 4)) 3 ["1"; "2+2"]
  = Aborted (wrong_length_text ["1"; "2+2"] 3).
Proof.
  apply (proj2 (proj2 (array_needs_its_length (fillWithParser_int (demo_pp S754_nan 4)) 3
                         ["1"; "2+2"]))).
  cbn. lia.
Defined.

(** X26. The overloads for vectors take any number of words and give one
    value for each, in order; the first word that does not parse ends the
    run with its error, whatever comes after it. *)
Theorem vector_is_elementwise {T : Type} (fill : string -> outcome T) :
  (forall str_arr vs, fillWithParserArr_vector fill str_arr = Returned vs
     <-> Forall2 (fun str v => fill str = Returned v) str_arr vs)
  /\ (forall before str after e,
        Forall (fun s => is_Returned (fill s) = true) before -> fill str = Aborted e ->
        fillWithParserArr_vector fill (before ++ str :: after) = Aborted e).
Proof.
  split.
  - intros str_arr vs. apply fill_elements_returned.
  - intros before str after e Hb He. unfold fillWithParserArr_vector.
    induction Hb as [|s before Hs Hb IH]; cbn [app fill_elements].
    + by rewrite He.
    + destruct (fill s) as [v|e']; [| discriminate Hs]. by rewrite IH.
Qed.

Lemma vector_is_elementwise_witness :
  fillWithParserArr_vector (fillWithParser_int (demo_pp S754_nan 4)) ["1"; "2+2"]
  = Returned [4%Z; 4%Z].
Proof.
  apply (proj1 (vector_is_elementwise (fillWithParser_int (demo_pp S754_nan 4)))).
  repeat constructor.
Defined.

(** X27. The scalar overload parses the words as one expression with single
    blanks between them: joining two non-empty runs of words gives the two
    joined texts with one blank in between. *)
Theorem join_words_app (a b : list string) :
  a <> [] -> b <> [] ->
  join_words (a ++ b) = join_words a +:+ " " +:+ join_words b.
Proof.
  intros Ha Hb. destruct a as [|a0 a]; [congruence |]. clear Ha.
  destruct b as [|b0 b]; [congruence |]. clear Hb.
  cbn [join_words app]. rewrite fold_left_app. cbn [fold_left].
  generalize (fold_left (fun str s => str +:+ (" " +:+ s)) a a0). intros acc.
  rewrite fold_join. by rewrite fold_join.
Qed.

Lemma join_words_app_witness :
  join_words (["2"; "*"] ++ ["kp"]) = join_words ["2"; "*"] +:+ " " +:+ join_words ["kp"].
Proof. apply (join_words_app ["2"; "*"] ["kp"]); discriminate. Defined.

(** ** Looking a name up in two tables *)

Section QueryProps.
Context {T : Type}.
Variable queryarr : ParmParse -> string -> option (list string).
Variable getarr_error : ParmParse -> string -> string.
Variable fillWithParserArr : ParmParse -> list string -> outcome T.

Lemma queryWithParser_false (pp : ParmParse) (str : string) (val v : T) :
  queryWithParser queryarr fillWithParserArr pp str val = Returned (false, v)
  <-> queryarr pp str = None /\ v = val.
Proof.
  unfold queryWithParser. destruct (queryarr pp str) as [f|].
  - destruct (fillWithParserArr pp f); split; try discriminate; intros [? _]; discriminate.
  - split; [intros [= <-]; done | intros [_ ->]; done].
Qed.

End QueryProps.

(** X28. [queryWithParserAlt] gives [pp] precedence: when the name is in
    [pp], [pp_alt] is not looked at, also when the words of [pp] do not parse;
    when it is not in [pp], the answer is that of [pp_alt]; and [false] is
    returned exactly when the name is in neither, with [val] left as it was. *)
Theorem queryWithParserAlt_precedence {T : Type}
    (queryarr : ParmParse -> string -> option (list string))
    (fillWithParserArr : ParmParse -> list string -> outcome T)
    (pp pp_alt : ParmParse) (str : string) (val : T) :
  (forall f, queryarr pp str = Some f ->
     queryWithParserAlt queryarr fillWithParserArr pp str val pp_alt
     = queryWithParser queryarr fillWithParserArr pp str val)
  /\ (queryarr pp str = None ->
      queryWithParserAlt queryarr fillWithParserArr pp str val pp_alt
      = queryWithParser queryarr fillWithParserArr pp_alt str val)
  /\ (forall v, queryWithParserAlt queryarr fillWithParserArr pp str val pp_alt
                = Returned (false, v)
      <-> queryarr pp str = None /\ queryarr pp_alt str = None /\ v = val).
Proof.
  split; [| split].
  - intros f Hf. unfold queryWithParserAlt, queryWithParser. rewrite Hf.
    by destruct (fillWithParserArr pp f).
  - intros Hn. unfold queryWithParserAlt. unfold queryWithParser at 1. by rewrite Hn.
  - intros v. unfold queryWithParserAlt.
    destruct (queryWithParser queryarr fillWithParserArr pp str val) as [[[|] v1]|e] eqn:E.
    + unfold queryWithParser in E. destruct (queryarr pp str) as [f|].
      * split; [discriminate | intros [? _]; discriminate].
      * discriminate.
    + apply queryWithParser_false in E as [E1 ->].
      rewrite queryWithParser_false. tauto.
    + unfold queryWithParser in E. destruct (queryarr pp str) as [f|].
      * split; [discriminate | intros [? _]; discriminate].
      * discriminate.
Qed.

Lemma queryWithParserAlt_precedence_witness :
  queryWithParserAlt demo_queryarr
    (fun pp f => fillWithParserArr_scalar (fillWithParser_int pp) f)
    (demo_pp S754_nan 5) "id" 0%Z demo_table_pp
  = queryWithParser demo_queryarr
      (fun pp f => fillWithParserArr_scalar (fillWithParser_int pp) f)
      demo_table_pp "id" 0%Z.
Proof.
  apply (proj1 (proj2 (queryWithParserAlt_precedence demo_queryarr
                         (fun pp f => fillWithParserArr_scalar (fillWithParser_int pp) f)
                         (demo_pp S754_nan 5) demo_table_pp "id" 0%Z))).
  reflexivity.
Defined.

(** X29. [getWithParserAlt] gives the value of [pp] when the name is there,
    else that of [pp_alt] parsed with [pp_alt] when it is there, and else
    ends the run with the error of [getarr] on [pp], not on [pp_alt]. *)
Theorem getWithParserAlt_found_or_fatal {T : Type}
    (queryarr : ParmParse -> string -> option (list string))
    (getarr_error : ParmParse -> string -> string)
    (fillWithParserArr : ParmParse -> list string -> outcome T)
    (pp pp_alt : ParmParse) (str : string) (val : T) :
  (forall f, queryarr pp str = Some f ->
     getWithParserAlt queryarr getarr_error fillWithParserArr pp str val pp_alt
     = fillWithParserArr pp f)
  /\ (forall f, queryarr pp str = None -> queryarr pp_alt str = Some f ->
        getWithParserAlt queryarr getarr_error fillWithParserArr pp str val pp_alt
        = fillWithParserArr pp_alt f)
  /\ (queryarr pp str = None -> queryarr pp_alt str = None ->
      getWithParserAlt queryarr getarr_error fillWithParserArr pp str val pp_alt
      = Aborted (getarr_error pp str)).
Proof.
  unfold getWithParserAlt, queryWithParserAlt, queryWithParser, getWithParser.
  split; [| split].
  - intros f ->. by destruct (fillWithParserArr pp f).
  - intros f -> ->. by destruct (fillWithParserArr pp_alt f).
  - intros -> ->. reflexivity.
Qed.

Lemma getWithParserAlt_found_or_fatal_witness :
  getWithParserAlt demo_queryarr (fun _ str => str)
    (fun pp f => fillWithParserArr_scalar (fillWithParser_int pp) f)
    (demo_pp S754_nan 5) "dt" 0%Z demo_table_pp
  = Aborted "dt".
Proof.
  apply (proj2 (proj2 (getWithParserAlt_found_or_fatal demo_queryarr (fun _ str => str)
                         (fun pp f => fillWithParserArr_scalar (fillWithParser_int pp) f)
                         (demo_pp S754_nan 5) demo_table_pp "dt" 0%Z))); reflexivity.
Defined.

(** ** The text of a function *)

Lemma clean_char_clean (c : ascii) :
  Ascii.eqb (clean_char c) (ascii_of_nat 10) = false
  /\ Ascii.eqb (clean_char c) (ascii_of_nat 13) = false
  /\ Ascii.eqb (clean_char c) (ascii_of_nat 9) = false.
Proof.
  unfold clean_char.
  destruct (Ascii.eqb c (ascii_of_nat 10)) eqn:E1;
    destruct (Ascii.eqb c (ascii_of_nat 13)) eqn:E2;
    destruct (Ascii.eqb c (ascii_of_nat 9)) eqn:E3;
    cbn [orb]; rewrite ?E1, ?E2, ?E3; repeat split; reflexivity.
Qed.

(** X30. The text handed to the parser by [makeFunctionWithParser] has the
    length of the function text and no newline, carriage return or tab in
    it; every other character is where it was, and cleaning a clean text
    changes nothing. *)
Theorem clean_str_has_no_line_breaks (func_str : string) :
  String.length (clean_str func_str) = String.length func_str
  /\ count_char (ascii_of_nat 10) (clean_str func_str) = 0
  /\ count_char (ascii_of_nat 13) (clean_str func_str) = 0
  /\ count_char (ascii_of_nat 9) (clean_str func_str) = 0
  /\ (forall i, String.get i (clean_str func_str) = clean_char <$> String.get i func_str)
  /\ clean_str (clean_str func_str) = clean_str func_str.
Proof.
  induction func_str as [|c s (IH1 & IH2 & IH3 & IH4 & IH5 & IH6)].
  - repeat split; try reflexivity; intros i; by destruct i.
  - destruct (clean_char_clean c) as (C1 & C2 & C3).
    cbn [clean_str String.length count_char]. rewrite C1, C2, C3, IH1, IH2, IH3, IH4, IH6.
    split; [reflexivity |]. split; [reflexivity |]. split; [reflexivity |].
    split; [reflexivity |]. split.
    + intros [|i]; cbn [String.get]; [reflexivity | apply IH5].
    + f_equal. unfold clean_char at 1. by rewrite C1, C2, C3.
Qed.
